(** * Quick-AI plugin: cache store, debounce utility, editor registry and
    command executor

    A shallow embedding of the TypeScript sources
    [cacheManager.ts], [utils/debounce.ts], [configManager.ts] and
    [commandExecutor.ts], with the properties the specification states
    about them (theorems [C1] to [C10]) and further properties of the same
    code (theorems [X1] to [X30]).

    Conventions of the embedding:
    - a JavaScript [number] that holds a time stamp, a duration, a size or a
      line number is an integer of [Z]; fractions are not modelled, nor
      the exponent notation in which a number from [1e21] on is printed,
      and [NaN] only where the code can produce it ([remainingWait]);
    - a JavaScript string is the list of the bytes of its UTF-8 encoding;
    - [Date.now()] is an explicit argument [now] of every operation that
      reads the clock; the reads of one synchronous operation return one
      value;
    - a [Map<string, V>] is an association list in insertion order, as the
      iteration order of a JavaScript [Map] is observable ([for ... of]);
    - [undefined] results are [None];
    - logging ([console.*]) has no effect on the modelled state. *)

From Stdlib Require Import ZArith List String Ascii Bool Lia DecimalString.
Import ListNotations.

Local Open Scope Z_scope.

Lemma last_cons {X : Type} (l : list X) :
  forall x d, last (x :: l) d = last l x.
Proof.
  induction l as [|y r IH]; intros x d; [reflexivity|].
  change (last (x :: y :: r) d) with (last (y :: r) d).
  now rewrite (IH y d), (IH y x).
Qed.

(** ** JavaScript [Map] with string keys, in insertion order *)

Module JsMap.
Section WithValue.
Context {V : Type}.

Definition t := list (string * V).

Fixpoint mget (k : string) (m : t) : option V :=
  match m with
  | [] => None
  | (k', v) :: r => if String.eqb k k' then Some v else mget k r
  end.

Definition mhas (k : string) (m : t) : bool :=
  match mget k m with Some _ => true | None => false end.

(** [Map.prototype.set]: an existing key keeps its position, a new key is
    appended. *)
Fixpoint mset (k : string) (v : V) (m : t) : t :=
  match m with
  | [] => [(k, v)]
  | (k', v') :: r =>
      if String.eqb k k' then (k, v) :: r else (k', v') :: mset k v r
  end.

Fixpoint mdelete (k : string) (m : t) : t :=
  match m with
  | [] => []
  | (k', v') :: r =>
      if String.eqb k k' then mdelete k r else (k', v') :: mdelete k r
  end.

Definition msize (m : t) : Z := Z.of_nat (List.length m).

Definition mkeys (m : t) : list string := map fst m.

Lemma mget_mset_same k v m : mget k (mset k v m) = Some v.
Proof.
  induction m as [|[k' v'] r IH]; simpl.
  - now rewrite String.eqb_refl.
  - destruct (String.eqb k k') eqn:E; simpl.
    + now rewrite String.eqb_refl.
    + now rewrite E.
Qed.

Lemma mget_mset_other k k' v m :
  k <> k' -> mget k' (mset k v m) = mget k' m.
Proof.
  intros Hne. induction m as [|[k0 v0] r IH]; simpl.
  - destruct (String.eqb k' k) eqn:E; [|reflexivity].
    apply String.eqb_eq in E. congruence.
  - destruct (String.eqb k k0) eqn:E; simpl.
    + apply String.eqb_eq in E. subst k0.
      destruct (String.eqb k' k) eqn:E'; [|reflexivity].
      apply String.eqb_eq in E'. congruence.
    + destruct (String.eqb k' k0); [reflexivity | exact IH].
Qed.

Lemma mget_mdelete_same k m : mget k (mdelete k m) = None.
Proof.
  induction m as [|[k' v'] r IH]; simpl; [reflexivity|].
  destruct (String.eqb k k') eqn:E; simpl; [exact IH|].
  now rewrite E.
Qed.

Lemma mget_mdelete_other k k' m :
  k <> k' -> mget k' (mdelete k m) = mget k' m.
Proof.
  intros Hne. induction m as [|[k0 v0] r IH]; simpl; [reflexivity|].
  destruct (String.eqb k k0) eqn:E; simpl.
  - apply String.eqb_eq in E. subst k0.
    destruct (String.eqb k' k) eqn:E'; [|exact IH].
    apply String.eqb_eq in E'. congruence.
  - destruct (String.eqb k' k0); [reflexivity | exact IH].
Qed.

Lemma mget_In k v m : mget k m = Some v -> In (k, v) m.
Proof.
  induction m as [|[k' v'] r IH]; simpl; [discriminate|].
  destruct (String.eqb k k') eqn:E.
  - apply String.eqb_eq in E. intros [= ->]. left. now subst.
  - intros H. right. now apply IH.
Qed.

Lemma mget_None_notin k m : mget k m = None -> ~ In k (mkeys m).
Proof.
  induction m as [|[k' v'] r IH]; simpl; [tauto|].
  destruct (String.eqb k k') eqn:E; [discriminate|].
  apply String.eqb_neq in E. intros H [Hk | Hk]; [congruence|].
  now apply IH.
Qed.

Lemma notin_mget_None k m : ~ In k (mkeys m) -> mget k m = None.
Proof.
  induction m as [|[k' v'] r IH]; simpl; [reflexivity|].
  intros H. destruct (String.eqb k k') eqn:E.
  - apply String.eqb_eq in E. subst. tauto.
  - apply IH. tauto.
Qed.

Lemma length_mset_new k v m :
  mget k m = None -> List.length (mset k v m) = S (List.length m).
Proof.
  induction m as [|[k' v'] r IH]; simpl; [reflexivity|].
  destruct (String.eqb k k'); [discriminate|].
  intros H. simpl. now rewrite IH.
Qed.

Lemma length_mset_old k v m :
  mget k m <> None -> List.length (mset k v m) = List.length m.
Proof.
  induction m as [|[k' v'] r IH]; simpl; [congruence|].
  destruct (String.eqb k k'); [reflexivity|].
  intros H. simpl. now rewrite IH.
Qed.

Lemma mdelete_notin k m : ~ In k (mkeys m) -> mdelete k m = m.
Proof.
  induction m as [|[k' v'] r IH]; simpl; [reflexivity|].
  intros H. destruct (String.eqb k k') eqn:E.
  - apply String.eqb_eq in E. subst. tauto.
  - f_equal. apply IH. tauto.
Qed.

Lemma length_mdelete_nodup k m :
  NoDup (mkeys m) -> In k (mkeys m) ->
  S (List.length (mdelete k m)) = List.length m.
Proof.
  induction m as [|[k' v'] r IH]; simpl; [tauto|].
  intros Hnd Hin. inversion Hnd as [|? ? Hk' Hr]; subst.
  destruct (String.eqb k k') eqn:E.
  - apply String.eqb_eq in E. subst k'.
    now rewrite mdelete_notin.
  - apply String.eqb_neq in E. simpl. f_equal. apply IH; [assumption|].
    destruct Hin; [congruence | assumption].
Qed.

Lemma mkeys_mdelete_subset k k' m :
  In k' (mkeys (mdelete k m)) -> In k' (mkeys m) /\ k' <> k.
Proof.
  induction m as [|[k0 v0] r IH]; simpl; [tauto|].
  destruct (String.eqb k k0) eqn:E.
  - intros H. destruct (IH H). tauto.
  - apply String.eqb_neq in E. simpl. intros [<- | H].
    + split; [now left | congruence].
    + destruct (IH H). tauto.
Qed.

Lemma NoDup_mdelete k m : NoDup (mkeys m) -> NoDup (mkeys (mdelete k m)).
Proof.
  induction m as [|[k0 v0] r IH]; simpl; [trivial|].
  intros Hnd. inversion Hnd as [|? ? Hk Hr]; subst.
  destruct (String.eqb k k0); [now apply IH|].
  simpl. constructor; [|now apply IH].
  intros H. apply mkeys_mdelete_subset in H. tauto.
Qed.

Lemma In_mkeys_mset k k' v m :
  In k' (mkeys (mset k v m)) <-> k' = k \/ In k' (mkeys m).
Proof.
  induction m as [|[k0 v0] r IH]; simpl.
  - split; [intros [<- | []]; now left | intros [-> | []]; now left].
  - destruct (String.eqb k k0) eqn:E; simpl.
    + apply String.eqb_eq in E. subst k0. intuition congruence.
    + rewrite IH. intuition congruence.
Qed.

Lemma In_mkeys_mdelete k k' m :
  In k' (mkeys (mdelete k m)) <-> In k' (mkeys m) /\ k' <> k.
Proof.
  split; [apply mkeys_mdelete_subset|].
  induction m as [|[k0 v0] r IH]; simpl; [tauto|].
  intros [[<- | Hin] Hne].
  - destruct (String.eqb k k0) eqn:E.
    + apply String.eqb_eq in E. congruence.
    + now left.
  - destruct (String.eqb k k0); [|right]; now apply IH.
Qed.

Lemma NoDup_mset k v m : NoDup (mkeys m) -> NoDup (mkeys (mset k v m)).
Proof.
  induction m as [|[k0 v0] r IH]; simpl.
  - intros _. constructor; [intros [] | constructor].
  - intros Hnd. inversion Hnd as [|? ? Hk Hr]; subst.
    destruct (String.eqb k k0) eqn:E; simpl.
    + apply String.eqb_eq in E. subst k0. now constructor.
    + apply String.eqb_neq in E. constructor; [|now apply IH].
      rewrite In_mkeys_mset. intros [-> | Hin]; [congruence | tauto].
Qed.

Lemma In_mkeys_mget k m : In k (mkeys m) <-> mget k m <> None.
Proof.
  split.
  - intros Hin Hn. now apply mget_None_notin in Hn.
  - intros Hn. destruct (in_dec string_dec k (mkeys m)) as [Hin | Hout];
      [exact Hin|]. now apply notin_mget_None in Hout.
Qed.

Lemma mkeys_mset_new k v m :
  mget k m = None -> mkeys (mset k v m) = (mkeys m ++ [k])%list.
Proof.
  induction m as [|[k0 v0] r IH]; simpl; [reflexivity|].
  destruct (String.eqb k k0); [discriminate|].
  intros H. simpl. now rewrite IH.
Qed.

Lemma mkeys_mset_old k v m :
  mget k m <> None -> mkeys (mset k v m) = mkeys m.
Proof.
  induction m as [|[k0 v0] r IH]; simpl; [congruence|].
  destruct (String.eqb k k0) eqn:E.
  - apply String.eqb_eq in E. now subst.
  - intros H. simpl. now rewrite IH.
Qed.

Lemma length_mdelete_le k m : (List.length (mdelete k m) <= List.length m)%nat.
Proof.
  induction m as [|[k0 v0] r IH]; simpl; [lia|].
  destruct (String.eqb k k0); simpl; lia.
Qed.

Lemma In_mdelete_pair k x m : In x (mdelete k m) -> In x m.
Proof.
  induction m as [|[k0 v0] r IH]; simpl; [tauto|].
  destruct (String.eqb k k0); simpl; intuition.
Qed.

Lemma In_mset_pair k v x m : In x (mset k v m) -> x = (k, v) \/ In x m.
Proof.
  induction m as [|[k0 v0] r IH]; simpl.
  - intros [<- | []]. now left.
  - destruct (String.eqb k k0); simpl; intuition.
Qed.

(** With distinct keys, whether some entry under [k] satisfies [p] is
    decided by the entry that [mget] finds. *)
Lemma existsb_key_nodup (p : V -> bool) k m :
  NoDup (mkeys m) ->
  existsb (fun kv => String.eqb k (fst kv) && p (snd kv)) m
  = match mget k m with Some v => p v | None => false end.
Proof.
  induction m as [|[k0 v0] r IH]; simpl; [reflexivity|].
  intros Hnd. inversion Hnd as [|? ? Hk Hr]; subst.
  destruct (String.eqb k k0) eqn:E; simpl; [|now apply IH].
  apply String.eqb_eq in E. subst k0.
  rewrite (IH Hr), (notin_mget_None _ _ Hk). apply orb_false_r.
Qed.

End WithValue.
Arguments t : clear implicits.
End JsMap.

(** ** Cache store ([cacheManager.ts]) *)

Module CacheManager.

Record CacheEntry (T : Type) : Type := mkEntry {
  data : T;
  timestamp : Z;
  ttl : Z;
  key : string
}.
Arguments mkEntry {T}.
Arguments data {T}.
Arguments timestamp {T}.
Arguments ttl {T}.
Arguments key {T}.

Record CacheManagerConfig : Type := mkConfig {
  settingsCacheTtl : Z;
  projectPathCacheTtl : Z;
  editorStateCacheTtl : Z;
  maxCacheSize : Z
}.

Definition DEFAULT_CONFIG : CacheManagerConfig :=
  {| settingsCacheTtl := 1000;
     projectPathCacheTtl := 5000;
     editorStateCacheTtl := 5000;
     maxCacheSize := 100 |}.

Record Stats : Type := mkStats {
  totalRequests : Z;
  cacheHits : Z;
  cacheMisses : Z;
  evictions : Z
}.

(** The fields of the class that the operations below read or write.  The
    floating-point hit rate of [metrics] is not modelled. *)
Record State (T : Type) : Type := mkState {
  cache : JsMap.t (CacheEntry T);
  accessTimes : JsMap.t Z;
  config : CacheManagerConfig;
  stats : Stats
}.
Arguments mkState {T}.
Arguments cache {T}.
Arguments accessTimes {T}.
Arguments config {T}.
Arguments stats {T}.

Section WithData.
Context {T : Type}.

Definition newCache (cfg : CacheManagerConfig) : State T :=
  mkState [] [] cfg (mkStats 0 0 0 0).

(** [ttl || this.config.settingsCacheTtl]: an omitted or zero [ttl] is
    falsy. *)
Definition effectiveTtl (ttl : option Z) (cfg : CacheManagerConfig) : Z :=
  match ttl with
  | Some n => if n =? 0 then settingsCacheTtl cfg else n
  | None => settingsCacheTtl cfg
  end.

Definition isExpired (now : Z) (entry : CacheEntry T) : bool :=
  now - timestamp entry >? ttl entry.

Definition delete (k : string) (st : State T) : bool * State T :=
  (JsMap.mhas k (cache st),
   mkState (JsMap.mdelete k (cache st)) (JsMap.mdelete k (accessTimes st))
           (config st) (stats st)).

(** The loop of [evictLeastRecentlyUsed] over [accessTimes], carrying
    [oldestKey] and [oldestTime]. *)
Fixpoint scanOldest (l : list (string * Z)) (oldestKey : option string)
    (oldestTime : Z) : option string * Z :=
  match l with
  | [] => (oldestKey, oldestTime)
  | (k, accessTime) :: r =>
      if accessTime <? oldestTime
      then scanOldest r (Some k) accessTime
      else scanOldest r oldestKey oldestTime
  end.

Definition bumpEvictions (s : Stats) : Stats :=
  mkStats (totalRequests s) (cacheHits s) (cacheMisses s) (evictions s + 1).

(** [if (oldestKey)] is false for [undefined] and for the empty string. *)
Definition evictLeastRecentlyUsed (now : Z) (st : State T) : State T :=
  match fst (scanOldest (accessTimes st) None now) with
  | Some oldestKey =>
      if String.eqb oldestKey EmptyString then st
      else
        let st' := snd (delete oldestKey st) in
        mkState (cache st') (accessTimes st') (config st')
                (bumpEvictions (stats st'))
  | None => st
  end.

Definition set (k : string) (d : T) (ttl : option Z) (now : Z)
    (st : State T) : bool * State T :=
  let st1 :=
    if (JsMap.msize (cache st) >=? maxCacheSize (config st))
       && negb (JsMap.mhas k (cache st))
    then evictLeastRecentlyUsed now st
    else st in
  let entry := mkEntry d now (effectiveTtl ttl (config st1)) k in
  (true,
   mkState (JsMap.mset k entry (cache st1))
           (JsMap.mset k now (accessTimes st1))
           (config st1) (stats st1)).

Definition countRequest (s : Stats) : Stats :=
  mkStats (totalRequests s + 1) (cacheHits s) (cacheMisses s) (evictions s).
Definition countMiss (s : Stats) : Stats :=
  mkStats (totalRequests s) (cacheHits s) (cacheMisses s + 1) (evictions s).
Definition countHit (s : Stats) : Stats :=
  mkStats (totalRequests s) (cacheHits s + 1) (cacheMisses s) (evictions s).

Definition withStats (s : Stats) (st : State T) : State T :=
  mkState (cache st) (accessTimes st) (config st) s.

Definition get (k : string) (now : Z) (st : State T) : option T * State T :=
  let st0 := withStats (countRequest (stats st)) st in
  match JsMap.mget k (cache st0) with
  | None => (None, withStats (countMiss (stats st0)) st0)
  | Some entry =>
      if isExpired now entry then
        let st1 := snd (delete k st0) in
        (None, withStats (countMiss (stats st1)) st1)
      else
        (Some (data entry),
         mkState (cache st0) (JsMap.mset k now (accessTimes st0))
                 (config st0) (countHit (stats st0)))
  end.

Definition has (k : string) (now : Z) (st : State T) : bool * State T :=
  match JsMap.mget k (cache st) with
  | None => (false, st)
  | Some entry =>
      if isExpired now entry then (false, snd (delete k st))
      else (true, st)
  end.

Definition clear (st : State T) : State T :=
  mkState [] [] (config st) (stats st).

Definition size (st : State T) : Z := JsMap.msize (cache st).

Definition keys (st : State T) : list string := JsMap.mkeys (cache st).

(** The sweep run by the 30 s interval timer.  Deleting the current key
    while iterating a [Map] is well defined in JavaScript and skips nothing. *)
Definition cleanupExpiredEntries (now : Z) (st : State T) : State T :=
  fold_left
    (fun acc kv =>
       if now - timestamp (snd kv) >? ttl (snd kv)
       then snd (delete (fst kv) acc) else acc)
    (cache st) st.

(** The two maps hold the same keys, each once: every method that adds or
    removes a key does so in both. *)
Definition lockstep (st : State T) : Prop :=
  NoDup (JsMap.mkeys (cache st)) /\
  NoDup (JsMap.mkeys (accessTimes st)) /\
  (forall k, In k (JsMap.mkeys (cache st)) <->
             In k (JsMap.mkeys (accessTimes st))).


(** *** Properties of the cache store *)

Lemma config_evict now (st : State T) :
  config (evictLeastRecentlyUsed now st) = config st.
Proof.
  unfold evictLeastRecentlyUsed.
  destruct (fst (scanOldest (accessTimes st) None now)) as [k0|]; [|reflexivity].
  destruct (String.eqb k0 EmptyString); reflexivity.
Qed.

Lemma set_entry k d ttl now (st : State T) :
  JsMap.mget k (cache (snd (set k d ttl now st)))
  = Some (mkEntry d now (effectiveTtl ttl (config st)) k)
  /\ JsMap.mget k (accessTimes (snd (set k d ttl now st))) = Some now.
Proof.
  unfold set; simpl. split.
  - rewrite JsMap.mget_mset_same. do 3 f_equal.
    destruct (_ && _); [apply config_evict | reflexivity].
  - apply JsMap.mget_mset_same.
Qed.

(** What [get] does on a stored entry, by the expiry test of [isExpired]. *)
Lemma get_entry k now (st : State T) entry :
  JsMap.mget k (cache st) = Some entry ->
  (now - timestamp entry <= ttl entry ->
     fst (get k now st) = Some (data entry)
     /\ cache (snd (get k now st)) = cache st
     /\ JsMap.mget k (accessTimes (snd (get k now st))) = Some now)
  /\ (now - timestamp entry > ttl entry ->
     fst (get k now st) = None
     /\ JsMap.mget k (cache (snd (get k now st))) = None
     /\ JsMap.mget k (accessTimes (snd (get k now st))) = None).
Proof.
  intros Hk. unfold get, isExpired; simpl. rewrite Hk. split; intros Ht.
  - destruct (now - timestamp entry >? ttl entry) eqn:E;
      [apply Z.gtb_lt in E; lia|]. simpl.
    repeat split. apply JsMap.mget_mset_same.
  - destruct (now - timestamp entry >? ttl entry) eqn:E.
    + simpl. repeat split; apply JsMap.mget_mdelete_same.
    + rewrite Z.gtb_ltb in E. apply Z.ltb_ge in E. lia.
Qed.

(** C1, as the code has it: an entry stored by [set] at [t0] is returned by
    [get] at [t] exactly when [t - t0 <= ttl], the instant [t0 + ttl]
    included, where [ttl] is the effective one ([settingsCacheTtl] stands in
    for an omitted or zero argument); a [get] after that instant returns
    absent and that same call removes the key from the store and from the
    access-time table. *)
Theorem C1_get_ttl_inclusive :
  forall (st : State T) (k : string) (d : T) (ttl0 : option Z) (t0 t : Z),
    let st1 := snd (set k d ttl0 t0 st) in
    let life := effectiveTtl ttl0 (config st) in
    (fst (get k t st1) = Some d <-> t - t0 <= life)
    /\ (t - t0 <= life -> cache (snd (get k t st1)) = cache st1)
    /\ (t - t0 > life ->
          fst (get k t st1) = None
          /\ JsMap.mget k (cache (snd (get k t st1))) = None
          /\ JsMap.mget k (accessTimes (snd (get k t st1))) = None).
Proof.
  intros st k d ttl0 t0 t st1 life.
  destruct (set_entry k d ttl0 t0 st) as [He _]. fold st1 in He.
  destruct (get_entry k t st1 _ He) as [Hlive Hdead]. simpl in Hlive, Hdead.
  fold life in Hlive, Hdead.
  repeat split.
  - intros Hget. destruct (Z_le_gt_dec (t - t0) life) as [Hle|Hgt]; [exact Hle|].
    destruct (Hdead Hgt) as [Hn _]. congruence.
  - intros Hle. now destruct (Hlive Hle).
  - intros Hle. now destruct (Hlive Hle) as (_ & Hc & _).
  - now destruct (Hdead H).
  - now destruct (Hdead H) as (_ & Hc & _).
  - now destruct (Hdead H) as (_ & _ & Ha).
Qed.

(** C10: [has] answers true exactly for a present, unexpired entry, deletes
    an expired one from both tables, and on a hit leaves the whole state
    (entries, access times, counters) as it was, whereas [get] on the same
    hit stamps the access time with the current clock value. *)
Theorem C10_has_expiry_no_touch :
  forall (st : State T) (k : string) (now : Z),
    (fst (has k now st) = true <->
       exists entry, JsMap.mget k (cache st) = Some entry
                     /\ now - timestamp entry <= ttl entry)
    /\ (fst (has k now st) = true <-> exists d, fst (get k now st) = Some d)
    /\ (forall entry, JsMap.mget k (cache st) = Some entry ->
          now - timestamp entry > ttl entry ->
          fst (has k now st) = false
          /\ JsMap.mget k (cache (snd (has k now st))) = None
          /\ JsMap.mget k (accessTimes (snd (has k now st))) = None)
    /\ (fst (has k now st) = true ->
          snd (has k now st) = st
          /\ JsMap.mget k (accessTimes (snd (get k now st))) = Some now).
Proof.
  intros st k now. unfold has.
  destruct (JsMap.mget k (cache st)) as [entry|] eqn:Hk.
  - destruct (get_entry k now st entry Hk) as [Hlive Hdead].
    unfold isExpired.
    destruct (now - timestamp entry >? ttl entry) eqn:E; simpl.
    + assert (Hgt : now - timestamp entry > ttl entry)
        by (apply Z.gtb_lt in E; lia).
      destruct (Hdead Hgt) as (Hg & _).
      split; [|split; [|split]].
      * split; [discriminate|]. intros (e & [= <-] & Hle). lia.
      * split; [discriminate|]. intros [d Hd]. congruence.
      * intros e [= <-] _.
        repeat split; apply JsMap.mget_mdelete_same.
      * discriminate.
    + assert (Hle : now - timestamp entry <= ttl entry)
        by (rewrite Z.gtb_ltb in E; apply Z.ltb_ge in E; lia).
      destruct (Hlive Hle) as (Hg & _ & Ha).
      split; [|split; [|split]].
      * split; [|reflexivity]. intros _. now exists entry.
      * split; [|reflexivity]. intros _. now exists (data entry).
      * intros e [= <-] Hgt. lia.
      * intros _. now split.
  - simpl. split; [|split; [|split]].
    + split; [discriminate|]. intros (e & He & _). discriminate.
    + split; [discriminate|]. intros [d Hd]. unfold get in Hd. simpl in Hd.
      rewrite Hk in Hd. discriminate.
    + discriminate.
    + discriminate.
Qed.

(** The scan returns the earliest access time below its starting value,
    and the first key that carries it. *)
Lemma scanOldest_spec (l : list (string * Z)) :
  forall oldestKey oldestTime,
    let r := scanOldest l oldestKey oldestTime in
    snd r <= oldestTime
    /\ (forall k a, In (k, a) l -> snd r <= a)
    /\ ((fst r = oldestKey /\ snd r = oldestTime)
        \/ (exists k0, fst r = Some k0 /\ In (k0, snd r) l
                       /\ snd r < oldestTime)).
Proof.
  induction l as [|[k a] l IH]; intros ok ot; simpl.
  - repeat split; [lia | tauto | now left].
  - destruct (a <? ot) eqn:E.
    + apply Z.ltb_lt in E.
      destruct (IH (Some k) a) as (H1 & H2 & H3).
      split; [lia|]. split.
      * intros k' a' [[= <- <-] | Hin]; [exact H1 | now apply (H2 k')].
      * right. destruct H3 as [[Hf Hs] | (k0 & Hf & Hin & Hlt)].
        -- exists k. rewrite Hf, Hs. repeat split; [now left | exact E].
        -- exists k0. repeat split; [exact Hf | now right | lia].
    + apply Z.ltb_ge in E.
      destruct (IH ok ot) as (H1 & H2 & H3).
      split; [exact H1|]. split.
      * intros k' a' [[= <- <-] | Hin]; [lia | now apply (H2 k')].
      * destruct H3 as [[Hf Hs] | (k0 & Hf & Hin & Hlt)]; [now left|].
        right. exists k0. repeat split; [exact Hf | now right | exact Hlt].
Qed.

Lemma In_mkeys_of_pair {V : Type} k (v : V) (m : JsMap.t V) :
  In (k, v) m -> In k (JsMap.mkeys m).
Proof. intros H. unfold JsMap.mkeys. now apply (in_map fst) in H. Qed.

(** The intended behaviour of [set] at capacity.  It needs two facts the
    code does not establish by itself: some entry was last touched before
    the current clock value, and the key the scan selects is not the empty
    string. *)
Lemma set_at_capacity_evicts_oldest :
  forall (st : State T) (k : string) (d : T) (ttl0 : option Z) (now : Z),
    lockstep st ->
    size st = maxCacheSize (config st) ->
    JsMap.mhas k (cache st) = false ->
    (exists k1 a1, In (k1, a1) (accessTimes st) /\ a1 < now) ->
    fst (scanOldest (accessTimes st) None now) <> Some EmptyString ->
    exists k0 a0,
      JsMap.mget k0 (accessTimes st) = Some a0
      /\ (forall k' a', In (k', a') (accessTimes st) -> a0 <= a')
      /\ cache (snd (set k d ttl0 now st))
         = JsMap.mset k (mkEntry d now (effectiveTtl ttl0 (config st)) k)
                      (JsMap.mdelete k0 (cache st))
      /\ size (snd (set k d ttl0 now st)) = size st.
Proof.
  intros st k d ttl0 now (Hnc & Hna & Hkeys) Hsize Hnew (k1 & a1 & Hin1 & Hlt1) Hne.
  destruct (scanOldest_spec (accessTimes st) None now) as (Hle & Hmin & Hsel).
  destruct Hsel as [[Hf Hs] | (k0 & Hf & Hin & Hlt)].
  { specialize (Hmin _ _ Hin1). lia. }
  remember (snd (scanOldest (accessTimes st) None now)) as a0 eqn:Ha0.
  assert (Hk0 : k0 <> EmptyString) by (intros ->; now apply Hne).
  assert (Hget0 : JsMap.mget k0 (accessTimes st) = Some a0).
  { clear - Hna Hin. induction (accessTimes st) as [|[k' a'] r IH];
      simpl in *; [tauto|].
    inversion Hna as [|? ? Hnk Hr]; subst.
    destruct Hin as [[= -> ->] | Hin].
    - now rewrite String.eqb_refl.
    - destruct (String.eqb k0 k') eqn:E; [|now apply IH].
      apply String.eqb_eq in E. subst k'. exfalso. apply Hnk.
      now apply (In_mkeys_of_pair _ a0). }
  exists k0, a0. split; [exact Hget0|]. split; [exact Hmin|].
  assert (Hst1 : (if (JsMap.msize (cache st) >=? maxCacheSize (config st))
                      && negb (JsMap.mhas k (cache st))
                  then evictLeastRecentlyUsed now st else st)
                 = mkState (JsMap.mdelete k0 (cache st))
                           (JsMap.mdelete k0 (accessTimes st))
                           (config st) (bumpEvictions (stats st))).
  { unfold size in Hsize. rewrite Hsize, Hnew.
    replace (maxCacheSize (config st) >=? maxCacheSize (config st)) with true
      by (symmetry; rewrite Z.geb_leb; apply Z.leb_le; lia).
    simpl. unfold evictLeastRecentlyUsed. rewrite Hf.
    destruct (String.eqb k0 EmptyString) eqn:E;
      [apply String.eqb_eq in E; congruence | reflexivity]. }
  unfold set. rewrite Hst1. simpl. split; [reflexivity|].
  unfold size, JsMap.msize. simpl. f_equal.
  assert (Hin0 : In k0 (JsMap.mkeys (cache st))).
  { apply Hkeys. now apply (In_mkeys_of_pair _ a0). }
  rewrite JsMap.length_mset_new.
  - now apply JsMap.length_mdelete_nodup.
  - apply JsMap.notin_mget_None. intros Hk.
    apply JsMap.mkeys_mdelete_subset in Hk. destruct Hk as [Hk _].
    unfold JsMap.mhas in Hnew.
    destruct (JsMap.mget k (cache st)) eqn:Eg; [discriminate|].
    now apply JsMap.mget_None_notin in Eg.
Qed.

(** [set] with a key that is already present overwrites without evicting. *)
Lemma set_present_overwrites :
  forall (st : State T) (k : string) (d : T) (ttl0 : option Z) (now : Z),
    JsMap.mhas k (cache st) = true ->
    cache (snd (set k d ttl0 now st))
    = JsMap.mset k (mkEntry d now (effectiveTtl ttl0 (config st)) k) (cache st)
    /\ size (snd (set k d ttl0 now st)) = size st
    /\ stats (snd (set k d ttl0 now st)) = stats st.
Proof.
  intros st k d ttl0 now Hhas. unfold set. rewrite Hhas.
  rewrite andb_false_r. simpl. repeat split.
  unfold size, JsMap.msize. simpl. f_equal.
  apply JsMap.length_mset_old. unfold JsMap.mhas in Hhas.
  destruct (JsMap.mget k (cache st)); [discriminate | discriminate].
Qed.

End WithData.

(** The instant [timestamp + ttl] itself is still a hit: an entry stored at
    time 0 with a 100 ms ttl is returned by a [get] at time 100. *)
Lemma C1_boundary_is_hit :
  let st1 := snd (set "k"%string 42 (Some 100) 0 (newCache DEFAULT_CONFIG)) in
  fst (get "k"%string 100 st1) = Some 42
  /\ JsMap.mget "k"%string (cache (snd (get "k"%string 100 st1))) <> None.
Proof. vm_compute. split; [reflexivity | discriminate]. Qed.

(** The example of the specification: stored with 100 ms, read at 50 ms and
    at 150 ms. *)
Example get_example_50_150 :
  let st1 := snd (set "k"%string 42 (Some 100) 0 (newCache DEFAULT_CONFIG)) in
  fst (get "k"%string 50 st1) = Some 42 /\ fst (get "k"%string 150 st1) = None.
Proof. vm_compute. split; reflexivity. Qed.

(** C4 at a store whose entries were all written within the current clock
    value: with [maxCacheSize = 2], three [set] calls at the same
    millisecond leave three entries; the scan of [evictLeastRecentlyUsed]
    starts from [Date.now()] and compares strictly, so it selects no key and
    nothing is evicted. *)
Theorem C4_same_tick_exceeds_capacity :
  let cfg := mkConfig 1000 5000 5000 2 in
  let st2 := snd (set "b"%string 2 None 1000
                (snd (set "a"%string 1 None 1000 (newCache cfg)))) in
  let st3 := snd (set "c"%string 3 None 1000 st2) in
  size st2 = maxCacheSize (config st2)
  /\ JsMap.mhas "c"%string (cache st2) = false
  /\ size st3 = 3
  /\ keys st3 = ["a"; "b"; "c"]%string
  /\ evictions (stats st3) = 0.
Proof. vm_compute. repeat split; reflexivity. Qed.

(** The same three calls one millisecond apart evict the oldest key. *)
Example set_later_tick_evicts :
  let cfg := mkConfig 1000 5000 5000 2 in
  let st2 := snd (set "b"%string 2 None 1001
                (snd (set "a"%string 1 None 1000 (newCache cfg)))) in
  let st3 := snd (set "c"%string 3 None 1002 st2) in
  size st3 = 2 /\ keys st3 = ["b"; "c"]%string /\ evictions (stats st3) = 1.
Proof. vm_compute. repeat split; reflexivity. Qed.

(** *** The store under sequences of operations *)

Section StoreLaws.
Context {T : Type}.

(** The namespaced wrappers. *)
Definition setProjectPathCache (projectPath : string) (d : T) (now : Z)
    (st : State T) : State T :=
  snd (set ("project_path:" ++ projectPath) d
           (Some (projectPathCacheTtl (config st))) now st).

Definition getProjectPathCache (projectPath : string) (now : Z)
    (st : State T) : option T * State T :=
  get ("project_path:" ++ projectPath) now st.

Definition setEditorStateCache (editorId : string) (d : T) (now : Z)
    (st : State T) : State T :=
  snd (set ("editor_state:" ++ editorId) d
           (Some (editorStateCacheTtl (config st))) now st).

Definition getEditorStateCache (editorId : string) (now : Z)
    (st : State T) : option T * State T :=
  get ("editor_state:" ++ editorId) now st.

Definition setSettingsCache (settingKey : string) (d : T) (now : Z)
    (st : State T) : State T :=
  snd (set ("settings:" ++ settingKey) d
           (Some (settingsCacheTtl (config st))) now st).

Definition getSettingsCache (settingKey : string) (now : Z)
    (st : State T) : option T * State T :=
  get ("settings:" ++ settingKey) now st.

(** One call of a public method, or one tick of the sweep timer. *)
Inductive Operation : Type :=
| OpSet (k : string) (d : T) (ttl : option Z) (now : Z)
| OpGet (k : string) (now : Z)
| OpDelete (k : string)
| OpHas (k : string) (now : Z)
| OpClear
| OpSweep (now : Z).

Definition step (op : Operation) (st : State T) : State T :=
  match op with
  | OpSet k d ttl now => snd (set k d ttl now st)
  | OpGet k now => snd (get k now st)
  | OpDelete k => snd (delete k st)
  | OpHas k now => snd (has k now st)
  | OpClear => clear st
  | OpSweep now => cleanupExpiredEntries now st
  end.

Definition runOps (ops : list Operation) (st : State T) : State T :=
  fold_left (fun s op => step op s) ops st.

Lemma lockstep_delete k (st : State T) :
  lockstep st -> lockstep (snd (delete k st)).
Proof.
  intros (Hc & Ha & Hk). unfold lockstep, delete. simpl.
  split; [now apply JsMap.NoDup_mdelete|].
  split; [now apply JsMap.NoDup_mdelete|].
  intros k'. rewrite !JsMap.In_mkeys_mdelete, Hk. tauto.
Qed.

Lemma lockstep_evict now (st : State T) :
  lockstep st -> lockstep (evictLeastRecentlyUsed now st).
Proof.
  intros H. unfold evictLeastRecentlyUsed.
  destruct (fst (scanOldest (accessTimes st) None now)) as [k0|]; [|exact H].
  destruct (String.eqb k0 EmptyString); [exact H|].
  apply (lockstep_delete k0) in H. exact H.
Qed.

Lemma lockstep_set k d ttl now (st : State T) :
  lockstep st -> lockstep (snd (set k d ttl now st)).
Proof.
  intros H. unfold set.
  assert (H1 : lockstep
                 (if (JsMap.msize (cache st) >=? maxCacheSize (config st))
                     && negb (JsMap.mhas k (cache st))
                  then evictLeastRecentlyUsed now st else st)).
  { destruct (_ && _); [now apply lockstep_evict | exact H]. }
  destruct H1 as (Hc & Ha & Hk). unfold lockstep. simpl.
  split; [now apply JsMap.NoDup_mset|].
  split; [now apply JsMap.NoDup_mset|].
  intros k'. rewrite !JsMap.In_mkeys_mset, Hk. tauto.
Qed.

Lemma lockstep_get k now (st : State T) :
  lockstep st -> lockstep (snd (get k now st)).
Proof.
  intros H. unfold get. simpl.
  destruct (JsMap.mget k (cache st)) as [entry|] eqn:Hg; [|exact H].
  destruct (isExpired now entry).
  - apply (lockstep_delete k) in H. exact H.
  - destruct H as (Hc & Ha & Hk). unfold lockstep. simpl.
    split; [exact Hc|]. split; [now apply JsMap.NoDup_mset|].
    intros k'. rewrite JsMap.In_mkeys_mset, <- Hk.
    split; [tauto|]. intros [-> | Hin]; [|exact Hin].
    apply JsMap.In_mkeys_mget. congruence.
Qed.

Lemma lockstep_has k now (st : State T) :
  lockstep st -> lockstep (snd (has k now st)).
Proof.
  intros H. unfold has.
  destruct (JsMap.mget k (cache st)) as [entry|]; [|exact H].
  destruct (isExpired now entry); [|exact H].
  now apply lockstep_delete.
Qed.

Lemma lockstep_sweep now (st : State T) :
  lockstep st -> lockstep (cleanupExpiredEntries now st).
Proof.
  unfold cleanupExpiredEntries. generalize (cache st) as l. intros l.
  revert st. induction l as [|kv l IH]; intros st H; [exact H|].
  simpl. apply IH.
  destruct (now - timestamp (snd kv) >? ttl (snd kv)); [|exact H].
  now apply lockstep_delete.
Qed.

Lemma lockstep_step op (st : State T) : lockstep st -> lockstep (step op st).
Proof.
  intros H. destruct op; simpl.
  - now apply lockstep_set.
  - now apply lockstep_get.
  - now apply lockstep_delete.
  - now apply lockstep_has.
  - unfold lockstep, clear. simpl. repeat split; try constructor; tauto.
  - now apply lockstep_sweep.
Qed.

Lemma lockstep_runOps ops :
  forall st : State T, lockstep st -> lockstep (runOps ops st).
Proof.
  induction ops as [|op r IH]; intros st H; [exact H|].
  apply IH. now apply lockstep_step.
Qed.

(** X1: whatever sequence of [set], [get], [delete], [has], [clear] and
    sweeps a new cache goes through, the entry table and the access-time
    table hold the same keys, each key once. *)
Theorem X1_tables_in_lockstep :
  forall (cfg : CacheManagerConfig) (ops : list Operation),
    lockstep (runOps ops (newCache cfg)).
Proof.
  intros cfg ops. apply lockstep_runOps.
  unfold lockstep, newCache. simpl. repeat split; try constructor; tauto.
Qed.

(** *** The sweep *)

(** The loop of [cleanupExpiredEntries] over the entries [l]. *)
Definition sweepFrom (now : Z) (l : list (string * CacheEntry T))
    (acc : State T) : State T :=
  fold_left
    (fun a kv =>
       if isExpired now (snd kv) then snd (delete (fst kv) a) else a)
    l acc.

Definition expiredUnder (now : Z) (k : string)
    (l : list (string * CacheEntry T)) : bool :=
  existsb (fun kv => String.eqb k (fst kv) && isExpired now (snd kv)) l.

Lemma sweep_fold now (l : list (string * CacheEntry T)) :
  forall acc : State T,
    config (sweepFrom now l acc) = config acc
    /\ stats (sweepFrom now l acc) = stats acc
    /\ forall k,
         JsMap.mget k (cache (sweepFrom now l acc))
         = (if expiredUnder now k l then None else JsMap.mget k (cache acc))
         /\ JsMap.mget k (accessTimes (sweepFrom now l acc))
            = (if expiredUnder now k l then None
               else JsMap.mget k (accessTimes acc)).
Proof.
  induction l as [|kv l IH]; intros acc; [repeat split|].
  change (sweepFrom now (kv :: l) acc)
    with (sweepFrom now l
            (if isExpired now (snd kv) then snd (delete (fst kv) acc)
             else acc)).
  destruct (IH (if isExpired now (snd kv) then snd (delete (fst kv) acc)
                else acc)) as (Hc & Hs & Hk).
  split; [rewrite Hc; now destruct (isExpired now (snd kv))|].
  split; [rewrite Hs; now destruct (isExpired now (snd kv))|].
  intros k. destruct (Hk k) as [H1 H2]. rewrite H1, H2.
  unfold expiredUnder. simpl. fold (expiredUnder now k l).
  destruct (isExpired now (snd kv)) eqn:E; simpl.
  - destruct (String.eqb k (fst kv)) eqn:Ek; simpl.
    + apply String.eqb_eq in Ek. subst k.
      rewrite !JsMap.mget_mdelete_same. now destruct (expiredUnder now (fst kv) l).
    + apply String.eqb_neq in Ek.
      rewrite !JsMap.mget_mdelete_other by congruence. now split.
  - rewrite andb_false_r. simpl. now split.
Qed.

Lemma cleanup_is_sweepFrom now (st : State T) :
  cleanupExpiredEntries now st = sweepFrom now (cache st) st.
Proof. reflexivity. Qed.

(** X2: the sweep deletes exactly the entries that are expired at its
    clock value: afterwards a key reads as before when its entry is still
    alive and is absent from both tables when it was expired; the
    configuration and the counters are untouched. *)
Theorem X2_sweep_removes_exactly_expired :
  forall (st : State T) (now : Z) (k : string),
    NoDup (JsMap.mkeys (cache st)) ->
    let swept := cleanupExpiredEntries now st in
    JsMap.mget k (cache swept)
    = match JsMap.mget k (cache st) with
      | Some entry => if isExpired now entry then None else Some entry
      | None => None
      end
    /\ JsMap.mget k (accessTimes swept)
       = match JsMap.mget k (cache st) with
         | Some entry =>
             if isExpired now entry then None
             else JsMap.mget k (accessTimes st)
         | None => JsMap.mget k (accessTimes st)
         end
    /\ config swept = config st
    /\ stats swept = stats st.
Proof.
  intros st now k Hnd swept. subst swept.
  rewrite cleanup_is_sweepFrom.
  destruct (sweep_fold now (cache st) st) as (Hc & Hs & Hk).
  destruct (Hk k) as [H1 H2]. unfold expiredUnder in H1, H2.
  rewrite (JsMap.existsb_key_nodup (isExpired now) k (cache st) Hnd) in H1, H2.
  rewrite H1, H2.
  destruct (JsMap.mget k (cache st)) as [entry|];
    [destruct (isExpired now entry)|]; repeat split; assumption.
Qed.

(** *** The request counters *)

Definition countGets (ops : list Operation) : Z :=
  Z.of_nat (List.length
              (filter (fun op => match op with OpGet _ _ => true | _ => false end)
                      ops)).

Lemma stats_delete k (st : State T) : stats (snd (delete k st)) = stats st.
Proof. reflexivity. Qed.

Lemma requests_step op (st : State T) :
  let n := match op with OpGet _ _ => 1 | _ => 0 end in
  totalRequests (stats (step op st)) = totalRequests (stats st) + n
  /\ cacheHits (stats (step op st)) + cacheMisses (stats (step op st))
     = cacheHits (stats st) + cacheMisses (stats st) + n.
Proof.
  destruct op as [k d ttl0 now | k now | k | k now | | now]; simpl.
  - unfold set. simpl.
    assert (H : forall b : bool,
              totalRequests (stats (if b then evictLeastRecentlyUsed now st else st))
              = totalRequests (stats st)
              /\ cacheHits (stats (if b then evictLeastRecentlyUsed now st else st))
                 = cacheHits (stats st)
              /\ cacheMisses (stats (if b then evictLeastRecentlyUsed now st else st))
                 = cacheMisses (stats st)).
    { intros [|]; [|now repeat split]. unfold evictLeastRecentlyUsed.
      destruct (fst (scanOldest (accessTimes st) None now)) as [k0|];
        [|now repeat split].
      destruct (String.eqb k0 EmptyString); now repeat split. }
    destruct (H ((JsMap.msize (cache st) >=? maxCacheSize (config st))
                 && negb (JsMap.mhas k (cache st)))) as (H1 & H2 & H3).
    rewrite H1, H2, H3. lia.
  - unfold get. simpl.
    destruct (JsMap.mget k (cache st)) as [entry|]; [|simpl; lia].
    destruct (isExpired now entry); simpl; lia.
  - lia.
  - unfold has. destruct (JsMap.mget k (cache st)) as [entry|]; [|simpl; lia].
    destruct (isExpired now entry); simpl; lia.
  - lia.
  - rewrite cleanup_is_sweepFrom.
    destruct (sweep_fold now (cache st) st) as (_ & Hs & _).
    rewrite Hs. lia.
Qed.

(** X3: the counters of a cache count the [get] calls and nothing else:
    after any sequence of operations on a new cache, [totalRequests] is
    the number of [get] calls made, and every one of them was counted as
    exactly one hit or one miss. *)
Theorem X3_requests_are_gets :
  forall (cfg : CacheManagerConfig) (ops : list Operation),
    let s := stats (runOps ops (newCache cfg)) in
    totalRequests s = countGets ops
    /\ cacheHits s + cacheMisses s = totalRequests s.
Proof.
  intros cfg ops.
  assert (H : forall st : State T,
            totalRequests (stats (runOps ops st))
            = totalRequests (stats st) + countGets ops
            /\ cacheHits (stats (runOps ops st))
               + cacheMisses (stats (runOps ops st))
               = cacheHits (stats st) + cacheMisses (stats st) + countGets ops).
  { induction ops as [|op r IH]; intros st.
    - unfold countGets. simpl. lia.
    - change (runOps (op :: r) st) with (runOps r (step op st)).
      destruct (IH (step op st)) as [H1 H2].
      destruct (requests_step op st) as [H3 H4].
      rewrite H1, H2, H3, H4. unfold countGets. simpl.
      destruct op; simpl; lia. }
  destruct (H (newCache cfg)) as [H1 H2]. simpl in *. lia.
Qed.

(** *** The capacity bound on an advancing clock *)

(** Every recorded access is at [now] or before. *)
Definition noLaterThan (now : Z) (st : State T) : Prop :=
  forall k a, In (k, a) (accessTimes st) -> a <= now.

Definition withinCapacity (now : Z) (st : State T) : Prop :=
  lockstep st
  /\ size st <= maxCacheSize (config st)
  /\ noLaterThan now st
  /\ ~ In EmptyString (keys st).

(** The clock values of the operations do not go back, every [set] comes
    strictly after the operation before it, and no [set] uses the empty
    key. *)
Fixpoint clocked (now : Z) (ops : list Operation) : Prop :=
  match ops with
  | [] => True
  | OpSet k _ _ t :: r => now < t /\ k <> EmptyString /\ clocked t r
  | OpGet _ t :: r => now <= t /\ clocked t r
  | OpHas _ t :: r => now <= t /\ clocked t r
  | OpSweep t :: r => now <= t /\ clocked t r
  | OpDelete _ :: r => clocked now r
  | OpClear :: r => clocked now r
  end.

Lemma withinCapacity_later now now' (st : State T) :
  withinCapacity now st -> now <= now' -> withinCapacity now' st.
Proof.
  intros (Hl & Hs & Hn & He) Hle. repeat split; try assumption; try apply Hl.
  intros k a Hin. specialize (Hn k a Hin). lia.
Qed.

Lemma withinCapacity_delete now k (st : State T) :
  withinCapacity now st -> withinCapacity now (snd (delete k st)).
Proof.
  intros (Hl & Hs & Hn & He). split; [now apply lockstep_delete|].
  unfold withinCapacity, size, keys, noLaterThan, JsMap.msize in *. simpl.
  split; [|split].
  - assert (H := JsMap.length_mdelete_le k (cache st)). lia.
  - intros k' a Hin. apply JsMap.In_mdelete_pair in Hin. now apply (Hn k').
  - rewrite JsMap.In_mkeys_mdelete. tauto.
Qed.

Lemma config_set k d ttl0 now (st : State T) :
  config (snd (set k d ttl0 now st)) = config st.
Proof.
  unfold set. simpl. destruct (_ && _); [apply config_evict | reflexivity].
Qed.

Lemma withinCapacity_set now t k d ttl0 (st : State T) :
  1 <= maxCacheSize (config st) ->
  withinCapacity now st -> now < t -> k <> EmptyString ->
  withinCapacity t (snd (set k d ttl0 t st)).
Proof.
  intros Hmax (Hl & Hs & Hn & He) Hlt Hk.
  split; [now apply lockstep_set|].
  rewrite config_set.
  assert (Hrest :
    noLaterThan t (snd (set k d ttl0 t st))
    /\ ~ In EmptyString (keys (snd (set k d ttl0 t st)))).
  { unfold set, noLaterThan, keys. simpl.
    assert (Hst1 : forall b : bool,
              (forall x, In x (accessTimes
                                 (if b then evictLeastRecentlyUsed t st else st)) ->
                         In x (accessTimes st))
              /\ (forall k', In k' (JsMap.mkeys
                                     (cache (if b then evictLeastRecentlyUsed t st
                                             else st))) ->
                             In k' (JsMap.mkeys (cache st)))).
    { intros [|]; [|tauto]. unfold evictLeastRecentlyUsed.
      destruct (fst (scanOldest (accessTimes st) None t)) as [k0|]; [|tauto].
      destruct (String.eqb k0 EmptyString); [tauto|]. simpl. split.
      - intros x. apply JsMap.In_mdelete_pair.
      - intros k'. rewrite JsMap.In_mkeys_mdelete. tauto. }
    destruct (Hst1 ((JsMap.msize (cache st) >=? maxCacheSize (config st))
                    && negb (JsMap.mhas k (cache st)))) as [Ha Hc].
    split.
    - intros k' a Hin. apply JsMap.In_mset_pair in Hin.
      destruct Hin as [[= -> ->] | Hin]; [lia|].
      apply Ha in Hin. specialize (Hn k' a Hin). lia.
    - rewrite JsMap.In_mkeys_mset. intros [Heq | Hin]; [congruence|].
      apply Hc in Hin. now apply He. }
  split; [|exact Hrest].
  destruct (JsMap.mhas k (cache st)) eqn:Hhas.
  - destruct (set_present_overwrites st k d ttl0 t Hhas) as (_ & Hsz & _).
    lia.
  - assert (Hnone : JsMap.mget k (cache st) = None).
    { unfold JsMap.mhas in Hhas. now destruct (JsMap.mget k (cache st)). }
    destruct (Z_lt_ge_dec (size st) (maxCacheSize (config st))) as [Hlow | Hfull].
    + unfold set, size, JsMap.msize in *. rewrite Hhas.
      replace (Z.of_nat (List.length (cache st)) >=? maxCacheSize (config st))
        with false by (symmetry; rewrite Z.geb_leb; apply Z.leb_gt; lia).
      simpl. rewrite JsMap.length_mset_new by exact Hnone. lia.
    + assert (Hsize : size st = maxCacheSize (config st)) by lia.
      assert (Hex : exists k1 a1, In (k1, a1) (accessTimes st)).
      { pose proof Hl as (_ & _ & Hkeys').
        unfold size, JsMap.msize in Hsize.
        destruct (cache st) as [|[k1 e1] r]; [simpl in *; lia|].
        assert (Hin1 : In k1 (JsMap.mkeys (accessTimes st)))
          by (apply Hkeys'; now left).
        unfold JsMap.mkeys in Hin1. apply in_map_iff in Hin1.
        destruct Hin1 as ([k1' a1] & Hfst & Hin1). now exists k1', a1. }
      destruct Hex as (k1 & a1 & Hin1).
      pose proof Hl as (Hnc & Hna & Hkeys).
      destruct (set_at_capacity_evicts_oldest st k d ttl0 t) as (k0 & a0 & _ & _ & _ & Hsz).
      * exact Hl.
      * exact Hsize.
      * exact Hhas.
      * exists k1, a1. split; [exact Hin1|]. specialize (Hn k1 a1 Hin1). lia.
      * intros Hsel.
        destruct (scanOldest_spec (accessTimes st) None t) as (_ & _ & Hcase).
        destruct Hcase as [[Hf _] | (k0 & Hf & Hin0 & _)];
          [rewrite Hsel in Hf; discriminate|].
        rewrite Hsel in Hf. injection Hf as <-.
        apply He. unfold keys. apply Hkeys.
        now apply (In_mkeys_of_pair _ _ _ Hin0).
      * rewrite Hsz. lia.
Qed.

Lemma withinCapacity_get now t k (st : State T) :
  withinCapacity now st -> now <= t -> withinCapacity t (snd (get k t st)).
Proof.
  intros H Hle. assert (Hl := lockstep_get k t st (proj1 H)).
  destruct H as (_ & Hs & Hn & He). split; [exact Hl|]. clear Hl.
  unfold get, size, keys, noLaterThan, JsMap.msize in *. simpl.
  destruct (JsMap.mget k (cache st)) as [entry|] eqn:Hg.
  - destruct (isExpired t entry); simpl.
    + split; [|split].
      * assert (H := JsMap.length_mdelete_le k (cache st)). lia.
      * intros k' a Hin. apply JsMap.In_mdelete_pair in Hin.
        specialize (Hn k' a Hin). lia.
      * rewrite JsMap.In_mkeys_mdelete. tauto.
    + split; [exact Hs|]. split; [|exact He].
      intros k' a Hin. apply JsMap.In_mset_pair in Hin.
      destruct Hin as [[= -> ->] | Hin]; [lia|].
      specialize (Hn k' a Hin). lia.
  - simpl. split; [exact Hs|]. split; [|exact He].
    intros k' a Hin. specialize (Hn k' a Hin). lia.
Qed.

Lemma withinCapacity_sweep now t (st : State T) :
  withinCapacity now st -> withinCapacity now (cleanupExpiredEntries t st).
Proof.
  rewrite cleanup_is_sweepFrom. generalize (cache st) as l. intros l.
  revert st. induction l as [|kv l IH]; intros st H; [exact H|].
  change (sweepFrom t (kv :: l) st)
    with (sweepFrom t l (if isExpired t (snd kv)
                         then snd (delete (fst kv) st) else st)).
  apply IH. destruct (isExpired t (snd kv)); [|exact H].
  now apply withinCapacity_delete.
Qed.

Lemma config_step op (st : State T) : config (step op st) = config st.
Proof.
  destruct op as [k d ttl0 now | k now | k | k now | | now]; cbn [step].
  - apply config_set.
  - unfold get. simpl. destruct (JsMap.mget _ _) as [e|]; [|reflexivity].
    destruct (isExpired _ e); reflexivity.
  - reflexivity.
  - unfold has. destruct (JsMap.mget _ _) as [e|]; [|reflexivity].
    destruct (isExpired _ e); reflexivity.
  - reflexivity.
  - rewrite cleanup_is_sweepFrom.
    now destruct (sweep_fold now (cache st) st) as (Hc & _).
Qed.

Lemma withinCapacity_run ops :
  forall (now : Z) (st : State T),
    1 <= maxCacheSize (config st) ->
    withinCapacity now st -> clocked now ops ->
    exists now', withinCapacity now' (runOps ops st).
Proof.
  induction ops as [|op r IH]; intros now st Hmax H Hc; [now exists now|].
  change (runOps (op :: r) st) with (runOps r (step op st)).
  assert (Hmax' : 1 <= maxCacheSize (config (step op st)))
    by now rewrite config_step.
  destruct op as [k d ttl0 t | k t | k | k t | | t]; simpl in Hc.
  - destruct Hc as (Hlt & Hk & Hc).
    apply (IH t _ Hmax'); [|exact Hc]. now apply (withinCapacity_set now).
  - destruct Hc as (Hle & Hc).
    apply (IH t _ Hmax'); [|exact Hc]. now apply (withinCapacity_get now).
  - apply (IH now _ Hmax'); [|exact Hc]. now apply withinCapacity_delete.
  - destruct Hc as (Hle & Hc).
    apply (IH t _ Hmax'); [|exact Hc]. simpl. unfold has.
    apply (withinCapacity_later now); [|exact Hle].
    destruct (JsMap.mget k (cache st)) as [e|]; [|exact H].
    destruct (isExpired t e); [|exact H].
    now apply withinCapacity_delete.
  - apply (IH now _ Hmax'); [|exact Hc].
    destruct H as (_ & _ & _ & _). unfold withinCapacity, clear, size, keys,
      lockstep, noLaterThan, JsMap.msize. simpl.
    repeat split; try constructor; try tauto; try lia.
  - destruct Hc as (Hle & Hc).
    apply (IH t _ Hmax'); [|exact Hc].
    apply (withinCapacity_later now); [|exact Hle].
    now apply withinCapacity_sweep.
Qed.

(** X4: on a clock that moves forward between writes the capacity bound
    holds: when [maxCacheSize] is at least 1, every [set] is made at a
    clock value strictly after the operation before it and no key is the
    empty string, the store never holds more than [maxCacheSize] entries. *)
Theorem X4_capacity_bound_on_advancing_clock :
  forall (cfg : CacheManagerConfig) (t0 : Z) (ops : list Operation),
    1 <= maxCacheSize cfg ->
    clocked t0 ops ->
    size (runOps ops (newCache cfg)) <= maxCacheSize cfg.
Proof.
  intros cfg t0 ops Hmax Hc.
  destruct (withinCapacity_run ops t0 (newCache cfg) Hmax) as (now' & H).
  - unfold withinCapacity, newCache, lockstep, noLaterThan, size, keys,
      JsMap.msize. simpl.
    repeat split; try constructor; try tauto; try lia.
  - exact Hc.
  - destruct H as (_ & Hs & _).
    assert (Hcfg : forall (l : list Operation) (st : State T),
              config (runOps l st) = config st).
    { induction l as [|op r IH]; intros st; [reflexivity|].
      change (runOps (op :: r) st) with (runOps r (step op st)).
      now rewrite IH, config_step. }
    rewrite Hcfg in Hs. exact Hs.
Qed.

(** *** Deleting, and writing without eviction *)

(** X5: [delete] reports whether the key was stored; after it [get] and
    [has] miss on that key, and every other key is stored as before, in the
    entry table and in the access-time table. *)
Theorem X5_delete_then_miss :
  forall (st : State T) (k k' : string) (now : Z),
    fst (delete k st) = JsMap.mhas k (cache st)
    /\ fst (get k now (snd (delete k st))) = None
    /\ fst (has k now (snd (delete k st))) = false
    /\ (k' <> k ->
          JsMap.mget k' (cache (snd (delete k st))) = JsMap.mget k' (cache st)
          /\ JsMap.mget k' (accessTimes (snd (delete k st)))
             = JsMap.mget k' (accessTimes st)).
Proof.
  intros st k k' now. split; [reflexivity|]. split; [|split].
  - unfold get, delete. simpl. now rewrite JsMap.mget_mdelete_same.
  - unfold has, delete. simpl. now rewrite JsMap.mget_mdelete_same.
  - intros Hne. unfold delete. simpl.
    now rewrite !JsMap.mget_mdelete_other by congruence.
Qed.

Lemma scanOldest_nothing_older (l : list (string * Z)) :
  forall oldestKey oldestTime,
    (forall k a, In (k, a) l -> oldestTime <= a) ->
    scanOldest l oldestKey oldestTime = (oldestKey, oldestTime).
Proof.
  induction l as [|[k a] l IH]; intros ok ot H; simpl; [reflexivity|].
  assert (Ha : ot <= a) by (apply (H k); now left).
  replace (a <? ot) with false by (symmetry; apply Z.ltb_ge; lia).
  apply IH. intros k' a' Hin. apply (H k'). now right.
Qed.

(** X7: [set] evicts nothing when no recorded access is earlier than the
    current clock value, however full the store is: a new key is then
    appended to the entries that were there, and the size grows by one. *)
Theorem X7_set_keeps_all_when_none_is_older :
  forall (st : State T) (k : string) (d : T) (ttl0 : option Z) (now : Z),
    (forall k' a, In (k', a) (accessTimes st) -> now <= a) ->
    JsMap.mhas k (cache st) = false ->
    cache (snd (set k d ttl0 now st))
    = (cache st ++ [(k, mkEntry d now (effectiveTtl ttl0 (config st)) k)])%list
    /\ size (snd (set k d ttl0 now st)) = size st + 1
    /\ evictions (stats (snd (set k d ttl0 now st))) = evictions (stats st).
Proof.
  intros st k d ttl0 now Hnone Hnew.
  assert (Hev : evictLeastRecentlyUsed now st = st).
  { unfold evictLeastRecentlyUsed.
    now rewrite (scanOldest_nothing_older _ None now Hnone). }
  assert (Hst1 : (if (JsMap.msize (cache st) >=? maxCacheSize (config st))
                     && negb (JsMap.mhas k (cache st))
                  then evictLeastRecentlyUsed now st else st) = st).
  { rewrite Hev. now destruct (_ && _). }
  assert (Hget : JsMap.mget k (cache st) = None).
  { unfold JsMap.mhas in Hnew. now destruct (JsMap.mget k (cache st)). }
  assert (Happ : forall (m : JsMap.t (CacheEntry T)) v,
            JsMap.mget k m = None -> JsMap.mset k v m = (m ++ [(k, v)])%list).
  { induction m as [|[k0 v0] r IH]; simpl; [reflexivity|].
    intros v. destruct (String.eqb k k0); [discriminate|].
    intros H. now rewrite IH. }
  unfold set. rewrite Hst1. simpl. split; [now apply Happ|]. split.
  - unfold size, JsMap.msize. simpl.
    rewrite JsMap.length_mset_new by exact Hget. lia.
  - reflexivity.
Qed.

(** *** The namespaced wrappers *)

Lemma get_same_entry k now (st st' : State T) :
  JsMap.mget k (cache st') = JsMap.mget k (cache st) ->
  fst (get k now st') = fst (get k now st).
Proof.
  intros H. unfold get. simpl. rewrite H.
  destruct (JsMap.mget k (cache st)) as [e|]; [|reflexivity].
  now destruct (isExpired now e).
Qed.

Lemma set_other_key_below_capacity k k' d ttl0 now (st : State T) :
  size st < maxCacheSize (config st) -> k' <> k ->
  JsMap.mget k' (cache (snd (set k d ttl0 now st))) = JsMap.mget k' (cache st).
Proof.
  intros Hlow Hne. unfold set, size in *.
  replace (JsMap.msize (cache st) >=? maxCacheSize (config st)) with false
    by (symmetry; rewrite Z.geb_leb; apply Z.leb_gt; lia).
  simpl. apply JsMap.mget_mset_other. congruence.
Qed.

(** The lifetime a wrapper asks for, after [set] has replaced a zero by
    [settingsCacheTtl]. *)
Definition wrapperLifetime (requested : Z) (cfg : CacheManagerConfig) : Z :=
  if requested =? 0 then settingsCacheTtl cfg else requested.

(** X6: each wrapper reads back what its own setter stored, for the
    lifetime of its namespace (a configured lifetime of 0 means
    [settingsCacheTtl]), and below capacity a write in one namespace leaves
    what the other two namespaces return unchanged, whatever the names. *)
Theorem X6_namespaces_round_trip_and_do_not_collide :
  forall (st : State T) (name other : string) (d : T) (t0 t : Z),
    size st < maxCacheSize (config st) ->
    (fst (getSettingsCache name t (setSettingsCache name d t0 st)) = Some d
     <-> t - t0 <= settingsCacheTtl (config st))
    /\ (fst (getProjectPathCache name t (setProjectPathCache name d t0 st))
        = Some d
        <-> t - t0 <= wrapperLifetime (projectPathCacheTtl (config st))
                                      (config st))
    /\ (fst (getEditorStateCache name t (setEditorStateCache name d t0 st))
        = Some d
        <-> t - t0 <= wrapperLifetime (editorStateCacheTtl (config st))
                                      (config st))
    /\ fst (getProjectPathCache other t (setSettingsCache name d t0 st))
       = fst (getProjectPathCache other t st)
    /\ fst (getEditorStateCache other t (setSettingsCache name d t0 st))
       = fst (getEditorStateCache other t st)
    /\ fst (getSettingsCache other t (setProjectPathCache name d t0 st))
       = fst (getSettingsCache other t st)
    /\ fst (getEditorStateCache other t (setProjectPathCache name d t0 st))
       = fst (getEditorStateCache other t st)
    /\ fst (getSettingsCache other t (setEditorStateCache name d t0 st))
       = fst (getSettingsCache other t st)
    /\ fst (getProjectPathCache other t (setEditorStateCache name d t0 st))
       = fst (getProjectPathCache other t st).
Proof.
  intros st name other d t0 t Hlow.
  assert (Hround : forall k ttl0,
            fst (get k t (snd (set k d (Some ttl0) t0 st))) = Some d
            <-> t - t0 <= wrapperLifetime ttl0 (config st)).
  { intros k ttl0.
    destruct (set_entry k d (Some ttl0) t0 st) as [He _].
    destruct (get_entry k t _ _ He) as [Hlive Hdead].
    cbn [timestamp ttl data effectiveTtl] in Hlive, Hdead.
    unfold wrapperLifetime. split.
    - intros Hg.
      destruct (Z_le_gt_dec (t - t0)
                  (if ttl0 =? 0 then settingsCacheTtl (config st) else ttl0))
        as [Hle | Hgt]; [exact Hle|].
      destruct (Hdead Hgt) as [Hn _]. congruence.
    - intros Hle. now destruct (Hlive Hle). }
  assert (Hsettings : wrapperLifetime (settingsCacheTtl (config st)) (config st)
                      = settingsCacheTtl (config st)).
  { unfold wrapperLifetime.
    destruct (settingsCacheTtl (config st) =? 0) eqn:E; reflexivity. }
  assert (Hsep : forall k k' ttl0, k' <> k ->
            fst (get k' t (snd (set k d ttl0 t0 st))) = fst (get k' t st)).
  { intros k k' ttl0 Hne. apply get_same_entry.
    now apply set_other_key_below_capacity. }
  unfold getSettingsCache, setSettingsCache, getProjectPathCache,
    setProjectPathCache, getEditorStateCache, setEditorStateCache.
  split.
  { pose proof (Hround ("settings:" ++ name)%string
                       (settingsCacheTtl (config st))) as H.
    rewrite Hsettings in H. exact H. }
  split; [apply Hround|]. split; [apply Hround|].
  repeat split; apply Hsep; simpl; discriminate.
Qed.

(** *** The [Cacheable] decorator *)

(** A method under [@Cacheable(ttl, keyGenerator)], called with [args]:
    its result, the cache, and whether the method itself ran.  [None] is
    [undefined]; an omitted [ttl] is 1000.  The default key, which is built
    with [JSON.stringify], is not modelled: the key generator is given. *)
Definition Cacheable {Args : Type} (ttl0 : option Z)
    (keyGenerator : Args -> string) (method : Args -> option T)
    (args : Args) (now : Z) (st : State T) : option T * State T * bool :=
  let cacheKey := keyGenerator args in
  match get cacheKey now st with
  | (Some cachedResult, st1) => (Some cachedResult, st1, false)
  | (None, st1) =>
      match method args with
      | Some result =>
          (Some result,
           snd (set cacheKey result
                    (Some (match ttl0 with Some n => n | None => 1000 end))
                    now st1),
           true)
      | None => (None, st1, true)
      end
  end.

Lemma config_get k now (st : State T) :
  config (snd (get k now st)) = config st.
Proof.
  unfold get. simpl. destruct (JsMap.mget k (cache st)) as [e|]; [|reflexivity].
  now destruct (isExpired now e).
Qed.

(** X8: a decorated method that is called on a miss and returns a value
    runs once for the lifetime of that value: a second call with the same
    key inside the lifetime returns the cached result without running the
    method, whatever the method would return by then; after the lifetime
    the method runs again. *)
Theorem X8_cacheable_runs_once_per_lifetime :
  forall (Args : Type) (ttl0 : option Z) (keyGenerator : Args -> string)
         (method method' : Args -> option T) (args : Args) (r : T)
         (t1 t2 : Z) (st : State T),
    fst (get (keyGenerator args) t1 st) = None ->
    method args = Some r ->
    let first := Cacheable ttl0 keyGenerator method args t1 st in
    let life := wrapperLifetime (match ttl0 with Some n => n | None => 1000 end)
                                (config st) in
    let second := Cacheable ttl0 keyGenerator method' args t2 (snd (fst first)) in
    fst (fst first) = Some r
    /\ snd first = true
    /\ (t2 - t1 <= life -> fst (fst second) = Some r /\ snd second = false)
    /\ (t2 - t1 > life ->
          fst (fst second) = method' args /\ snd second = true).
Proof.
  intros Args ttl0 keyGenerator method method' args r t1 t2 st Hmiss Hm
         first life second.
  set (ttl1 := match ttl0 with Some n => n | None => 1000 end) in *.
  set (st1 := snd (get (keyGenerator args) t1 st)).
  assert (Hfirst : first
                   = (Some r,
                      snd (set (keyGenerator args) r (Some ttl1) t1 st1), true)).
  { subst first st1. unfold Cacheable.
    destruct (get (keyGenerator args) t1 st) as [cached st1'].
    simpl in Hmiss. subst cached. now rewrite Hm. }
  assert (Hcfg : config st1 = config st) by apply config_get.
  destruct (set_entry (keyGenerator args) r (Some ttl1) t1 st1) as [He _].
  destruct (get_entry (keyGenerator args) t2 _ _ He) as [Hlive Hdead].
  cbn [timestamp ttl data effectiveTtl] in Hlive, Hdead.
  rewrite Hcfg in Hlive, Hdead.
  fold (wrapperLifetime ttl1 (config st)) in Hlive, Hdead.
  fold life in Hlive, Hdead.
  subst second. rewrite Hfirst. cbn [fst snd].
  split; [reflexivity|]. split; [reflexivity|].
  unfold Cacheable. split.
  - intros Hin. destruct (Hlive Hin) as (Hg & _).
    destruct (get (keyGenerator args) t2 _) as [cached st2].
    simpl in Hg. subst cached. now split.
  - intros Hout. destruct (Hdead Hout) as (Hg & _).
    destruct (get (keyGenerator args) t2 _) as [cached st2].
    simpl in Hg. subst cached.
    destruct (method' args); now split.
Qed.

End StoreLaws.

(** *** Concrete stores for the laws above *)

(** A store with one entry that expires at 1100 and one that lives to
    6000. *)
Definition twoEntries : State Z :=
  snd (set "long"%string 2 (Some 5000) 1000
         (snd (set "short"%string 1 (Some 100) 1000
                 (newCache DEFAULT_CONFIG)))).

Lemma X2_sweep_example :
  JsMap.mget "short"%string (cache (cleanupExpiredEntries 2000 twoEntries))
  = match JsMap.mget "short"%string (cache twoEntries) with
    | Some entry => if isExpired 2000 entry then None else Some entry
    | None => None
    end
  /\ JsMap.mget "short"%string
       (accessTimes (cleanupExpiredEntries 2000 twoEntries))
     = match JsMap.mget "short"%string (cache twoEntries) with
       | Some entry =>
           if isExpired 2000 entry then None
           else JsMap.mget "short"%string (accessTimes twoEntries)
       | None => JsMap.mget "short"%string (accessTimes twoEntries)
       end
  /\ config (cleanupExpiredEntries 2000 twoEntries) = config twoEntries
  /\ stats (cleanupExpiredEntries 2000 twoEntries) = stats twoEntries.
Proof.
  apply (X2_sweep_removes_exactly_expired twoEntries 2000 "short"%string).
  vm_compute. repeat constructor; simpl; intuition discriminate.
Defined.

Example sweep_keeps_the_living :
  keys (cleanupExpiredEntries 2000 twoEntries) = ["long"%string].
Proof. vm_compute. reflexivity. Qed.

Lemma X4_three_sets_one_apart :
  size (runOps [OpSet "a"%string 1 None 1000; OpSet "b"%string 2 None 1001;
                OpGet "a"%string 1001; OpSet "c"%string 3 None 1002]
               (newCache (mkConfig 1000 5000 5000 2)))
  <= maxCacheSize (mkConfig 1000 5000 5000 2).
Proof.
  apply (X4_capacity_bound_on_advancing_clock (mkConfig 1000 5000 5000 2) 0).
  - simpl. lia.
  - simpl. repeat split; (lia || discriminate).
Defined.

Lemma X6_wrappers_example :
  (fst (getSettingsCache "theme"%string 1500
          (setSettingsCache "theme"%string 7 1000 twoEntries)) = Some 7
   <-> 1500 - 1000 <= settingsCacheTtl (config twoEntries))
  /\ (fst (getProjectPathCache "theme"%string 1500
             (setProjectPathCache "theme"%string 7 1000 twoEntries)) = Some 7
      <-> 1500 - 1000 <= wrapperLifetime (projectPathCacheTtl (config twoEntries))
                                         (config twoEntries))
  /\ (fst (getEditorStateCache "theme"%string 1500
             (setEditorStateCache "theme"%string 7 1000 twoEntries)) = Some 7
      <-> 1500 - 1000 <= wrapperLifetime (editorStateCacheTtl (config twoEntries))
                                         (config twoEntries))
  /\ fst (getProjectPathCache "theme"%string 1500
            (setSettingsCache "theme"%string 7 1000 twoEntries))
     = fst (getProjectPathCache "theme"%string 1500 twoEntries)
  /\ fst (getEditorStateCache "theme"%string 1500
            (setSettingsCache "theme"%string 7 1000 twoEntries))
     = fst (getEditorStateCache "theme"%string 1500 twoEntries)
  /\ fst (getSettingsCache "theme"%string 1500
            (setProjectPathCache "theme"%string 7 1000 twoEntries))
     = fst (getSettingsCache "theme"%string 1500 twoEntries)
  /\ fst (getEditorStateCache "theme"%string 1500
            (setProjectPathCache "theme"%string 7 1000 twoEntries))
     = fst (getEditorStateCache "theme"%string 1500 twoEntries)
  /\ fst (getSettingsCache "theme"%string 1500
            (setEditorStateCache "theme"%string 7 1000 twoEntries))
     = fst (getSettingsCache "theme"%string 1500 twoEntries)
  /\ fst (getProjectPathCache "theme"%string 1500
            (setEditorStateCache "theme"%string 7 1000 twoEntries))
     = fst (getProjectPathCache "theme"%string 1500 twoEntries).
Proof.
  apply (X6_namespaces_round_trip_and_do_not_collide twoEntries
           "theme"%string "theme"%string 7 1000 1500).
  vm_compute. reflexivity.
Defined.

Lemma X7_same_tick_example :
  cache (snd (set "third"%string 3 None 1000 twoEntries))
  = (cache twoEntries
     ++ [("third"%string,
          mkEntry 3 1000 (effectiveTtl None (config twoEntries))
                  "third"%string)])%list
  /\ size (snd (set "third"%string 3 None 1000 twoEntries))
     = size twoEntries + 1
  /\ evictions (stats (snd (set "third"%string 3 None 1000 twoEntries)))
     = evictions (stats twoEntries).
Proof.
  apply (X7_set_keeps_all_when_none_is_older twoEntries "third"%string 3 None
           1000).
  - intros k' a Hin. vm_compute in Hin.
    destruct Hin as [[= <- <-] | [[= <- <-] | []]]; lia.
  - reflexivity.
Defined.

Definition freshStore : State Z := newCache DEFAULT_CONFIG.

(** A method that answers 1 at first and 2 later, under
    [@Cacheable(5000, key)]. *)
Lemma X8_cacheable_example :
  fst (fst (Cacheable (Some 5000) (fun p : string => p) (fun _ => Some 1)
              "k"%string 1000 freshStore)) = Some 1
  /\ snd (Cacheable (Some 5000) (fun p : string => p) (fun _ => Some 1)
            "k"%string 1000 freshStore) = true
  /\ (3000 - 1000 <= wrapperLifetime 5000 (config freshStore) ->
        fst (fst (Cacheable (Some 5000) (fun p : string => p) (fun _ => Some 2)
                    "k"%string 3000
                    (snd (fst (Cacheable (Some 5000) (fun p : string => p)
                                 (fun _ => Some 1) "k"%string 1000
                                 freshStore)))))
        = Some 1
        /\ snd (Cacheable (Some 5000) (fun p : string => p) (fun _ => Some 2)
                  "k"%string 3000
                  (snd (fst (Cacheable (Some 5000) (fun p : string => p)
                               (fun _ => Some 1) "k"%string 1000
                               freshStore))))
           = false)
  /\ (3000 - 1000 > wrapperLifetime 5000 (config freshStore) ->
        fst (fst (Cacheable (Some 5000) (fun p : string => p) (fun _ => Some 2)
                    "k"%string 3000
                    (snd (fst (Cacheable (Some 5000) (fun p : string => p)
                                 (fun _ => Some 1) "k"%string 1000
                                 freshStore)))))
        = Some 2
        /\ snd (Cacheable (Some 5000) (fun p : string => p) (fun _ => Some 2)
                  "k"%string 3000
                  (snd (fst (Cacheable (Some 5000) (fun p : string => p)
                               (fun _ => Some 1) "k"%string 1000
                               freshStore))))
           = true).
Proof.
  apply (X8_cacheable_runs_once_per_lifetime string (Some 5000)
           (fun p : string => p) (fun _ => Some 1) (fun _ => Some 2)
           "k"%string 1 1000 3000 freshStore).
  - reflexivity.
  - reflexivity.
Defined.

End CacheManager.

(** ** Debounce utility ([utils/debounce.ts])

    The closure returned by [DebounceUtils.debounce] is a state record and
    one function per inner function of the source.  [setTimeout] and the
    event loop are modelled with the state: [timers] holds the pending
    time-outs (handle and due time) in creation order, every one of them
    with the callback [timerExpired], and [invocations] logs each
    application of the wrapped function with the clock value and the
    arguments.  A time-out fires at its due time, earliest first, before a
    call made at the same clock value. *)

Module DebounceUtils.

Record DebounceOptions : Type := mkOptions {
  leading : option bool;
  trailing : option bool;
  maxWait : option Z
}.

Section Debounced.
Context {A R : Type}.
(** The wrapped function, and the empty argument list that [apply] passes
    when its argument array is [undefined]. *)
Variable func : A -> R.
Variable noArgs : A.
Variable wait : Z.
Variable options : DebounceOptions.

(** [const { leading = false, trailing = true, maxWait } = options]. *)
Definition optLeading : bool :=
  match leading options with Some b => b | None => false end.
Definition optTrailing : bool :=
  match trailing options with Some b => b | None => true end.
Definition optMaxWait : option Z := maxWait options.

Record State : Type := mkState {
  timerId : option nat;
  maxTimerId : option nat;
  lastCallTime : option Z;
  lastInvokeTime : Z;
  lastArgs : option A;
  result : option R;
  timers : list (nat * Z);
  nextHandle : nat;
  invocations : list (Z * A)
}.

Definition initial : State :=
  mkState None None None 0 None None [] 0%nat [].

Definition set_timerId (v : option nat) (st : State) : State :=
  mkState v (maxTimerId st) (lastCallTime st) (lastInvokeTime st)
          (lastArgs st) (result st) (timers st) (nextHandle st)
          (invocations st).

Definition set_lastInvokeTime (v : Z) (st : State) : State :=
  mkState (timerId st) (maxTimerId st) (lastCallTime st) v
          (lastArgs st) (result st) (timers st) (nextHandle st)
          (invocations st).

Definition set_lastArgs (v : option A) (st : State) : State :=
  mkState (timerId st) (maxTimerId st) (lastCallTime st) (lastInvokeTime st)
          v (result st) (timers st) (nextHandle st) (invocations st).

Definition set_lastCallTime (v : option Z) (st : State) : State :=
  mkState (timerId st) (maxTimerId st) v (lastInvokeTime st)
          (lastArgs st) (result st) (timers st) (nextHandle st)
          (invocations st).

Definition set_timers (v : list (nat * Z)) (st : State) : State :=
  mkState (timerId st) (maxTimerId st) (lastCallTime st) (lastInvokeTime st)
          (lastArgs st) (result st) v (nextHandle st) (invocations st).

Definition invokeFunc (time : Z) (st : State) : State :=
  let args := match lastArgs st with Some a => a | None => noArgs end in
  mkState (timerId st) (maxTimerId st) (lastCallTime st) time
          None (Some (func args)) (timers st) (nextHandle st)
          (invocations st ++ [(time, args)]).

(** The longest delay of a Node.js timer, [2 ** 31 - 1]. *)
Definition TIMEOUT_MAX : Z := 2147483647.

(** The delay [setTimeout] applies: Node.js sets a delay that is not from
    1 to [TIMEOUT_MAX], and [NaN] (here [None]), to 1 ms. *)
Definition timeoutDelay (delay : option Z) : Z :=
  match delay with
  | Some d => if (1 <=? d) && (d <=? TIMEOUT_MAX) then d else 1
  | None => 1
  end.

Definition startTimer (delay : option Z) (time : Z) (st : State)
    : nat * State :=
  (nextHandle st,
   mkState (timerId st) (maxTimerId st) (lastCallTime st) (lastInvokeTime st)
           (lastArgs st) (result st)
           (timers st ++ [(nextHandle st, time + timeoutDelay delay)])
           (S (nextHandle st)) (invocations st)).

Definition removeTimer (h : nat) (l : list (nat * Z)) : list (nat * Z) :=
  filter (fun x => negb (Nat.eqb (fst x) h)) l.

Definition cancelTimer (id : option nat) (st : State) : State :=
  match id with
  | Some h => set_timers (removeTimer h (timers st)) st
  | None => st
  end.

Definition leadingEdge (time : Z) (st : State) : State :=
  let st1 := set_lastInvokeTime time st in
  let (h, st2) := startTimer (Some wait) time st1 in
  let st3 := set_timerId (Some h) st2 in
  if optLeading then invokeFunc time st3 else st3.

(** [None] is the [NaN] that the subtraction yields while [lastCallTime] is
    [undefined]. *)
Definition remainingWait (time : Z) (st : State) : option Z :=
  match lastCallTime st with
  | None => None
  | Some c =>
      let timeSinceLastCall := time - c in
      let timeSinceLastInvoke := time - lastInvokeTime st in
      let timeWaiting := wait - timeSinceLastCall in
      match optMaxWait with
      | Some m => Some (Z.min timeWaiting (m - timeSinceLastInvoke))
      | None => Some timeWaiting
      end
  end.

Definition shouldInvoke (time : Z) (st : State) : bool :=
  match lastCallTime st with
  | None => true
  | Some c =>
      let timeSinceLastCall := time - c in
      let timeSinceLastInvoke := time - lastInvokeTime st in
      (timeSinceLastCall >=? wait)
      || (timeSinceLastCall <? 0)
      || match optMaxWait with
         | Some m => timeSinceLastInvoke >=? m
         | None => false
         end
  end.

Definition trailingEdge (time : Z) (st : State) : State :=
  let st1 := set_timerId None st in
  match lastArgs st1 with
  | Some _ =>
      if optTrailing then invokeFunc time st1 else set_lastArgs None st1
  | None => set_lastArgs None st1
  end.

Definition timerExpired (time : Z) (st : State) : State :=
  if shouldInvoke time st then trailingEdge time st
  else
    let (h, st1) := startTimer (remainingWait time st) time st in
    set_timerId (Some h) st1.

Definition cancel (st : State) : State :=
  let st1 := cancelTimer (timerId st) st in
  let st2 := cancelTimer (maxTimerId st1) st1 in
  mkState None None None 0 None (result st2) (timers st2) (nextHandle st2)
          (invocations st2).

Definition flush (time : Z) (st : State) : option R * State :=
  match timerId st with
  | None => (result st, st)
  | Some _ => let st1 := trailingEdge time st in (result st1, st1)
  end.

Definition pending (st : State) : bool :=
  match timerId st with Some _ => true | None => false end.

Definition debounced (args : A) (time : Z) (st : State) : State :=
  let isInvoking := shouldInvoke time st in
  let st1 := set_lastCallTime (Some time) (set_lastArgs (Some args) st) in
  let arm :=
    match timerId st1 with
    | None =>
        let (h, st2) := startTimer (Some wait) time st1 in
        set_timerId (Some h) st2
    | Some _ => st1
    end in
  if isInvoking then
    match timerId st1 with
    | None => leadingEdge time st1
    | Some _ =>
        match optMaxWait with
        | Some _ =>
            let (h, st2) := startTimer (Some wait) time st1 in
            invokeFunc time (set_timerId (Some h) st2)
        | None => arm
        end
    end
  else arm.

(** *** The event loop *)

(** The pending time-out that is due first; among equal due times the one
    created first. *)
Fixpoint earliest (l : list (nat * Z)) : option (nat * Z) :=
  match l with
  | [] => None
  | x :: r =>
      match earliest r with
      | None => Some x
      | Some y => if snd y <? snd x then Some y else Some x
      end
  end.

Definition fire (h : nat) (due : Z) (st : State) : State :=
  timerExpired due (set_timers (removeTimer h (timers st)) st).

Fixpoint runTimers (fuel : nat) (t : Z) (st : State) : State :=
  match fuel with
  | O => st
  | S fuel' =>
      match earliest (timers st) with
      | Some (h, due) =>
          if due <=? t then runTimers fuel' t (fire h due st) else st
      | None => st
      end
  end.

(** How far the pending time-outs lie behind [t]; every firing lowers it. *)
Fixpoint overdue (t : Z) (l : list (nat * Z)) : Z :=
  match l with
  | [] => 0
  | x :: r => Z.max 0 (t + 1 - snd x) + overdue t r
  end.

(** Let the clock reach [t]: fire, in order, every time-out due by then. *)
Definition advanceTo (t : Z) (st : State) : State :=
  runTimers (S (Z.to_nat (overdue t (timers st)))) t st.

(** A sequence of calls of the wrapper, each with its clock value. *)
Fixpoint run (calls : list (Z * A)) (st : State) : State :=
  match calls with
  | [] => st
  | (t, args) :: rest => run rest (debounced args t (advanceTo t st))
  end.


(** *** The event loop is well defined *)

Lemma timeoutDelay_pos delay : 1 <= timeoutDelay delay.
Proof.
  unfold timeoutDelay. destruct delay as [d|]; [|lia].
  destruct (1 <=? d) eqn:E; simpl; [|lia].
  destruct (d <=? TIMEOUT_MAX); [apply Z.leb_le in E|]; lia.
Qed.

Lemma timeoutDelay_le d : timeoutDelay (Some d) <= Z.max 1 d.
Proof.
  unfold timeoutDelay.
  destruct (1 <=? d) eqn:E; simpl; [|lia].
  destruct (d <=? TIMEOUT_MAX); lia.
Qed.

(** Within the range of a timer the delay is the one asked for, or 1 ms. *)
Lemma timeoutDelay_range d :
  d <= TIMEOUT_MAX -> timeoutDelay (Some d) = Z.max 1 d.
Proof.
  intros H. unfold timeoutDelay.
  destruct (1 <=? d) eqn:E; simpl.
  - apply Z.leb_le in E.
    replace (d <=? TIMEOUT_MAX) with true by (symmetry; now apply Z.leb_le).
    lia.
  - apply Z.leb_gt in E. lia.
Qed.

Lemma timeoutDelay_over d :
  TIMEOUT_MAX < d -> timeoutDelay (Some d) = 1.
Proof.
  intros H. unfold timeoutDelay.
  replace (d <=? TIMEOUT_MAX) with false by (symmetry; now apply Z.leb_gt).
  now rewrite andb_false_r.
Qed.

Lemma earliest_None l : earliest l = None -> l = [].
Proof.
  destruct l as [|x r]; [reflexivity|]. simpl.
  destruct (earliest r) as [y|]; [|discriminate].
  destruct (snd y <? snd x); discriminate.
Qed.

Lemma earliest_Some l x :
  earliest l = Some x -> In x l /\ forall y, In y l -> snd x <= snd y.
Proof.
  revert x. induction l as [|a r IH]; intros x; simpl; [discriminate|].
  destruct (earliest r) as [y|] eqn:E.
  - destruct (IH y eq_refl) as [Hin Hmin].
    destruct (snd y <? snd a) eqn:C; intros [= <-].
    + apply Z.ltb_lt in C. split; [now right|].
      intros z [<- | Hz]; [lia | now apply Hmin].
    + apply Z.ltb_ge in C. split; [now left|].
      intros z [<- | Hz]; [lia|]. specialize (Hmin z Hz). lia.
  - apply earliest_None in E. subst r. intros [= <-]. split; [now left|].
    intros z [<- | []]. lia.
Qed.

Lemma overdue_nonneg t l : 0 <= overdue t l.
Proof. induction l as [|x r IH]; simpl; lia. Qed.

Lemma overdue_app t l l' : overdue t (l ++ l') = overdue t l + overdue t l'.
Proof. induction l as [|x r IH]; simpl; lia. Qed.

Lemma overdue_removeTimer t h d l :
  In (h, d) l -> d <= t ->
  overdue t (removeTimer h l) + (t + 1 - d) <= overdue t l.
Proof.
  induction l as [|x r IH]; simpl; [tauto|].
  intros [-> | Hin] Hd.
  - simpl. rewrite Nat.eqb_refl. simpl.
    assert (H := overdue_nonneg t r).
    assert (overdue t (removeTimer h r) <= overdue t r).
    { clear. induction r as [|y r IH]; simpl; [lia|].
      destruct (negb (fst y =? h)%nat); simpl; lia. }
    lia.
  - specialize (IH Hin Hd).
    destruct (negb (fst x =? h)%nat); simpl; lia.
Qed.

(** [timerExpired] leaves the pending time-outs alone or adds one that is
    due strictly later than the clock value it ran at. *)
Lemma timers_timerExpired time st :
  timers (timerExpired time st) = timers st
  \/ exists h d, time < d
       /\ timers (timerExpired time st) = timers st ++ [(h, d)].
Proof.
  unfold timerExpired. destruct (shouldInvoke time st).
  - left. unfold trailingEdge. simpl.
    destruct (lastArgs st); [destruct optTrailing|]; reflexivity.
  - right. simpl. eexists _, _. split; [|reflexivity].
    assert (H := timeoutDelay_pos (remainingWait time st)). lia.
Qed.

Lemma overdue_fire t h d st :
  In (h, d) (timers st) -> d <= t ->
  overdue t (timers (fire h d st)) < overdue t (timers st).
Proof.
  intros Hin Hd. unfold fire.
  assert (Hrm := overdue_removeTimer t h d (timers st) Hin Hd).
  destruct (timers_timerExpired d
              (set_timers (removeTimer h (timers st)) st))
    as [-> | (h' & d' & Hlt & ->)]; simpl.
  - lia.
  - rewrite overdue_app. simpl. lia.
Qed.

Lemma runTimers_idle fuel t st :
  (forall x, In x (timers st) -> t < snd x) -> runTimers fuel t st = st.
Proof.
  intros Hq. destruct fuel as [|fuel]; [reflexivity|]. simpl.
  destruct (earliest (timers st)) as [[h d]|] eqn:E; [|reflexivity].
  apply earliest_Some in E. destruct E as [Hin _].
  specialize (Hq _ Hin). simpl in Hq.
  destruct (d <=? t) eqn:C; [apply Z.leb_le in C; lia | reflexivity].
Qed.

(** Fuel beyond [overdue] is never used. *)
Lemma runTimers_stable t fuel :
  forall st k,
    overdue t (timers st) < Z.of_nat fuel ->
    runTimers (fuel + k) t st = runTimers fuel t st.
Proof.
  induction fuel as [|fuel IH]; intros st k Hm.
  - assert (H := overdue_nonneg t (timers st)). lia.
  - simpl. destruct (earliest (timers st)) as [[h d]|] eqn:E; [|reflexivity].
    destruct (d <=? t) eqn:C; [|reflexivity].
    apply Z.leb_le in C. apply earliest_Some in E. destruct E as [Hin _].
    apply IH. assert (H := overdue_fire t h d st Hin C). lia.
Qed.

Lemma advanceTo_fire t st h d :
  earliest (timers st) = Some (h, d) -> d <= t ->
  advanceTo t st = advanceTo t (fire h d st).
Proof.
  intros E C. unfold advanceTo at 1. simpl. rewrite E.
  assert (Hd : (d <=? t) = true) by now apply Z.leb_le.
  rewrite Hd. apply earliest_Some in E. destruct E as [Hin _].
  assert (H := overdue_fire t h d st Hin C).
  assert (H0 := overdue_nonneg t (timers (fire h d st))).
  unfold advanceTo.
  set (n' := S (Z.to_nat (overdue t (timers (fire h d st))))).
  replace (Z.to_nat (overdue t (timers st)))
    with (n' + (Z.to_nat (overdue t (timers st)) - n'))%nat by lia.
  apply runTimers_stable. lia.
Qed.

Lemma advanceTo_idle t st :
  (forall x, In x (timers st) -> t < snd x) -> advanceTo t st = st.
Proof. apply runTimers_idle. Qed.

(** Induction over the firings of one [advanceTo]. *)
Lemma advanceTo_ind t (P : State -> Prop) :
  (forall st h d,
      P st -> earliest (timers st) = Some (h, d) -> d <= t ->
      P (fire h d st)) ->
  forall st, P st -> P (advanceTo t st).
Proof.
  intros Hstep st. unfold advanceTo.
  generalize (S (Z.to_nat (overdue t (timers st)))). intros fuel.
  revert st. induction fuel as [|fuel IH]; intros st HP; [exact HP|].
  simpl. destruct (earliest (timers st)) as [[h d]|] eqn:E; [|exact HP].
  destruct (d <=? t) eqn:C; [|exact HP].
  apply IH. apply (Hstep st h d HP E). now apply Z.leb_le.
Qed.

(** After [advanceTo t] no time-out due by [t] is left: the fuel the
    definition supplies is enough. *)
Lemma advanceTo_quiescent t st :
  forall x, In x (timers (advanceTo t st)) -> t < snd x.
Proof.
  unfold advanceTo.
  assert (Hm : overdue t (timers st)
               < Z.of_nat (S (Z.to_nat (overdue t (timers st))))).
  { assert (H := overdue_nonneg t (timers st)). lia. }
  revert Hm. generalize (S (Z.to_nat (overdue t (timers st)))).
  intros fuel. revert st.
  induction fuel as [|fuel IH]; intros st Hm.
  - assert (H := overdue_nonneg t (timers st)). lia.
  - simpl. destruct (earliest (timers st)) as [[h d]|] eqn:E.
    + destruct (d <=? t) eqn:C.
      * apply Z.leb_le in C. apply IH.
        apply earliest_Some in E. destruct E as [Hin _].
        assert (H := overdue_fire t h d st Hin C). lia.
      * apply Z.leb_gt in C. apply earliest_Some in E.
        destruct E as [_ Hmin]. intros x Hx.
        specialize (Hmin x Hx). simpl in Hmin. lia.
    + apply earliest_None in E. rewrite E. intros x [].
Qed.


(** *** Clock skew *)

(** C8: at a clock value before the previous call, [shouldInvoke] is true;
    so a time-out that expires then runs the trailing edge instead of
    re-arming, and a call made then takes the invoking branch of the
    wrapper: the leading edge when no time-out is recorded, an immediate
    invocation when one is and [maxWait] is set. *)
Theorem C8_negative_elapsed_should_invoke :
  forall (st : State) (time c : Z) (args : A),
    lastCallTime st = Some c ->
    time - c < 0 ->
    shouldInvoke time st = true
    /\ timerExpired time st = trailingEdge time st
    /\ timerId (timerExpired time st) = None
    /\ debounced args time st
       = let st1 := set_lastCallTime (Some time)
                      (set_lastArgs (Some args) st) in
         match timerId st, optMaxWait with
         | None, _ => leadingEdge time st1
         | Some _, Some _ =>
             invokeFunc time
               (set_timerId (Some (nextHandle st))
                  (snd (startTimer (Some wait) time st1)))
         | Some _, None => st1
         end.
Proof.
  intros st time c args Hc Hneg.
  assert (Hs : shouldInvoke time st = true).
  { unfold shouldInvoke. rewrite Hc.
    assert (E : (time - c <? 0) = true) by now apply Z.ltb_lt.
    rewrite E. now rewrite orb_true_r. }
  split; [exact Hs|]. split; [|split].
  - unfold timerExpired. now rewrite Hs.
  - unfold timerExpired. rewrite Hs. unfold trailingEdge. simpl.
    destruct (lastArgs st); [destruct optTrailing|]; reflexivity.
  - unfold debounced. rewrite Hs. simpl.
    destruct (timerId st); [destruct optMaxWait|]; reflexivity.
Qed.

(** *** A burst under trailing-only debouncing *)

(** Calls that follow a call at [c], each less than [wait] after the one
    before it, on a clock that does not go back. *)
Fixpoint pressure (c : Z) (calls : list (Z * A)) : Prop :=
  match calls with
  | [] => True
  | (t, _) :: r => c <= t /\ t - c < wait /\ pressure t r
  end.

Section TrailingOnly.
Hypothesis Hleading : optLeading = false.
Hypothesis Htrailing : optTrailing = true.
Hypothesis HmaxWait : optMaxWait = None.

(** The state between the calls of a burst: the last call was at [c] with
    [a], nothing was invoked since the burst began, and one time-out is
    pending, due no later than [c + wait]. *)
Definition inBurst (c : Z) (a : A) (log : list (Z * A)) (st : State) : Prop :=
  lastCallTime st = Some c
  /\ lastArgs st = Some a
  /\ timerId st <> None
  /\ invocations st = log
  /\ exists h d, timers st = [(h, d)] /\ c < d
       /\ (d = c + Z.max 1 wait \/ d - c < wait).

(** The time-out that a call at [c] arms is due [wait] later, or, when
    [wait] is beyond the range of a timer, 1 ms later. *)
Lemma armed_due c :
  c < c + timeoutDelay (Some wait)
  /\ (c + timeoutDelay (Some wait) = c + Z.max 1 wait
      \/ c + timeoutDelay (Some wait) - c < wait).
Proof.
  assert (Hpos := timeoutDelay_pos (Some wait)).
  split; [lia|].
  destruct (Z_le_gt_dec wait TIMEOUT_MAX) as [Hin | Hover].
  - left. now rewrite timeoutDelay_range.
  - right. rewrite timeoutDelay_over by lia. unfold TIMEOUT_MAX in Hover. lia.
Qed.

(** The time-out that is re-armed at [d], less than [wait] after the last
    call at [c], is due at [c + wait], or 1 ms later when the time left is
    beyond the range of a timer. *)
Lemma rearmed_due c d :
  c < d -> d - c < wait ->
  d < d + timeoutDelay (Some (wait - (d - c)))
  /\ (d + timeoutDelay (Some (wait - (d - c))) = c + Z.max 1 wait
      \/ d + timeoutDelay (Some (wait - (d - c))) - c < wait).
Proof.
  intros Hcd Hw.
  assert (Hpos := timeoutDelay_pos (Some (wait - (d - c)))).
  split; [lia|].
  destruct (Z_le_gt_dec (wait - (d - c)) TIMEOUT_MAX) as [Hin | Hover].
  - left. rewrite timeoutDelay_range by exact Hin. lia.
  - right. rewrite timeoutDelay_over by lia. unfold TIMEOUT_MAX in Hover. lia.
Qed.

Lemma inBurst_first st t a :
  timers st = [] -> timerId st = None ->
  inBurst t a (invocations st) (debounced a t (advanceTo t st)).
Proof.
  intros Ht Hid. rewrite advanceTo_idle by (rewrite Ht; intros x []).
  destruct (armed_due t) as [Hlt Hdue].
  unfold timeoutDelay in Hlt, Hdue.
  unfold debounced, leadingEdge. simpl. rewrite Hid, Hleading.
  destruct (shouldInvoke t st); simpl; rewrite Ht; simpl;
    (repeat split; [discriminate|]; eexists _, _;
     split; [reflexivity|]; split; [exact Hlt | exact Hdue]).
Qed.

(** The state of [inBurst] with any arguments held, or none: a call has
    been made at [c] and its time-out is pending. *)
Definition armedSince (c : Z) (args : option A) (log : list (Z * A))
    (st : State) : Prop :=
  lastCallTime st = Some c
  /\ lastArgs st = args
  /\ timerId st <> None
  /\ invocations st = log
  /\ exists h d, timers st = [(h, d)] /\ c < d
       /\ (d = c + Z.max 1 wait \/ d - c < wait).

Lemma fire_rearm c args log st h d :
  lastCallTime st = Some c -> lastArgs st = args ->
  invocations st = log -> timers st = [(h, d)] ->
  c < d -> d - c < wait ->
  armedSince c args log (fire h d st)
  /\ exists h' d', timers (fire h d st) = [(h', d')] /\ d < d'.
Proof.
  intros Hc Ha Hl Ht Hcd Hw.
  destruct (rearmed_due c d Hcd Hw) as [Hlt Hdue].
  unfold timeoutDelay in Hlt, Hdue.
  unfold fire, timerExpired, shouldInvoke. simpl. rewrite Hc, HmaxWait.
  assert (E1 : (d - c >=? wait) = false)
    by (rewrite Z.geb_leb; apply Z.leb_gt; lia).
  assert (E2 : (d - c <? 0) = false) by (apply Z.ltb_ge; lia).
  rewrite E1, E2. simpl. rewrite Ht. simpl. rewrite Nat.eqb_refl. simpl.
  unfold remainingWait. simpl. rewrite Hc, HmaxWait. simpl.
  split; [|eexists _, _; split; [reflexivity | exact Hlt]].
  unfold armedSince. simpl.
  repeat split; try assumption; [discriminate|].
  eexists _, _. split; [reflexivity|]. split; [lia | exact Hdue].
Qed.

Lemma fire_early c a log st h d :
  lastCallTime st = Some c -> lastArgs st = Some a ->
  invocations st = log -> timers st = [(h, d)] ->
  c < d -> d - c < wait ->
  inBurst c a log (fire h d st)
  /\ exists h' d', timers (fire h d st) = [(h', d')] /\ d < d'.
Proof. apply fire_rearm. Qed.

(** While the clock stays within [wait] of the last call, the time-outs
    that expire re-arm. *)
Lemma armedSince_advanceTo c args log st t :
  armedSince c args log st -> t - c < wait ->
  armedSince c args log (advanceTo t st).
Proof.
  intros Hb Hw.
  apply (advanceTo_ind t (armedSince c args log)); [|exact Hb].
  intros st' h d (Hc & Ha & Hid & Hl & h0 & d0 & Ht & Hcd & Hd) E Hle.
  rewrite Ht in E. simpl in E. injection E as <- <-.
  apply (fire_rearm c args log st' h0 d0); try assumption. lia.
Qed.

(** A call that follows within [wait] keeps the pending time-out and
    replaces the arguments held. *)
Lemma armedSince_call c args log st t a' :
  armedSince c args log st -> c <= t -> t - c < wait ->
  inBurst t a' log (debounced a' t (advanceTo t st)).
Proof.
  intros Hb Hct Hw.
  assert (Hq := advanceTo_quiescent t st).
  destruct (armedSince_advanceTo c args log st t Hb Hw)
    as (Hc' & _ & Hid' & Hl' & h' & d' & Ht' & Hcd' & Hd').
  assert (Htd : t < d').
  { apply (Hq (h', d')). rewrite Ht'. now left. }
  clear Hq.
  unfold debounced, shouldInvoke. rewrite Hc', HmaxWait. simpl.
  assert (E1 : (t - c >=? wait) = false)
    by (rewrite Z.geb_leb; apply Z.leb_gt; lia).
  assert (E2 : (t - c <? 0) = false) by (apply Z.ltb_ge; lia).
  rewrite E1, E2. simpl.
  destruct (timerId (advanceTo t st)) as [i|] eqn:Ei; [|congruence].
  unfold inBurst. simpl. rewrite Ei.
  repeat split; try assumption; try discriminate.
  exists h', d'. split; [exact Ht'|]. split; [lia|].
  destruct (Z.eq_dec d' (t + Z.max 1 wait)); [now left | right; lia].
Qed.

Lemma inBurst_step c a log st t a' :
  inBurst c a log st -> c <= t -> t - c < wait ->
  inBurst t a' log (debounced a' t (advanceTo t st)).
Proof. apply armedSince_call. Qed.

Lemma inBurst_run c a log st rest :
  inBurst c a log st -> pressure c rest ->
  inBurst (fst (last rest (c, a))) (snd (last rest (c, a))) log (run rest st).
Proof.
  revert c a st. induction rest as [|[t a'] rest IH]; intros c a st Hb Hp.
  - exact Hb.
  - destruct Hp as (Hct & Hw & Hp).
    assert (Hb' := inBurst_step c a log st t a' Hb Hct Hw).
    specialize (IH t a' _ Hb' Hp).
    change (run ((t, a') :: rest) st)
      with (run rest (debounced a' t (advanceTo t st))).
    rewrite last_cons. exact IH.
Qed.

(** Once the clock has passed the last call by [wait], the pending
    time-out, re-armed as often as the range of a timer requires, has run
    the trailing edge at [c + wait]. *)
Lemma inBurst_quiet_from c a log T (n : nat) :
  c + Z.max 1 wait <= T ->
  forall st h d,
    lastCallTime st = Some c -> lastArgs st = Some a ->
    invocations st = log -> timers st = [(h, d)] ->
    c < d -> (d = c + Z.max 1 wait \/ d - c < wait) ->
    (Z.to_nat (c + Z.max 1 wait - d) <= n)%nat ->
    invocations (advanceTo T st) = log ++ [(c + Z.max 1 wait, a)]
    /\ timers (advanceTo T st) = []
    /\ timerId (advanceTo T st) = None.
Proof.
  intros HT. induction n as [|n IH]; intros st h d Hc Ha Hl Ht Hcd Hd Hn.
  - destruct Hd as [-> | Hearly]; [|lia].
    rewrite (advanceTo_fire T st h (c + Z.max 1 wait));
      [|rewrite Ht; reflexivity | exact HT].
    assert (Hf : fire h (c + Z.max 1 wait) st
                 = invokeFunc (c + Z.max 1 wait)
                     (set_timerId None (set_timers [] st))).
    { unfold fire, timerExpired, shouldInvoke. simpl. rewrite Hc.
      assert (E1 : (c + Z.max 1 wait - c >=? wait) = true)
        by (rewrite Z.geb_leb; apply Z.leb_le; lia).
      rewrite E1. simpl. rewrite Ht. simpl. rewrite Nat.eqb_refl. simpl.
      unfold trailingEdge. simpl. rewrite Ha, Htrailing. reflexivity. }
    rewrite Hf. rewrite advanceTo_idle by (simpl; intros x []).
    simpl. rewrite Ha, Hl. repeat split.
  - destruct Hd as [-> | Hearly].
    + apply (IH st h (c + Z.max 1 wait)); try assumption; [now left | lia].
    + destruct (fire_early c a log st h d Hc Ha Hl Ht Hcd Hearly)
        as [(Hc' & Ha' & _ & Hl' & h1 & d1 & Ht1 & Hcd1 & Hd1)
              (h' & d' & Ht' & Hlt)].
      rewrite Ht1 in Ht'. injection Ht' as <- <-.
      rewrite (advanceTo_fire T st h d); [|rewrite Ht; reflexivity | lia].
      apply (IH _ h1 d1); try assumption. lia.
Qed.

Lemma inBurst_quiet c a log st T :
  inBurst c a log st -> c + Z.max 1 wait <= T ->
  invocations (advanceTo T st) = log ++ [(c + Z.max 1 wait, a)]
  /\ timers (advanceTo T st) = []
  /\ timerId (advanceTo T st) = None.
Proof.
  intros (Hc & Ha & Hid & Hl & h & d & Ht & Hcd & Hd) HT.
  apply (inBurst_quiet_from c a log T
           (Z.to_nat (c + Z.max 1 wait - d)) HT st h d);
    try assumption. lia.
Qed.

(** C6: with [trailing] on, [leading] off and no [maxWait], a burst of
    calls, each less than [wait] after the one before it, made while no
    time-out is pending, invokes the wrapped function exactly once: nothing
    during the burst, and once the clock has passed the last call by [wait]
    (at least 1 ms, the shortest time-out), one invocation with the
    arguments of the last call. *)
Theorem C6_trailing_burst_invokes_once :
  forall (st : State) (t1 : Z) (a1 : A) (rest : list (Z * A)) (T : Z),
    timers st = [] ->
    timerId st = None ->
    pressure t1 rest ->
    let final := last rest (t1, a1) in
    fst final + Z.max 1 wait <= T ->
    invocations (run ((t1, a1) :: rest) st) = invocations st
    /\ invocations (advanceTo T (run ((t1, a1) :: rest) st))
       = invocations st ++ [(fst final + Z.max 1 wait, snd final)].
Proof.
  intros st t1 a1 rest T Ht Hid Hp final HT.
  assert (Hb := inBurst_first st t1 a1 Ht Hid).
  assert (Hr := inBurst_run t1 a1 _ _ rest Hb Hp).
  change (run ((t1, a1) :: rest) st)
    with (run rest (debounced a1 t1 (advanceTo t1 st))).
  fold final in Hr. split.
  - now destruct Hr as (_ & _ & _ & Hl & _).
  - now destruct (inBurst_quiet _ _ _ _ T Hr HT).
Qed.

End TrailingOnly.


(** *** Continuous calls with [maxWait] and the trailing edge *)

Section MaxWaitPressure.
Variable m : Z.
Hypothesis Htrailing : optTrailing = true.
Hypothesis HmaxWait : optMaxWait = Some m.
Hypothesis Hwait : 1 <= wait.
Hypothesis Hm : 2 * wait <= m.

(** Every instant from the first call [t1] up to the last recorded
    invocation time is followed within [m] by a logged invocation. *)
Definition covered (t1 : Z) (st : State) : Prop :=
  forall s, t1 <= s -> s < lastInvokeTime st ->
    exists i a, In (i, a) (invocations st) /\ s <= i <= s + m.

(** The state of the wrapper while calls keep arriving: [c] is the last
    call, [now] the clock. *)
Definition underPressure (t1 c now : Z) (st : State) : Prop :=
  lastCallTime st = Some c
  /\ c <= now
  /\ t1 <= lastInvokeTime st
  /\ lastInvokeTime st <= now
  /\ (forall x, In x (timers st) ->
        now <= snd x /\ snd x <= lastInvokeTime st + m)
  /\ (lastArgs st <> None -> timers st <> [])
  /\ (timerId st <> None -> timers st <> [])
  /\ (timerId st = None -> c <= lastInvokeTime st)
  /\ (lastArgs st = None -> c <= lastInvokeTime st)
  /\ covered t1 st.

Lemma In_removeTimer h x l : In x (removeTimer h l) -> In x l.
Proof. unfold removeTimer. intros H. now apply filter_In in H. Qed.

Lemma app_not_nil {X : Type} (l : list X) (x : X) : l ++ [x] <> [].
Proof. destruct l; discriminate. Qed.

Lemma underPressure_fire t1 c now st h d t :
  underPressure t1 c now st ->
  earliest (timers st) = Some (h, d) -> d <= t -> t - c < wait ->
  underPressure t1 c d (fire h d st).
Proof.
  intros (Hc & Hcn & Ht1 & Hvn & Htm & Hargs & Hid & Hidn & Hargsn & Hcov)
         E Hdt Hw.
  apply earliest_Some in E. destruct E as [Hin Hmin].
  destruct (Htm _ Hin) as [Hnd Hdv]. simpl in Hnd, Hdv.
  set (v := lastInvokeTime st) in *.
  assert (Hrest : forall x, In x (removeTimer h (timers st)) ->
                    d <= snd x /\ snd x <= v + m).
  { intros x Hx. apply In_removeTimer in Hx. split.
    - apply (Hmin x Hx).
    - now apply Htm. }
  unfold fire, timerExpired, shouldInvoke. simpl. rewrite Hc, HmaxWait.
  assert (E1 : (d - c >=? wait) = false)
    by (rewrite Z.geb_leb; apply Z.leb_gt; lia).
  assert (E2 : (d - c <? 0) = false) by (apply Z.ltb_ge; lia).
  rewrite E1, E2. simpl. fold v.
  destruct (d - v >=? m) eqn:E3.
  - (* the boundary: the trailing edge runs *)
    rewrite Z.geb_leb in E3. apply Z.leb_le in E3.
    assert (Hd : d = v + m) by lia.
    unfold trailingEdge. simpl.
    destruct (lastArgs st) as [a|] eqn:Ea.
    + rewrite Htrailing. unfold underPressure, covered. simpl.
      rewrite Ea.
      repeat split; try assumption; try lia; try congruence.
      * now apply Hrest.
      * destruct (Hrest x H). lia.
      * intros s Hs1 Hs2. destruct (Z_lt_ge_dec s v) as [Hlt | Hge].
        -- destruct (Hcov s Hs1 Hlt) as (i & a0 & Hi & Hr).
           exists i, a0. split; [apply in_or_app; now left | exact Hr].
        -- exists d, a. split; [apply in_or_app; right; now left | lia].
    + specialize (Hargsn eq_refl). lia.
  - (* not yet: the time-out is re-armed *)
    rewrite Z.geb_leb in E3. apply Z.leb_gt in E3.
    assert (Hpos := timeoutDelay_pos
                      (Some (Z.min (wait - (d - c)) (m - (d - v))))).
    assert (Hle := timeoutDelay_le (Z.min (wait - (d - c)) (m - (d - v)))).
    unfold timeoutDelay in Hpos, Hle.
    unfold remainingWait. simpl. rewrite Hc, HmaxWait. fold v.
    unfold underPressure, covered. simpl.
    repeat split; try assumption; try lia; try congruence.
    + apply in_app_or in H. destruct H as [H | [<- | []]].
      * now apply Hrest.
      * simpl. lia.
    + apply in_app_or in H. destruct H as [H | [<- | []]].
      * now apply Hrest.
      * simpl. lia.
    + intros _. apply app_not_nil.
    + intros _. apply app_not_nil.
Qed.

(** Under pressure a call never invokes by itself: it records its
    arguments and, when no time-out is recorded, arms one. *)
Lemma underPressure_call t1 c now st t a :
  underPressure t1 c now st ->
  (forall x, In x (timers st) -> t < snd x) ->
  now <= t -> c <= t -> t - c < wait ->
  underPressure t1 t t (debounced a t st)
  /\ t < lastInvokeTime (debounced a t st) + m.
Proof.
  intros (Hc & Hcn & Ht1 & Hvn & Htm & Hargs & Hid & Hidn & Hargsn & Hcov)
         Hq Hnt Hct Hw.
  set (v := lastInvokeTime st) in *.
  assert (Hni : shouldInvoke t st = false /\ t < v + m).
  { unfold shouldInvoke. rewrite Hc, HmaxWait. fold v.
    assert (E1 : (t - c >=? wait) = false)
      by (rewrite Z.geb_leb; apply Z.leb_gt; lia).
    assert (E2 : (t - c <? 0) = false) by (apply Z.ltb_ge; lia).
    rewrite E1, E2. simpl.
    assert (Hlt : t < v + m).
    { destruct (timerId st) as [i|] eqn:Ei.
      - assert (Hne : timers st <> []) by (apply Hid; discriminate).
        destruct (timers st) as [|x r] eqn:Et; [congruence|].
        destruct (Htm x (or_introl eq_refl)) as [_ Hx].
        specialize (Hq x (or_introl eq_refl)). lia.
      - specialize (Hidn eq_refl). lia. }
    split; [|exact Hlt]. rewrite Z.geb_leb. apply Z.leb_gt. lia. }
  destruct Hni as [Hni Hlt].
  assert (Hpos := timeoutDelay_pos (Some wait)).
  assert (Hle := timeoutDelay_le wait).
  unfold timeoutDelay in Hpos, Hle.
  unfold debounced. rewrite Hni. simpl.
  destruct (timerId st) as [i|] eqn:Ei; simpl.
  - split; [|exact Hlt]. unfold underPressure, covered. simpl. rewrite Ei.
    repeat split; try assumption; try lia; try congruence;
      try (intros _; apply Hid; discriminate).
    + specialize (Hq x H). lia.
    + now apply Htm.
  - specialize (Hidn eq_refl). fold v in Hidn.
    split; [|exact Hlt]. unfold underPressure, covered. simpl.
    repeat split; try assumption; try lia; try congruence.
    + apply in_app_or in H. destruct H as [H | [<- | []]].
      * specialize (Hq x H). lia.
      * simpl. lia.
    + apply in_app_or in H. destruct H as [H | [<- | []]].
      * now apply Htm.
      * simpl. fold v. lia.
    + intros _. apply app_not_nil.
    + intros _. apply app_not_nil.
Qed.

Lemma underPressure_step t1 c st t a :
  underPressure t1 c c st -> c <= t -> t - c < wait ->
  underPressure t1 t t (debounced a t (advanceTo t st))
  /\ t < lastInvokeTime (debounced a t (advanceTo t st)) + m.
Proof.
  intros Hinv Hct Hw.
  assert (Hadv : exists now, now <= t /\ underPressure t1 c now (advanceTo t st)).
  { apply (advanceTo_ind t
             (fun st' => exists now, now <= t /\ underPressure t1 c now st')).
    - intros st' h d (now & Hnow & Hst') E Hd. exists d. split; [exact Hd|].
      now apply (underPressure_fire t1 c now st' h d t).
    - exists c. now split. }
  destruct Hadv as (now & Hnow & Hst').
  apply (underPressure_call t1 c now); try assumption.
  apply advanceTo_quiescent.
Qed.

Lemma underPressure_first st t1 a1 :
  lastCallTime st = None -> timers st = [] -> timerId st = None ->
  underPressure t1 t1 t1 (debounced a1 t1 (advanceTo t1 st))
  /\ t1 < lastInvokeTime (debounced a1 t1 (advanceTo t1 st)) + m.
Proof.
  intros Hc Ht Hid. rewrite advanceTo_idle by (rewrite Ht; intros x []).
  assert (Hpos := timeoutDelay_pos (Some wait)).
  assert (Hle := timeoutDelay_le wait).
  unfold timeoutDelay in Hpos, Hle.
  unfold debounced, shouldInvoke. rewrite Hc. simpl. rewrite Hid.
  unfold leadingEdge. simpl. rewrite Ht. simpl.
  destruct optLeading; unfold underPressure, covered; simpl;
    (repeat split; try lia; try congruence; try discriminate;
     try (destruct H as [<- | []]; simpl; lia)).
Qed.

Lemma underPressure_run t1 c st rest a :
  underPressure t1 c c st -> c < lastInvokeTime st + m ->
  pressure c rest ->
  let final := fst (last rest (c, a)) in
  underPressure t1 final final (run rest st)
  /\ final < lastInvokeTime (run rest st) + m.
Proof.
  revert c st a. induction rest as [|[t a'] rest IH]; intros c st a Hinv Hlt Hp.
  - simpl. now split.
  - destruct Hp as (Hct & Hw & Hp). rewrite last_cons.
    destruct (underPressure_step t1 c st t a' Hinv Hct Hw) as [Hinv' Hlt'].
    apply (IH t _ a' Hinv' Hlt' Hp).
Qed.

(** C7, as the code has it: with the trailing edge on and
    [maxWait >= 2 * wait], while calls keep arriving less than [wait]
    apart (first call at [t1], made with no call recorded and no time-out
    pending), every span of length [maxWait] that lies between the first
    and the last call contains an invocation of the wrapped function. *)
Theorem C7_maxWait_forces_invocation :
  forall (st : State) (t1 : Z) (a1 : A) (rest : list (Z * A)),
    lastCallTime st = None ->
    timers st = [] ->
    timerId st = None ->
    pressure t1 rest ->
    forall s,
      t1 <= s ->
      s + m <= fst (last rest (t1, a1)) ->
      exists i a,
        In (i, a) (invocations (run ((t1, a1) :: rest) st))
        /\ s <= i <= s + m.
Proof.
  intros st t1 a1 rest Hc Ht Hid Hp s Hs1 Hs2.
  change (run ((t1, a1) :: rest) st)
    with (run rest (debounced a1 t1 (advanceTo t1 st))).
  destruct (underPressure_first st t1 a1 Hc Ht Hid) as [Hinv Hlt].
  destruct (underPressure_run t1 t1 _ rest a1 Hinv Hlt Hp) as [Hfin Hltf].
  destruct Hfin as (_ & _ & _ & _ & _ & _ & _ & _ & _ & Hcov).
  apply Hcov; [exact Hs1 | lia].
Qed.

End MaxWaitPressure.

(** *** What the time-outs can invoke *)

Lemma fire_without_arguments h d st :
  lastArgs st = None ->
  lastArgs (fire h d st) = None /\ invocations (fire h d st) = invocations st.
Proof.
  intros Ha. unfold fire, timerExpired.
  destruct (shouldInvoke d (set_timers (removeTimer h (timers st)) st)).
  - unfold trailingEdge. simpl. rewrite Ha. now split.
  - simpl. now split.
Qed.

Lemma advanceTo_without_arguments T st :
  lastArgs st = None ->
  lastArgs (advanceTo T st) = None
  /\ invocations (advanceTo T st) = invocations st.
Proof.
  intros Ha.
  apply (advanceTo_ind T
           (fun st' => lastArgs st' = None
                       /\ invocations st' = invocations st)).
  - intros st' h d [Ha' Hl'] _ _.
    destruct (fire_without_arguments h d st' Ha') as [H1 H2].
    split; [exact H1 | congruence].
  - now split.
Qed.

(** X9: [cancel] discards the pending invocation for good: after it
    nothing is pending, and however long the clock runs on, no time-out
    (not even one that [cancel] did not clear) invokes the wrapped
    function. *)
Theorem X9_cancel_discards_pending_invocation :
  forall (st : State) (T : Z),
    pending (cancel st) = false
    /\ invocations (cancel st) = invocations st
    /\ invocations (advanceTo T (cancel st)) = invocations st
    /\ lastCallTime (advanceTo T (cancel st)) = None.
Proof.
  intros st T.
  assert (Hl : invocations (cancel st) = invocations st).
  { unfold cancel, cancelTimer. simpl.
    destruct (timerId st); simpl; destruct (maxTimerId st); reflexivity. }
  split; [reflexivity|]. split; [exact Hl|].
  destruct (advanceTo_without_arguments T (cancel st) eq_refl) as [_ H].
  split; [congruence|].
  apply (advanceTo_ind T (fun st' => lastCallTime st' = None)).
  - intros st' h d Hc _ _. unfold fire, timerExpired, shouldInvoke. simpl.
    rewrite Hc. unfold trailingEdge. simpl.
    destruct (lastArgs st'); [destruct optTrailing|]; exact Hc.
  - reflexivity.
Qed.

(** X10: [flush] with a time-out recorded and arguments pending, trailing
    edge on, invokes the wrapped function at once with the latest
    arguments and returns its result; nothing is pending afterwards and the
    time-out that is still armed invokes nothing more. *)
Theorem X10_flush_invokes_pending_once :
  forall (st : State) (time T : Z) (a : A),
    optTrailing = true ->
    timerId st <> None ->
    lastArgs st = Some a ->
    fst (flush time st) = Some (func a)
    /\ invocations (snd (flush time st)) = invocations st ++ [(time, a)]
    /\ pending (snd (flush time st)) = false
    /\ invocations (advanceTo T (snd (flush time st)))
       = invocations st ++ [(time, a)].
Proof.
  intros st time T a Htr Hid Ha.
  assert (Hf : flush time st
               = (Some (func a),
                  invokeFunc time (set_timerId None st))).
  { unfold flush. destruct (timerId st) as [i|]; [|congruence].
    unfold trailingEdge. simpl. rewrite Ha, Htr. simpl. now rewrite Ha. }
  rewrite Hf. simpl. rewrite Ha.
  split; [reflexivity|]. split; [reflexivity|]. split; [reflexivity|].
  destruct (advanceTo_without_arguments T
              (invokeFunc time (set_timerId None st)) eq_refl) as [_ H].
  rewrite H. simpl. now rewrite Ha.
Qed.

(** A [flush] with no time-out recorded does nothing and returns the last
    result. *)
Lemma flush_idle st time :
  timerId st = None -> flush time st = (result st, st).
Proof. intros H. unfold flush. now rewrite H. Qed.

(** *** One call *)

Lemma single_call :
  forall (st : State) (t : Z) (a : A) (T : Z),
    wait <= TIMEOUT_MAX ->
    lastCallTime st = None ->
    timers st = [] ->
    timerId st = None ->
    t + Z.max 1 wait <= T ->
    invocations (debounced a t (advanceTo t st))
    = invocations st ++ (if optLeading then [(t, a)] else [])
    /\ invocations (advanceTo T (debounced a t (advanceTo t st)))
       = invocations st
         ++ (if optLeading then [(t, a)]
             else if optTrailing then [(t + Z.max 1 wait, a)] else []).
Proof.
  intros st t a T Hrange Hc Ht Hid HT.
  rewrite advanceTo_idle by (rewrite Ht; intros x []).
  assert (Hcall : debounced a t st
                  = leadingEdge t (set_lastCallTime (Some t)
                                     (set_lastArgs (Some a) st))).
  { unfold debounced, shouldInvoke. rewrite Hc. simpl. now rewrite Hid. }
  rewrite Hcall. unfold leadingEdge, startTimer.
  rewrite (timeoutDelay_range wait Hrange).
  simpl. rewrite Ht. simpl.
  set (armed := set_timerId (Some (nextHandle st)) _).
  assert (Hfire : forall st0,
            lastCallTime st0 = Some t ->
            timers st0 = [(nextHandle st, t + Z.max 1 wait)] ->
            advanceTo T st0
            = trailingEdge (t + Z.max 1 wait) (set_timers [] st0)).
  { intros st0 Hc0 Ht0.
    rewrite (advanceTo_fire T st0 (nextHandle st) (t + Z.max 1 wait));
      [|rewrite Ht0; reflexivity | exact HT].
    assert (Hf : fire (nextHandle st) (t + Z.max 1 wait) st0
                 = trailingEdge (t + Z.max 1 wait) (set_timers [] st0)).
    { unfold fire, timerExpired, shouldInvoke. simpl. rewrite Hc0, Ht0. simpl.
      rewrite Nat.eqb_refl. simpl.
      assert (E1 : (t + Z.max 1 wait - t >=? wait) = true)
        by (rewrite Z.geb_leb; apply Z.leb_le; lia).
      now rewrite E1. }
    rewrite Hf. apply advanceTo_idle. unfold trailingEdge. simpl.
    destruct (lastArgs st0); [destruct optTrailing|]; simpl; intros x []. }
  destruct optLeading.
  - split; [reflexivity|].
    rewrite (Hfire (invokeFunc t armed)) by reflexivity.
    unfold trailingEdge. reflexivity.
  - rewrite app_nil_r. split; [reflexivity|].
    rewrite (Hfire armed) by reflexivity.
    unfold trailingEdge. simpl. destruct optTrailing; simpl.
    + reflexivity.
    + now rewrite app_nil_r.
Qed.

(** X11: a single call made with no call recorded and no time-out
    pending, with [wait] no longer than the longest delay of a timer,
    invokes the wrapped function at most once, whatever [maxWait] is: at
    once when the leading edge is on, else once the time-out has run,
    [wait] (at least 1 ms) later, when the trailing edge is on, else
    never.  With the leading edge on the time-out invokes nothing more. *)
Theorem X11_lone_call_invokes_at_most_once :
  forall (st : State) (t : Z) (a : A) (T : Z),
    wait <= TIMEOUT_MAX ->
    lastCallTime st = None ->
    timers st = [] ->
    timerId st = None ->
    t + Z.max 1 wait <= T ->
    invocations (debounced a t (advanceTo t st))
    = invocations st ++ (if optLeading then [(t, a)] else [])
    /\ invocations (advanceTo T (debounced a t (advanceTo t st)))
       = invocations st
         ++ (if optLeading then [(t, a)]
             else if optTrailing then [(t + Z.max 1 wait, a)] else []).
Proof. exact single_call. Qed.

(** *** A burst with the leading edge on *)

Section LeadingBurst.
Hypothesis Hleading : optLeading = true.
Hypothesis HmaxWait : optMaxWait = None.

Lemma advanceTo_trailing_off T st :
  optTrailing = false -> invocations (advanceTo T st) = invocations st.
Proof.
  intros Htr.
  apply (advanceTo_ind T (fun st' => invocations st' = invocations st));
    [|reflexivity].
  intros st' h d Hl _ _. rewrite <- Hl. unfold fire, timerExpired.
  destruct (shouldInvoke d _).
  - unfold trailingEdge. simpl. rewrite Htr. now destruct (lastArgs st').
  - reflexivity.
Qed.

(** X12: with the leading edge on and no [maxWait], a burst of calls, each
    less than [wait] after the one before it, that starts with no call
    recorded and no time-out pending invokes the wrapped function with the
    first call's arguments at once; if the burst has further calls and the
    trailing edge is on it invokes once more, with the last call's
    arguments, [wait] after the last call; and nothing else. *)
Theorem X12_leading_burst_invokes_first_and_last :
  forall (st : State) (t1 : Z) (a1 : A) (rest : list (Z * A)) (T : Z),
    lastCallTime st = None ->
    timers st = [] ->
    timerId st = None ->
    pressure t1 rest ->
    let final := last rest (t1, a1) in
    fst final + Z.max 1 wait <= T ->
    invocations (advanceTo T (run ((t1, a1) :: rest) st))
    = invocations st ++ [(t1, a1)]
      ++ (match rest with
          | [] => []
          | _ :: _ =>
              if optTrailing then [(fst final + Z.max 1 wait, snd final)]
              else []
          end).
Proof.
  intros st t1 a1 rest T Hc Ht Hid Hp final HT.
  assert (Hfirst : debounced a1 t1 (advanceTo t1 st)
                   = invokeFunc t1
                       (set_timerId (Some (nextHandle st))
                          (snd (startTimer (Some wait) t1
                                  (set_lastInvokeTime t1
                                     (set_lastCallTime (Some t1)
                                        (set_lastArgs (Some a1) st))))))).
  { rewrite advanceTo_idle by (rewrite Ht; intros x []).
    unfold debounced, shouldInvoke. rewrite Hc. simpl. rewrite Hid.
    unfold leadingEdge. simpl. now rewrite Hleading. }
  destruct rest as [|[t2 a2] rest'].
  - change (run [(t1, a1)] st) with (debounced a1 t1 (advanceTo t1 st)).
    rewrite Hfirst.
    destruct (advanceTo_without_arguments T
                (invokeFunc t1
                   (set_timerId (Some (nextHandle st))
                      (snd (startTimer (Some wait) t1
                              (set_lastInvokeTime t1
                                 (set_lastCallTime (Some t1)
                                    (set_lastArgs (Some a1) st)))))))
                eq_refl) as [_ H].
    rewrite H. reflexivity.
  - destruct Hp as (H12 & Hw & Hp).
    change (run ((t1, a1) :: (t2, a2) :: rest') st)
      with (run rest' (debounced a2 t2
                         (advanceTo t2 (debounced a1 t1 (advanceTo t1 st))))).
    rewrite Hfirst.
    set (s1 := invokeFunc t1 _).
    assert (Hs1 : armedSince t1 None (invocations st ++ [(t1, a1)]) s1).
    { destruct (armed_due t1) as [Hlt Hdue].
      subst s1. unfold armedSince. simpl. rewrite Ht. simpl.
      repeat split; try discriminate.
      eexists _, _. split; [reflexivity|]. split; [exact Hlt | exact Hdue]. }
    assert (Hb := armedSince_call HmaxWait t1 None _ s1 t2 a2 Hs1 H12 Hw).
    assert (Hr := inBurst_run HmaxWait t2 a2 _ _ rest' Hb Hp).
    assert (Hfinal : final = last rest' (t2, a2)).
    { subst final. now rewrite last_cons. }
    rewrite <- Hfinal in Hr.
    destruct optTrailing eqn:Htr.
    + destruct (inBurst_quiet Htr HmaxWait _ _ _ _ T Hr HT) as (H & _).
      rewrite H. now rewrite <- app_assoc.
    + rewrite (advanceTo_trailing_off T _ Htr).
      destruct Hr as (_ & _ & _ & Hl & _). rewrite Hl. now rewrite app_nil_r.
Qed.

End LeadingBurst.

(** *** Continuous calls with [maxWait] and the leading edge *)

Lemma invocations_fire_grow h d st x :
  In x (invocations st) -> In x (invocations (fire h d st)).
Proof.
  intros Hin. unfold fire, timerExpired.
  destruct (shouldInvoke d _); [|exact Hin].
  unfold trailingEdge. simpl.
  destruct (lastArgs st); [destruct optTrailing|]; simpl;
    try exact Hin. apply in_or_app. now left.
Qed.

Lemma invocations_debounced_grow a t st x :
  In x (invocations st) -> In x (invocations (debounced a t st)).
Proof.
  intros Hin. unfold debounced, leadingEdge.
  destruct (shouldInvoke t st); simpl;
    destruct (timerId st); simpl;
    try destruct optMaxWait; simpl;
    try destruct optLeading; simpl;
    try exact Hin; apply in_or_app; now left.
Qed.

Section LeadingMaxWait.
Variable m : Z.
Hypothesis Hleading : optLeading = true.
Hypothesis HmaxWait : optMaxWait = Some m.
Hypothesis Hm : 0 < m.

(** The recorded invoke time is the time of a logged invocation, made at
    the clock value [t] or less than [m] before it. *)
Definition recentlyInvoked (t : Z) (st : State) : Prop :=
  (exists a, In (lastInvokeTime st, a) (invocations st))
  /\ lastInvokeTime st <= t
  /\ t - lastInvokeTime st < m.

Definition invokedBy (t : Z) (st : State) : Prop :=
  (exists a, In (lastInvokeTime st, a) (invocations st))
  /\ lastInvokeTime st <= t.

Lemma invokedBy_advanceTo c t st :
  invokedBy c st -> c <= t ->
  invokedBy t (advanceTo t st)
  /\ forall x, In x (invocations st) -> In x (invocations (advanceTo t st)).
Proof.
  intros [Hin Hle] Hct.
  apply (advanceTo_ind t
           (fun st' => invokedBy t st'
                       /\ forall x, In x (invocations st) ->
                                    In x (invocations st'))).
  - intros st' h d [[[a Ha] Hv] Hgrow] _ Hd. split.
    + unfold fire, timerExpired.
      destruct (shouldInvoke d _).
      * unfold trailingEdge. simpl.
        destruct (lastArgs st') as [a'|] eqn:Ea;
          [destruct optTrailing|]; unfold invokedBy; simpl;
          try (split; [now exists a | exact Hv]).
        rewrite Ea.
        split; [|exact Hd]. exists a'. apply in_or_app. right. now left.
      * unfold invokedBy. simpl. split; [now exists a | exact Hv].
    + intros x Hx. apply invocations_fire_grow. now apply Hgrow.
  - split; [|tauto]. split; [exact Hin | lia].
Qed.

(** With the leading edge on, a call that comes [m] or more after the
    recorded invoke time invokes at once. *)
Lemma recentlyInvoked_call c t a st :
  invokedBy t st -> lastCallTime st = Some c ->
  recentlyInvoked t (debounced a t st).
Proof.
  intros [[a0 Ha0] Hv] Hc. unfold debounced.
  destruct (shouldInvoke t st) eqn:Es.
  - simpl. destruct (timerId st).
    + rewrite HmaxWait. unfold recentlyInvoked. simpl.
      split; [|lia]. eexists. apply in_or_app. right. now left.
    + unfold leadingEdge. simpl. rewrite Hleading.
      unfold recentlyInvoked. simpl.
      split; [|lia]. eexists. apply in_or_app. right. now left.
  - assert (Hlt : t - lastInvokeTime st < m).
    { unfold shouldInvoke in Es. rewrite Hc, HmaxWait in Es.
      apply orb_false_iff in Es. destruct Es as [_ Es].
      rewrite Z.geb_leb in Es. apply Z.leb_gt in Es. lia. }
    simpl. destruct (timerId st); unfold recentlyInvoked; simpl;
      (split; [now exists a0 | lia]).
Qed.

Lemma lastCallTime_advanceTo t st :
  lastCallTime (advanceTo t st) = lastCallTime st.
Proof.
  apply (advanceTo_ind t (fun st' => lastCallTime st' = lastCallTime st));
    [|reflexivity].
  intros st' h d Hc _ _. rewrite <- Hc. unfold fire, timerExpired.
  destruct (shouldInvoke d _); [|reflexivity].
  unfold trailingEdge. simpl.
  destruct (lastArgs st'); [destruct optTrailing|]; reflexivity.
Qed.

Lemma lastCallTime_debounced a t st :
  lastCallTime (debounced a t st) = Some t.
Proof.
  unfold debounced, leadingEdge.
  destruct (shouldInvoke t st); simpl;
    destruct (timerId st); simpl;
    try destruct optMaxWait; simpl;
    try destruct optLeading; reflexivity.
Qed.

(** Every instant [s] from the first call on that lies [m] or more before
    the clock value [c] is followed by a logged invocation, later than [s]
    and less than [m + wait] later. *)
Definition reached (t1 c : Z) (st : State) : Prop :=
  forall s, t1 <= s -> s + m <= c ->
    exists i a, In (i, a) (invocations st) /\ s < i < s + m + wait.

Lemma leading_pressure_run t1 rest :
  forall c st a,
    recentlyInvoked c st -> lastCallTime st = Some c -> reached t1 c st ->
    pressure c rest ->
    reached t1 (fst (last rest (c, a))) (run rest st).
Proof.
  induction rest as [|[t a'] rest IH]; intros c st a Hr Hc Hcov Hp;
    [exact Hcov|].
  destruct Hp as (Hct & Hw & Hp). rewrite last_cons.
  change (run ((t, a') :: rest) st)
    with (run rest (debounced a' t (advanceTo t st))).
  destruct Hr as (Hin & Hv & Hlt).
  destruct (invokedBy_advanceTo c t st (conj Hin Hv) Hct) as [Hby Hgrow].
  assert (Hc' : lastCallTime (advanceTo t st) = Some c)
    by now rewrite lastCallTime_advanceTo.
  assert (Hr' := recentlyInvoked_call c t a' _ Hby Hc').
  apply (IH t _ a'); [exact Hr' | apply lastCallTime_debounced | | exact Hp].
  intros s Hs1 Hs2.
  destruct (Z_le_gt_dec (s + m) c) as [Hold | Hnew].
  - destruct (Hcov s Hs1 Hold) as (i & a0 & Hi & Hrange).
    exists i, a0. split; [|exact Hrange].
    apply invocations_debounced_grow. now apply Hgrow.
  - destruct Hr' as ((a0 & Ha0) & Hv' & Hlt').
    exists (lastInvokeTime (debounced a' t (advanceTo t st))), a0.
    split; [exact Ha0 | lia].
Qed.

Lemma leading_pressure_covered :
  forall (st : State) (t1 : Z) (a1 : A) (rest : list (Z * A)),
    lastCallTime st = None ->
    timers st = [] ->
    timerId st = None ->
    pressure t1 rest ->
    forall s,
      t1 <= s ->
      s + m <= fst (last rest (t1, a1)) ->
      exists i a,
        In (i, a) (invocations (run ((t1, a1) :: rest) st))
        /\ s < i < s + m + wait.
Proof.
  intros st t1 a1 rest Hc Ht Hid Hp.
  change (run ((t1, a1) :: rest) st)
    with (run rest (debounced a1 t1 (advanceTo t1 st))).
  apply (leading_pressure_run t1 rest t1 _ a1).
  - rewrite advanceTo_idle by (rewrite Ht; intros x []).
    unfold debounced, shouldInvoke. rewrite Hc. simpl. rewrite Hid.
    unfold leadingEdge. simpl. rewrite Hleading.
    unfold recentlyInvoked. simpl.
    split; [|lia]. eexists. apply in_or_app. right. now left.
  - apply lastCallTime_debounced.
  - intros s Hs1 Hs2. lia.
  - exact Hp.
Qed.

End LeadingMaxWait.

End Debounced.

(** *** Concrete runs *)

(** [n] calls, [step] apart, from [start]; each call passes its own clock
    value as argument. *)
Fixpoint callsEvery (n : nat) (start step : Z) : list (Z * Z) :=
  match n with
  | O => []
  | S k => (start, start) :: callsEvery k (start + step) step
  end.

Definition identity (x : Z) : Z := x.

Definition trailingOnly : DebounceOptions :=
  mkOptions (Some false) (Some true) None.

(** The example of the specification for C6: five calls 30 ms apart under
    [debounce(f, 100, {trailing: true, leading: false})]. *)
Lemma C6_five_calls_30ms :
  invocations (run identity 0 100 trailingOnly (callsEvery 5 1000 30) initial)
  = []
  /\ invocations
       (advanceTo identity 0 100 trailingOnly 2000
          (run identity 0 100 trailingOnly (callsEvery 5 1000 30) initial))
     = [(1220, 1120)].
Proof.
  apply (C6_trailing_burst_invokes_once identity 0 100 trailingOnly
           eq_refl eq_refl eq_refl initial 1000 1000
           (callsEvery 4 1030 30) 2000).
  - reflexivity.
  - reflexivity.
  - simpl. lia.
  - simpl. lia.
Defined.

(** A wrapper called at clock value 1000, then looked at with the clock
    set back to 990. *)
Definition calledAt1000 : State :=
  debounced identity 0 100 trailingOnly 7 1000 initial.

Lemma C8_skewed_clock_example :
  shouldInvoke 100 trailingOnly 990 calledAt1000 = true
  /\ timerExpired identity 0 100 trailingOnly 990 calledAt1000
     = trailingEdge identity 0 trailingOnly 990 calledAt1000
  /\ timerId (timerExpired identity 0 100 trailingOnly 990 calledAt1000)
     = None
  /\ debounced identity 0 100 trailingOnly 8 990 calledAt1000
     = set_lastCallTime (Some 990) (set_lastArgs (Some 8) calledAt1000).
Proof.
  apply (C8_negative_elapsed_should_invoke identity 0 100 trailingOnly
           calledAt1000 990 1000 8).
  - reflexivity.
  - lia.
Defined.

(** The example of the specification for C7: calls every 10 ms with
    [wait = 50] and [maxWait = 120], trailing edge on. *)
Definition maxWait120 : DebounceOptions :=
  mkOptions (Some false) (Some true) (Some 120).

Example maxWait120_invocations :
  invocations (run identity 0 50 maxWait120 (callsEvery 40 1000 10) initial)
  = [(1120, 1110); (1240, 1230); (1360, 1350)].
Proof. vm_compute. reflexivity. Qed.

Lemma C7_spec_example_covered :
  exists i a,
    In (i, a)
       (invocations
          (run identity 0 50 maxWait120 (callsEvery 40 1000 10) initial))
    /\ 1121 <= i <= 1121 + 120.
Proof.
  apply (C7_maxWait_forces_invocation identity 0 50 maxWait120 120
           eq_refl eq_refl ltac:(lia) ltac:(lia)
           initial 1000 1000 (callsEvery 39 1010 10)).
  - reflexivity.
  - reflexivity.
  - reflexivity.
  - simpl. repeat split; lia.
  - lia.
  - simpl. lia.
Defined.

(** With both edges off nothing is ever invoked, whatever [maxWait] is:
    at the boundary the time-out runs a trailing edge that is switched off,
    and the next call takes a leading edge that is switched off. *)
Definition noEdges120 : DebounceOptions :=
  mkOptions (Some false) (Some false) (Some 120).

Lemma C7_no_edges_never_invokes :
  pressure 50 1000 (callsEvery 39 1010 10)
  /\ invocations
       (run identity 0 50 noEdges120 (callsEvery 40 1000 10) initial) = []
  /\ ~ (exists i a,
          In (i, a)
             (invocations
                (run identity 0 50 noEdges120 (callsEvery 40 1000 10) initial))
          /\ 1000 <= i <= 1000 + 120).
Proof.
  split; [simpl; repeat split; lia|].
  assert (E : invocations
                (run identity 0 50 noEdges120 (callsEvery 40 1000 10) initial)
              = []) by (vm_compute; reflexivity).
  split; [exact E|]. rewrite E. intros (i & a & [] & _).
Qed.

(** With the trailing edge on but [maxWait] below [2 * wait], a span of
    length [maxWait] can pass without an invocation: [wait = 50],
    [maxWait = 60], calls every 45 ms invoke at 1060 and next at 1135. *)
Example maxWait_below_twice_wait :
  let log := invocations
               (run identity 0 50 (mkOptions (Some false) (Some true) (Some 60))
                    (callsEvery 10 1000 45) initial) in
  log = [(1060, 1045); (1135, 1135); (1195, 1180); (1255, 1225);
         (1315, 1315); (1375, 1360)]
  /\ ~ (exists i a, In (i, a) log /\ 1061 <= i <= 1061 + 60).
Proof.
  vm_compute. split; [reflexivity|].
  intros (i & a & Hin & Hlo & Hhi).
  repeat (destruct Hin as [[= <- <-] | Hin];
          [apply Hlo + apply Hhi; reflexivity|]).
  destruct Hin.
Qed.

(** With the leading edge on and the trailing edge off, the invocation
    after the boundary waits for the next call: calls every 7 ms invoke at
    1000 and next at 1126, more than [maxWait = 120] later. *)
Example maxWait_leading_only :
  let log := invocations
               (run identity 0 50 (mkOptions (Some true) (Some false) (Some 120))
                    (callsEvery 40 1000 7) initial) in
  log = [(1000, 1000); (1126, 1126); (1252, 1252)]
  /\ ~ (exists i a, In (i, a) log /\ 1001 <= i <= 1001 + 120).
Proof.
  vm_compute. split; [reflexivity|].
  intros (i & a & Hin & Hlo & Hhi).
  repeat (destruct Hin as [[= <- <-] | Hin];
          [apply Hlo + apply Hhi; reflexivity|]).
  destruct Hin.
Qed.

(** *** [throttle] *)

Record ThrottleOptions : Type := mkThrottleOptions {
  throttleLeading : option bool;
  throttleTrailing : option bool
}.

(** [throttle(func, wait, options)] is [debounce(func, wait, {leading,
    trailing, maxWait: wait})] with [leading] and [trailing] defaulting to
    [true]: the options under which the returned wrapper runs. *)
Definition throttle (wait : Z) (o : ThrottleOptions) : DebounceOptions :=
  mkOptions
    (Some (match throttleLeading o with Some b => b | None => true end))
    (Some (match throttleTrailing o with Some b => b | None => true end))
    (Some wait).

(** X13: under [throttle] with the leading edge left on, while calls keep
    coming less than [wait] apart, every instant [s] from the first call
    up to [wait] before the last one is followed by an invocation less
    than [2 * wait] later. *)
Theorem X13_throttle_invokes_within_twice_wait :
  forall (A R : Type) (func : A -> R) (noArgs : A) (wait : Z)
         (o : ThrottleOptions) (st : @State A R)
         (t1 : Z) (a1 : A) (rest : list (Z * A)),
    0 < wait ->
    throttleLeading o <> Some false ->
    lastCallTime st = None ->
    timers st = [] ->
    timerId st = None ->
    pressure wait t1 rest ->
    forall s,
      t1 <= s ->
      s + wait <= fst (last rest (t1, a1)) ->
      exists i a,
        In (i, a)
           (invocations
              (run func noArgs wait (throttle wait o) ((t1, a1) :: rest) st))
        /\ s < i < s + 2 * wait.
Proof.
  intros A R func noArgs wait o st t1 a1 rest Hw Hl Hc Ht Hid Hp s Hs1 Hs2.
  assert (Hlead : optLeading (throttle wait o) = true).
  { unfold optLeading, throttle. simpl.
    destruct (throttleLeading o) as [[|]|]; congruence. }
  destruct (leading_pressure_covered func noArgs wait (throttle wait o) wait
              Hlead eq_refl Hw st t1 a1 rest Hc Ht Hid Hp s Hs1 Hs2)
    as (i & a & Hin & Hrange).
  exists i, a. split; [exact Hin | lia].
Qed.

Definition throttleDefaults : ThrottleOptions := mkThrottleOptions None None.

Lemma X13_throttle_example :
  exists i a,
    In (i, a)
       (invocations
          (run identity 0 100 (throttle 100 throttleDefaults)
               (callsEvery 40 1000 30) initial))
    /\ 1500 < i < 1500 + 2 * 100.
Proof.
  apply (X13_throttle_invokes_within_twice_wait Z Z identity 0 100
           throttleDefaults initial 1000 1000 (callsEvery 39 1030 30)).
  - lia.
  - discriminate.
  - reflexivity.
  - reflexivity.
  - reflexivity.
  - simpl. repeat split; lia.
  - lia.
  - simpl. lia.
Defined.

(** [throttle] does not keep invocations [wait] apart: the trailing
    invocation of one window and the leading one of the next can be
    closer. *)
Example throttle_spacing_below_wait :
  invocations
    (run identity 0 100 (throttle 100 throttleDefaults)
         [(1000, 1); (1050, 2); (1150, 3)] initial)
  = [(1000, 1); (1100, 2); (1150, 3)].
Proof. vm_compute. reflexivity. Qed.

(** *** Runs of [cancel], [flush] and the leading edge *)

Lemma X10_flush_example :
  fst (flush identity 0 trailingOnly 1040 calledAt1000) = Some (identity 7)
  /\ invocations (snd (flush identity 0 trailingOnly 1040 calledAt1000))
     = invocations calledAt1000 ++ [(1040, 7)]
  /\ pending (snd (flush identity 0 trailingOnly 1040 calledAt1000)) = false
  /\ invocations
       (advanceTo identity 0 100 trailingOnly 5000
          (snd (flush identity 0 trailingOnly 1040 calledAt1000)))
     = invocations calledAt1000 ++ [(1040, 7)].
Proof.
  apply (X10_flush_invokes_pending_once identity 0 100 trailingOnly
           calledAt1000 1040 5000 7).
  - reflexivity.
  - discriminate.
  - reflexivity.
Defined.

(** A lone call under [throttle]'s defaults is invoked at once, and the
    time-out of the window adds nothing. *)
Lemma X11_lone_throttled_call :
  invocations
    (debounced identity 0 100 (throttle 100 throttleDefaults) 7 1000
       (advanceTo identity 0 100 (throttle 100 throttleDefaults) 1000 initial))
  = [(1000, 7)]
  /\ invocations
       (advanceTo identity 0 100 (throttle 100 throttleDefaults) 2000
          (debounced identity 0 100 (throttle 100 throttleDefaults) 7 1000
             (advanceTo identity 0 100 (throttle 100 throttleDefaults) 1000
                initial)))
     = [(1000, 7)].
Proof.
  apply (X11_lone_call_invokes_at_most_once identity 0 100
           (throttle 100 throttleDefaults) initial 1000 7 2000).
  - unfold TIMEOUT_MAX. lia.
  - reflexivity.
  - reflexivity.
  - reflexivity.
  - simpl. lia.
Defined.

(** Beyond the range of a timer the first time-out runs after 1 ms and
    re-arms for what is left of [maxWait]: with [wait = 3000000000] and
    [maxWait = 120] a lone call is invoked 120 ms after it. *)
Example lone_call_beyond_timer_range :
  invocations
    (advanceTo identity 0 3000000000
       (mkOptions (Some false) (Some true) (Some 120)) 2000
       (debounced identity 0 3000000000
          (mkOptions (Some false) (Some true) (Some 120)) 7 1000 initial))
  = [(1120, 7)].
Proof. vm_compute. reflexivity. Qed.

Definition bothEdges : DebounceOptions :=
  mkOptions (Some true) (Some true) None.

Lemma X12_five_calls_both_edges :
  invocations
    (advanceTo identity 0 100 bothEdges 2000
       (run identity 0 100 bothEdges (callsEvery 5 1000 30) initial))
  = [(1000, 1000); (1220, 1120)].
Proof.
  apply (X12_leading_burst_invokes_first_and_last identity 0 100 bothEdges
           eq_refl eq_refl initial 1000 1000 (callsEvery 4 1030 30) 2000).
  - reflexivity.
  - reflexivity.
  - reflexivity.
  - simpl. repeat split; lia.
  - simpl. lia.
Defined.

(** *** [rateLimit] *)

Lemma filter_length_le {X : Type} (p q : X -> bool) (l : list X) :
  (forall x, In x l -> p x = true -> q x = true) ->
  (List.length (filter p l) <= List.length (filter q l))%nat.
Proof.
  induction l as [|x l IH]; intros H; simpl; [lia|].
  assert (IH' := IH (fun y Hy => H y (or_intror Hy))).
  destruct (p x) eqn:Ep.
  - rewrite (H x (or_introl eq_refl) Ep). simpl. lia.
  - destruct (q x); simpl; lia.
Qed.

Lemma filter_ext_in' {X : Type} (p q : X -> bool) (l : list X) :
  (forall x, In x l -> p x = q x) -> filter p l = filter q l.
Proof.
  induction l as [|x l IH]; intros H; simpl; [reflexivity|].
  rewrite (H x (or_introl eq_refl)).
  now rewrite (IH (fun y Hy => H y (or_intror Hy))).
Qed.

Lemma filter_narrow {X : Type} (p q : X -> bool) (l : list X) :
  (forall x, p x = true -> q x = true) ->
  filter p (filter q l) = filter p l.
Proof.
  intros H. induction l as [|x l IH]; simpl; [reflexivity|].
  destruct (q x) eqn:Eq; simpl.
  - now rewrite IH.
  - destruct (p x) eqn:Ep; [|exact IH].
    apply H in Ep. congruence.
Qed.

Lemma filter_map_fst {X : Type} (p : Z -> bool) (l : list (Z * X)) :
  filter p (map fst l) = map fst (filter (fun x => p (fst x)) l).
Proof.
  induction l as [|x l IH]; simpl; [reflexivity|].
  destruct (p (fst x)); simpl; now rewrite IH.
Qed.

(** Call times that never go back. *)
Fixpoint ascending {X : Type} (c : Z) (l : list (Z * X)) : Prop :=
  match l with
  | [] => True
  | (t, _) :: rest => c <= t /\ ascending t rest
  end.

Lemma ascending_app {X : Type} (l : list (Z * X)) :
  forall c t x,
    ascending c (l ++ [(t, x)])
    <-> ascending c l /\ fst (last l (c, x)) <= t.
Proof.
  induction l as [|[t0 x0] l IH]; intros c t x.
  - simpl. tauto.
  - rewrite last_cons. simpl app. simpl ascending.
    rewrite (IH t0 t x).
    assert (E : fst (last l (t0, x0)) = fst (last l (t0, x))).
    { clear. revert t0 x0. induction l as [|[t1 x1] l IH]; intros t0 x0;
        [reflexivity|]. rewrite !last_cons. reflexivity. }
    rewrite E. tauto.
Qed.

Section RateLimit.
Context {A : Type}.
Variable maxCalls : Z.
Variable timeWindow : Z.

(** The [calls] array of the closure and a log of the calls passed on to
    the wrapped function. *)
Record Limiter : Type := mkLimiter {
  calls : list Z;
  executed : list (Z * A)
}.

Definition newLimiter : Limiter := mkLimiter [] [].

(** [while (calls.length > 0 && calls[0] <= now - timeWindow)
    calls.shift()] *)
Fixpoint shiftOld (cutoff : Z) (l : list Z) : list Z :=
  match l with
  | [] => []
  | c :: rest => if c <=? cutoff then shiftOld cutoff rest else l
  end.

(** The returned function, called with [args] while [Date.now()] is
    [now]. *)
Definition rateLimited (args : A) (now : Z) (st : Limiter)
    : bool * Limiter :=
  let calls1 := shiftOld (now - timeWindow) (calls st) in
  if Z.of_nat (List.length calls1) >=? maxCalls
  then (false, mkLimiter calls1 (executed st))
  else (true, mkLimiter (calls1 ++ [now]) (executed st ++ [(now, args)])).

Definition runLimited (l : list (Z * A)) (st : Limiter) : Limiter :=
  fold_left (fun s x => snd (rateLimited (snd x) (fst x) s)) l st.

(** The calls passed on during the window of length [timeWindow] that
    ends at [t], its start excluded. *)
Definition executedIn (t : Z) (log : list (Z * A)) : nat :=
  List.length
    (filter (fun x => (t - timeWindow <? fst x) && (fst x <=? t)) log).

Fixpoint ascendingZ (l : list Z) : Prop :=
  match l with
  | [] => True
  | x :: rest => (forall y, In y rest -> x <= y) /\ ascendingZ rest
  end.

Lemma shiftOld_filter cutoff l :
  ascendingZ l -> shiftOld cutoff l = filter (fun c => cutoff <? c) l.
Proof.
  induction l as [|c l IH]; intros Hs; [reflexivity|].
  destruct Hs as [Hc Hs]. simpl.
  destruct (c <=? cutoff) eqn:E.
  - apply Z.leb_le in E.
    replace (cutoff <? c) with false by (symmetry; apply Z.ltb_ge; lia).
    now apply IH.
  - apply Z.leb_gt in E.
    replace (cutoff <? c) with true by (symmetry; apply Z.ltb_lt; lia).
    f_equal. clear IH Hs. induction l as [|y l IHl]; [reflexivity|].
    simpl.
    replace (cutoff <? y) with true
      by (symmetry; apply Z.ltb_lt;
          specialize (Hc y (or_introl eq_refl)); lia).
    f_equal. apply IHl. intros z Hz. apply Hc. now right.
Qed.

Lemma ascendingZ_filter p l : ascendingZ l -> ascendingZ (filter p l).
Proof.
  induction l as [|c l IH]; intros Hs; [exact I|].
  destruct Hs as [Hc Hs]. simpl. destruct (p c); [|now apply IH].
  split; [|now apply IH].
  intros y Hy. apply filter_In in Hy. apply Hc. tauto.
Qed.

Lemma ascendingZ_snoc l x :
  ascendingZ l -> (forall y, In y l -> y <= x) -> ascendingZ (l ++ [x]).
Proof.
  induction l as [|c l IH]; intros Hs Hle; simpl; [tauto|].
  destruct Hs as [Hc Hs]. split.
  - intros y Hy. apply in_app_or in Hy. destruct Hy as [Hy | [<- | []]].
    + now apply Hc.
    + apply Hle. now left.
  - apply IH; [exact Hs|]. intros y Hy. apply Hle. now right.
Qed.

(** What holds of the limiter once the call at clock value [c] is done:
    [calls] is in ascending order and holds, among the times later than
    [c - timeWindow], those of the calls passed on. *)
Definition limiterInv (c : Z) (st : Limiter) : Prop :=
  ascendingZ (calls st)
  /\ (forall x, In x (calls st) -> x <= c)
  /\ (forall x, In x (executed st) -> fst x <= c)
  /\ filter (fun x => c - timeWindow <? x) (calls st)
     = map fst (filter (fun x => c - timeWindow <? fst x) (executed st))
  /\ forall t, Z.of_nat (executedIn t (executed st)) <= Z.max 0 maxCalls.

Lemma limiterInv_new c : limiterInv c newLimiter.
Proof.
  unfold limiterInv, newLimiter, executedIn. simpl.
  repeat split; try tauto. intros t. lia.
Qed.

Lemma shifted_is_window c now st :
  limiterInv c st -> c <= now ->
  shiftOld (now - timeWindow) (calls st)
  = map fst (filter (fun x => now - timeWindow <? fst x) (executed st)).
Proof.
  intros (Hs & _ & _ & Hw & _) Hle.
  rewrite (shiftOld_filter _ _ Hs).
  rewrite <- (filter_narrow (fun x => now - timeWindow <? x)
                            (fun x => c - timeWindow <? x) (calls st))
    by (intros x Hx; apply Z.ltb_lt in Hx; apply Z.ltb_lt; lia).
  rewrite Hw, filter_map_fst. f_equal.
  apply (filter_narrow (fun x => now - timeWindow <? fst x)
                       (fun x => c - timeWindow <? fst x)).
  intros x Hx. apply Z.ltb_lt in Hx. apply Z.ltb_lt. lia.
Qed.

Lemma shifted_length c now st :
  limiterInv c st -> c <= now ->
  List.length (shiftOld (now - timeWindow) (calls st))
  = executedIn now (executed st).
Proof.
  intros Hi Hle. rewrite (shifted_is_window c now st Hi Hle).
  rewrite length_map. unfold executedIn. f_equal.
  apply filter_ext_in'. intros x Hx.
  destruct Hi as (_ & _ & He & _).
  replace (fst x <=? now) with true
    by (symmetry; apply Z.leb_le; specialize (He x Hx); lia).
  now rewrite andb_true_r.
Qed.

Lemma limiterInv_step c now args st :
  limiterInv c st -> c <= now ->
  limiterInv now (snd (rateLimited args now st)).
Proof.
  intros Hi Hle.
  assert (Hwin := shifted_is_window c now st Hi Hle).
  assert (Hlen := shifted_length c now st Hi Hle).
  destruct Hi as (Hs & Hc & He & Hw & Hb).
  assert (Hs1 : ascendingZ (shiftOld (now - timeWindow) (calls st))).
  { rewrite (shiftOld_filter _ _ Hs). now apply ascendingZ_filter. }
  assert (Hc1 : forall x, In x (shiftOld (now - timeWindow) (calls st)) ->
                          x <= now).
  { intros x Hx. rewrite (shiftOld_filter _ _ Hs) in Hx.
    apply filter_In in Hx. specialize (Hc x (proj1 Hx)). lia. }
  assert (Hw1 : filter (fun x => now - timeWindow <? x)
                       (shiftOld (now - timeWindow) (calls st))
                = shiftOld (now - timeWindow) (calls st)).
  { rewrite (shiftOld_filter _ _ Hs). now apply filter_narrow. }
  unfold rateLimited.
  destruct (Z.of_nat (List.length (shiftOld _ _)) >=? maxCalls) eqn:Efull;
    simpl.
  - unfold limiterInv. simpl. repeat split.
    + exact Hs1.
    + exact Hc1.
    + intros x Hx. specialize (He x Hx). lia.
    + now rewrite Hw1.
    + exact Hb.
  - rewrite Z.geb_leb in Efull. apply Z.leb_gt in Efull.
    unfold limiterInv. simpl. repeat split.
    + apply ascendingZ_snoc; assumption.
    + intros x Hx. apply in_app_or in Hx.
      destruct Hx as [Hx | [<- | []]]; [now apply Hc1 | lia].
    + intros x Hx. apply in_app_or in Hx.
      destruct Hx as [Hx | [<- | []]];
        [specialize (He x Hx); lia | simpl; lia].
    + rewrite !filter_app, map_app, Hw1, Hwin. simpl.
      destruct (now - timeWindow <? now); reflexivity.
    + intros t. unfold executedIn. rewrite filter_app, length_app.
      simpl. destruct (Z_lt_ge_dec t now) as [Hearly | Hlate].
      * replace (now <=? t) with false by (symmetry; apply Z.leb_gt; lia).
        rewrite andb_false_r. simpl.
        specialize (Hb t). unfold executedIn in Hb. lia.
      * assert (Hmono :
                 (List.length
                    (filter (fun x => (t - timeWindow <? fst x)%Z
                                      && (fst x <=? t)%Z) (executed st))
                  <= executedIn now (executed st))%nat).
        { unfold executedIn. apply filter_length_le. intros x Hx Hp.
          apply andb_true_iff in Hp. destruct Hp as [Hp _].
          apply Z.ltb_lt in Hp. apply andb_true_iff. split.
          - apply Z.ltb_lt. lia.
          - apply Z.leb_le. specialize (He x Hx). lia. }
        destruct ((t - timeWindow <? now) && (now <=? t)); simpl; lia.
Qed.

Lemma limiterInv_runLimited l :
  forall c st,
    limiterInv c st -> ascending c l ->
    exists c', limiterInv c' (runLimited l st)
               /\ c <= c'
               /\ forall now args, ascending c (l ++ [(now, args)]) ->
                                   c' <= now.
Proof.
  induction l as [|[t a] l IH]; intros c st Hi Ha.
  - exists c. split; [exact Hi|]. split; [lia|].
    intros now args H. simpl in H. tauto.
  - destruct Ha as [Hct Ha].
    destruct (IH t _ (limiterInv_step c t a st Hi Hct) Ha)
      as (c' & Hi' & Hle & Hnext).
    exists c'. split; [exact Hi'|]. split; [lia|].
    intros now args H. simpl in H. destruct H as [_ H].
    now apply (Hnext now args).
Qed.

(** X14: when call times never go back, the wrapper passes on at most
    [maxCalls] calls (none when [maxCalls] is not positive) within any
    window of length [timeWindow], whatever the calls are. *)
Theorem X14_rateLimit_bounds_every_window :
  forall (l : list (Z * A)) (c t : Z),
    ascending c l ->
    Z.of_nat (executedIn t (executed (runLimited l newLimiter)))
    <= Z.max 0 maxCalls.
Proof.
  intros l c t Ha.
  destruct (limiterInv_runLimited l c newLimiter (limiterInv_new c) Ha)
    as (c' & Hi & _).
  destruct Hi as (_ & _ & _ & _ & Hb). apply Hb.
Qed.

(** X15: when call times never go back, a call is passed on to the
    wrapped function, and answered [true], exactly when fewer than
    [maxCalls] calls were passed on in the window of length [timeWindow]
    that ends at it; otherwise it is answered [false] and the wrapped
    function is not called. *)
Theorem X15_rateLimit_accepts_below_limit :
  forall (l : list (Z * A)) (c now : Z) (args : A),
    ascending c (l ++ [(now, args)]) ->
    let st := runLimited l newLimiter in
    let accepted :=
      Z.of_nat (executedIn now (executed st)) <? maxCalls in
    fst (rateLimited args now st) = accepted
    /\ executed (snd (rateLimited args now st))
       = executed st ++ (if accepted then [(now, args)] else []).
Proof.
  intros l c now args Ha st accepted.
  assert (Hl : ascending c l).
  { apply ascending_app in Ha. tauto. }
  destruct (limiterInv_runLimited l c newLimiter (limiterInv_new c) Hl)
    as (c' & Hi & _ & Hnext).
  assert (Hle := Hnext now args Ha).
  assert (Hlen := shifted_length c' now st Hi Hle).
  unfold rateLimited. fold st. rewrite Hlen. rewrite Z.geb_leb.
  destruct (maxCalls <=? Z.of_nat (executedIn now (executed st))) eqn:E.
  - apply Z.leb_le in E.
    replace accepted with false
      by (symmetry; apply Z.ltb_ge; exact E).
    simpl. now rewrite app_nil_r.
  - apply Z.leb_gt in E.
    replace accepted with true
      by (symmetry; apply Z.ltb_lt; exact E).
    simpl. tauto.
Qed.

End RateLimit.

Lemma X14_three_per_second :
  Z.of_nat
    (executedIn 1000 1900
       (executed (runLimited 3 1000 (callsEvery 20 1000 100) newLimiter)))
  <= Z.max 0 3.
Proof.
  apply (X14_rateLimit_bounds_every_window 3 1000
           (callsEvery 20 1000 100) 1000 1900).
  simpl. repeat split; lia.
Defined.

Lemma X15_fourth_call_refused :
  fst (rateLimited 3 1000 1300 1300
         (runLimited 3 1000 (callsEvery 3 1000 100) newLimiter))
  = false
  /\ executed (snd (rateLimited 3 1000 1300 1300
                      (runLimited 3 1000 (callsEvery 3 1000 100) newLimiter)))
     = [(1000, 1000); (1100, 1100); (1200, 1200)].
Proof.
  apply (X15_rateLimit_accepts_below_limit 3 1000
           (callsEvery 3 1000 100) 1000 1300 1300).
  simpl. repeat split; lia.
Defined.

(** *** [once] *)

Section Once.
Context {A R E : Type}.
(** The wrapped function returns a value or throws. *)
Variable func : A -> R + E.

(** The closure's [called] and [result] ([None] while [result] is
    unassigned, which reads as [undefined]), and a log of the arguments the
    wrapped function was called with. *)
Record OnceState : Type := mkOnce {
  called : bool;
  onceResult : option R;
  onceLog : list A
}.

Definition newOnce : OnceState := mkOnce false None [].

(** A call of the returned function: the value returned ([None] for
    [undefined]) or the exception that leaves it.  [called] is set before
    the wrapped function runs. *)
Definition onceCall (args : A) (st : OnceState)
    : (option R + E) * OnceState :=
  if called st then (inl (onceResult st), st)
  else match func args with
       | inl r => (inl (Some r), mkOnce true (Some r) (onceLog st ++ [args]))
       | inr e => (inr e, mkOnce true None (onceLog st ++ [args]))
       end.

Fixpoint runOnce (l : list A) (st : OnceState)
    : list (option R + E) * OnceState :=
  match l with
  | [] => ([], st)
  | a :: rest =>
      let (r, st1) := onceCall a st in
      let (rs, st2) := runOnce rest st1 in
      (r :: rs, st2)
  end.

Lemma runOnce_called l :
  forall st,
    called st = true ->
    runOnce l st = (map (fun _ => inl (onceResult st)) l, st).
Proof.
  induction l as [|a l IH]; intros st Hc; [reflexivity|].
  simpl. unfold onceCall. rewrite Hc. now rewrite (IH st Hc).
Qed.

(** X16: the wrapped function runs on the first call only.  When it
    returns, every later call returns that first result, whatever its own
    arguments; when it throws, the exception leaves the first call and
    every later call returns [undefined] without running it again. *)
Theorem X16_once_runs_first_call_only :
  forall (a1 : A) (rest : list A),
    onceLog (snd (runOnce (a1 :: rest) newOnce)) = [a1]
    /\ fst (runOnce (a1 :: rest) newOnce)
       = match func a1 with
         | inl r => inl (Some r) :: map (fun _ => inl (Some r)) rest
         | inr e => inr e :: map (fun _ => inl None) rest
         end.
Proof.
  intros a1 rest. simpl. unfold onceCall at 1 2. simpl.
  destruct (func a1) as [r | e].
  - rewrite runOnce_called by reflexivity. simpl. tauto.
  - rewrite runOnce_called by reflexivity. simpl. tauto.
Qed.

End Once.

(** *** [retry] *)

Section Retry.
Context {R E : Type}.
(** The outcome of the [n]-th call of the wrapped function, counted from
    0: the value its promise resolves to, or the error it rejects with. *)
Variable attempt : nat -> R + E.
Variable maxRetries : Z.

(** What a call of the returned function has done when its promise
    settles: the value it resolves to, or [lastError] ([None] for
    [undefined]) that it rejects with; the calls made of the wrapped
    function; the waits of [retryDelay] made. *)
Record RetryRun : Type := mkRetryRun {
  outcome : R + option E;
  attempts : nat;
  sleeps : nat
}.

(** The loop [for (let i = 0; i <= maxRetries; i++)], [n] calls made so
    far. *)
Fixpoint retryLoop (fuel : nat) (i : Z) (n : nat) (lastError : option E)
    (slept : nat) : RetryRun :=
  match fuel with
  | O => mkRetryRun (inr lastError) n slept
  | S k =>
      if i <=? maxRetries then
        match attempt n with
        | inl r => mkRetryRun (inl r) (S n) slept
        | inr e =>
            retryLoop k (i + 1) (S n) (Some e)
                      (if i <? maxRetries then S slept else slept)
        end
      else mkRetryRun (inr lastError) n slept
  end.

(** The number of passes the loop can make. *)
Definition maxAttempts : nat := Z.to_nat (maxRetries + 1).

Definition retried : RetryRun :=
  retryLoop (S maxAttempts) 0 0 None 0.

Definition settled (r : RetryRun) : Prop :=
  (attempts r <= maxAttempts)%nat
  /\ sleeps r = Nat.pred (attempts r)
  /\ (forall j, (S j < attempts r)%nat -> exists e, attempt j = inr e)
  /\ match outcome r with
     | inl v =>
         exists k, attempts r = S k /\ attempt k = inl v
     | inr None => maxAttempts = O /\ attempts r = O
     | inr (Some e) =>
         exists k, attempts r = S k /\ maxAttempts = S k
                   /\ attempt k = inr e
     end.

Lemma retryLoop_settled fuel :
  forall (n : nat) (lastError : option E) (slept : nat),
    (maxAttempts - n < fuel)%nat ->
    (n <= maxAttempts)%nat ->
    slept = Nat.min n (Nat.pred maxAttempts) ->
    (forall j, (j < n)%nat -> exists e, attempt j = inr e) ->
    match lastError with
    | None => n = O
    | Some e => exists k, n = S k /\ attempt k = inr e
    end ->
    settled (retryLoop fuel (Z.of_nat n) n lastError slept).
Proof.
  unfold maxAttempts.
  induction fuel as [|fuel IH]; intros n lastError slept Hf Hn Hs Hfail Hlast;
    [lia|].
  simpl. destruct (Z.of_nat n <=? maxRetries) eqn:Ei.
  - apply Z.leb_le in Ei.
    destruct (attempt n) as [v | e] eqn:Ea.
    + unfold settled, maxAttempts. simpl. repeat split.
      * lia.
      * lia.
      * intros j Hj. apply Hfail. lia.
      * exists n. tauto.
    + replace (Z.of_nat n + 1) with (Z.of_nat (S n)) by lia.
      apply IH.
      * lia.
      * lia.
      * destruct (Z.of_nat n <? maxRetries) eqn:El.
        -- apply Z.ltb_lt in El. lia.
        -- apply Z.ltb_ge in El. lia.
      * intros j Hj. destruct (Nat.eq_dec j n) as [-> | Hne].
        -- now exists e.
        -- apply Hfail. lia.
      * exists n. tauto.
  - apply Z.leb_gt in Ei.
    unfold settled, maxAttempts. simpl. repeat split.
    + lia.
    + lia.
    + intros j Hj. apply Hfail. lia.
    + destruct lastError as [e|].
      * destruct Hlast as (k & -> & Hk). exists k.
        split; [reflexivity|]. split; [lia | exact Hk].
      * subst n. split; [lia | reflexivity].
Qed.

(** X17: the returned function calls the wrapped one until a call
    succeeds, at most [maxRetries + 1] times, and waits between two calls
    but not after the last.  It resolves to the value of the first call
    that succeeds; when all [maxRetries + 1] calls fail it rejects with the
    error of the last one; when [maxRetries] is negative it makes no call
    and rejects with [undefined]. *)
Theorem X17_retry_stops_at_first_success :
  (attempts retried <= maxAttempts)%nat
  /\ sleeps retried = Nat.pred (attempts retried)
  /\ (forall j, (S j < attempts retried)%nat -> exists e, attempt j = inr e)
  /\ match outcome retried with
     | inl v =>
         exists k, attempts retried = S k /\ attempt k = inl v
     | inr None => maxAttempts = O /\ attempts retried = O
     | inr (Some e) =>
         exists k, attempts retried = S k /\ maxAttempts = S k
                   /\ attempt k = inr e
     end.
Proof.
  apply (retryLoop_settled (S maxAttempts) O None O).
  - lia.
  - lia.
  - reflexivity.
  - intros j Hj. lia.
  - reflexivity.
Qed.

End Retry.

(** *** [batch] *)

Section Batch.
Context {T : Type}.
Variable delay : Z.
Variable maxBatchSize : Z.

(** The closure's [items] and [timeoutId], and the batches handed to the
    wrapped function so far.  A time-out is live exactly while [timeoutId]
    is set (it is cleared or has run whenever [timeoutId] is reset), so
    [timeoutId] is kept as the due time of that time-out. *)
Record Batcher : Type := mkBatcher {
  items : list T;
  timeoutId : option Z;
  delivered : list (list T)
}.

Definition newBatcher : Batcher := mkBatcher [] None [].

Definition processBatch (st : Batcher) : Batcher :=
  match items st with
  | [] => mkBatcher [] None (delivered st)
  | _ :: _ => mkBatcher [] None (delivered st ++ [items st])
  end.

(** The time-out runs [processBatch] once the clock has reached its due
    time. *)
Definition advanceBatch (t : Z) (st : Batcher) : Batcher :=
  match timeoutId st with
  | Some due => if due <=? t then processBatch st else st
  | None => st
  end.

(** The returned function, called with [item] at clock value [t]. *)
Definition batched (item : T) (t : Z) (st : Batcher) : Batcher :=
  let st0 := advanceBatch t st in
  let items1 := (items st0 ++ [item])%list in
  if Z.of_nat (List.length items1) >=? maxBatchSize
  then processBatch (mkBatcher items1 None (delivered st0))
  else match timeoutId st0 with
       | Some _ => mkBatcher items1 (timeoutId st0) (delivered st0)
       | None =>
           mkBatcher items1 (Some (t + timeoutDelay (Some delay)))
                     (delivered st0)
       end.

Definition runBatch (l : list (Z * T)) (st : Batcher) : Batcher :=
  fold_left (fun s x => batched (snd x) (fst x) s) l st.

(** Items are neither lost nor repeated, batches are not empty and not
    above the size limit, and items held back have a time-out set. *)
Definition batcherInv (pushed : list T) (st : Batcher) : Prop :=
  (List.concat (delivered st) ++ items st)%list = pushed
  /\ (forall b, In b (delivered st) ->
                b <> [] /\ Z.of_nat (List.length b) <= Z.max 1 maxBatchSize)
  /\ Z.of_nat (List.length (items st)) < Z.max 1 maxBatchSize
  /\ (items st <> [] -> timeoutId st <> None).

Lemma batcherInv_process pushed its tid dl :
  (List.concat dl ++ its)%list = pushed ->
  (forall b, In b dl ->
             b <> [] /\ Z.of_nat (List.length b) <= Z.max 1 maxBatchSize) ->
  Z.of_nat (List.length its) <= Z.max 1 maxBatchSize ->
  batcherInv pushed (processBatch (mkBatcher its tid dl)).
Proof.
  intros Hc Hb Hl. unfold processBatch, batcherInv. simpl.
  destruct its as [|x its]; simpl.
  - split; [exact Hc|]. split; [exact Hb|]. split; [lia | tauto].
  - split; [rewrite concat_app; simpl; now rewrite !app_nil_r|].
    split; [|split; [lia | tauto]].
    intros b Hin. apply in_app_or in Hin.
    destruct Hin as [Hin | [<- | []]]; [now apply Hb|].
    split; [discriminate | exact Hl].
Qed.

Lemma batcherInv_advance pushed t st :
  batcherInv pushed st -> batcherInv pushed (advanceBatch t st).
Proof.
  intros Hi. unfold advanceBatch.
  destruct (timeoutId st) as [due|]; [|exact Hi].
  destruct (due <=? t); [|exact Hi].
  destruct Hi as (Hc & Hb & Hl & _). destruct st as [its tid dl].
  apply batcherInv_process; simpl in *; [exact Hc | exact Hb | lia].
Qed.

Lemma batcherInv_batched pushed item t st :
  batcherInv pushed st ->
  batcherInv (pushed ++ [item]) (batched item t st).
Proof.
  intros Hi. apply (batcherInv_advance pushed t) in Hi.
  unfold batched. destruct Hi as (Hc & Hb & Hl & Ht).
  destruct (Z.of_nat (List.length (items (advanceBatch t st) ++ [item]))
            >=? maxBatchSize) eqn:Efull.
  - apply batcherInv_process.
    + now rewrite app_assoc, Hc.
    + exact Hb.
    + rewrite length_app. simpl. lia.
  - rewrite Z.geb_leb in Efull. apply Z.leb_gt in Efull.
    destruct (timeoutId (advanceBatch t st)) eqn:Et;
      unfold batcherInv; simpl; rewrite ?Et;
      (split; [now rewrite app_assoc, Hc|]);
      (split; [exact Hb|]); (split; [lia|]); discriminate.
Qed.

Lemma batcherInv_run l :
  forall pushed st,
    batcherInv pushed st ->
    batcherInv (pushed ++ map snd l) (runBatch l st).
Proof.
  induction l as [|[t x] l IH]; intros pushed st Hi; simpl.
  - now rewrite app_nil_r.
  - replace (pushed ++ x :: map snd l)%list
      with ((pushed ++ [x]) ++ map snd l)%list
      by (now rewrite <- app_assoc).
    apply IH. now apply batcherInv_batched.
Qed.

Lemma batcherInv_new : batcherInv [] newBatcher.
Proof.
  unfold batcherInv, newBatcher. simpl.
  repeat split; try tauto; lia.
Qed.

(** X18: whatever the items and the times they are pushed at, the batches
    handed over so far followed by the items still held are the items
    pushed, in order, each once; no batch is empty, none is longer than
    [maxBatchSize] (1 when that is below 1), fewer items than that are
    held back, and while items are held back a time-out is set. *)
Theorem X18_batch_keeps_every_item_once :
  forall (l : list (Z * T)),
    let st := runBatch l newBatcher in
    (List.concat (delivered st) ++ items st)%list = map snd l
    /\ (forall b, In b (delivered st) ->
                  b <> [] /\ Z.of_nat (List.length b) <= Z.max 1 maxBatchSize)
    /\ Z.of_nat (List.length (items st)) < Z.max 1 maxBatchSize
    /\ (items st <> [] -> timeoutId st <> None).
Proof.
  intros l. exact (batcherInv_run l [] newBatcher batcherInv_new).
Qed.

(** The time-out set, if any, is due no later than [delay] (at least
    1 ms) after the clock value [c]. *)
Definition dueBy (c : Z) (st : Batcher) : Prop :=
  match timeoutId st with
  | Some due => due <= c + timeoutDelay (Some delay)
  | None => True
  end.

Lemma items_process st : items (processBatch st) = [].
Proof. unfold processBatch. now destruct (items st). Qed.

Lemma dueBy_process c st : dueBy c (processBatch st).
Proof. unfold dueBy, processBatch. now destruct (items st). Qed.

Lemma dueBy_batched c t item st :
  dueBy c st -> c <= t -> dueBy t (batched item t st).
Proof.
  intros Hd Hle. unfold batched.
  destruct (_ >=? maxBatchSize); [apply dueBy_process|].
  assert (Hd0 : dueBy c (advanceBatch t st)).
  { unfold advanceBatch. destruct (timeoutId st) as [due|] eqn:Et;
      [|exact Hd].
    destruct (due <=? t); [apply dueBy_process | exact Hd]. }
  unfold dueBy in *.
  destruct (timeoutId (advanceBatch t st)) eqn:Et; simpl in *; rewrite ?Et;
    lia.
Qed.

Lemma dueBy_run l :
  forall c st (d : T),
    dueBy c st -> ascending c l ->
    dueBy (fst (last l (c, d))) (runBatch l st).
Proof.
  induction l as [|[t x] l IH]; intros c st d Hd Ha; [exact Hd|].
  destruct Ha as [Hle Ha]. rewrite last_cons.
  apply (IH t _ x); [|exact Ha].
  now apply (dueBy_batched c).
Qed.

(** X19: when push times never go back, every item pushed has been handed
    over once the clock is [delay] (at least 1 ms) past the last push:
    the batches are then the items pushed, in order, and none is held
    back. *)
Theorem X19_batch_delivers_within_delay :
  forall (l : list (Z * T)) (c : Z) (d : T) (t : Z),
    ascending c l ->
    fst (last l (c, d)) + Z.max 1 delay <= t ->
    let st := advanceBatch t (runBatch l newBatcher) in
    items st = [] /\ List.concat (delivered st) = map snd l.
Proof.
  intros l c d t Ha Ht st.
  assert (Hi := batcherInv_advance _ t _
                  (batcherInv_run l [] newBatcher batcherInv_new)).
  assert (Hd := dueBy_run l c newBatcher d I Ha).
  fold st in Hi. destruct Hi as (Hc & _ & _ & Htid).
  assert (He : items st = []).
  { destruct (timeoutId (runBatch l newBatcher)) as [due|] eqn:Et.
    - unfold dueBy in Hd. rewrite Et in Hd.
      assert (Hle := timeoutDelay_le delay).
      unfold st, advanceBatch. rewrite Et.
      replace (due <=? t) with true by (symmetry; apply Z.leb_le; lia).
      apply items_process.
    - assert (Est : st = runBatch l newBatcher)
        by (unfold st, advanceBatch; now rewrite Et).
      destruct (items st) eqn:Ei; [reflexivity|].
      exfalso. apply Htid; [discriminate | now rewrite Est]. }
  split; [exact He|]. rewrite He, app_nil_r in Hc. exact Hc.
Qed.

End Batch.

Lemma X19_five_items_three_at_a_time :
  items (advanceBatch 2000
           (runBatch 50 3 (callsEvery 5 1000 10) newBatcher)) = []
  /\ List.concat (delivered
               (advanceBatch 2000
                  (runBatch 50 3 (callsEvery 5 1000 10) newBatcher)))
     = [1000; 1010; 1020; 1030; 1040].
Proof.
  apply (X19_batch_delivers_within_delay 50 3
           (callsEvery 5 1000 10) 1000 0 2000).
  - simpl. repeat split; lia.
  - simpl. lia.
Defined.

Example batch_five_items_three_at_a_time :
  delivered (advanceBatch 2000
               (runBatch 50 3 (callsEvery 5 1000 10) newBatcher))
  = [[1000; 1010; 1020]; [1030; 1040]].
Proof. vm_compute. reflexivity. Qed.

(** *** [simpleDebounce] *)

Section SimpleDebounce.
Context {A : Type}.
Variable delay : Z.

(** The live time-out, with its due time and the arguments its callback
    holds, and a log of the calls of the wrapped function.  [timeoutId]
    stays set once its time-out has run, and clearing it then does
    nothing. *)
Record SimpleDebounced : Type := mkSimpleDebounced {
  liveTimeout : option (Z * A);
  debouncedLog : list (Z * A)
}.

Definition newSimpleDebounced : SimpleDebounced :=
  mkSimpleDebounced None [].

Definition advanceSimple (t : Z) (st : SimpleDebounced) : SimpleDebounced :=
  match liveTimeout st with
  | Some (due, args) =>
      if due <=? t
      then mkSimpleDebounced None (debouncedLog st ++ [(due, args)])
      else st
  | None => st
  end.

(** The returned function, called with [args] at clock value [t]: the
    time-out that is still live is cleared and a new one set. *)
Definition simpleDebounced (args : A) (t : Z) (st : SimpleDebounced)
    : SimpleDebounced :=
  let st0 := advanceSimple t st in
  mkSimpleDebounced (Some (t + timeoutDelay (Some delay), args))
                    (debouncedLog st0).

Definition runSimple (l : list (Z * A)) (st : SimpleDebounced)
    : SimpleDebounced :=
  fold_left (fun s x => simpleDebounced (snd x) (fst x) s) l st.

(** The calls that no other call follows before their time-out is due,
    each with that due time: [delay] after the call, or 1 ms after it when
    [delay] is not a delay from 1 to [TIMEOUT_MAX]. *)
Fixpoint unsuperseded (l : list (Z * A)) : list (Z * A) :=
  match l with
  | [] => []
  | (t, a) :: rest =>
      match rest with
      | [] => [(t + timeoutDelay (Some delay), a)]
      | (t', _) :: _ =>
          if t + timeoutDelay (Some delay) <=? t'
          then (t + timeoutDelay (Some delay), a) :: unsuperseded rest
          else unsuperseded rest
      end
  end.

Lemma runSimple_log l :
  forall t a st T,
    liveTimeout st = Some (t + timeoutDelay (Some delay), a) ->
    fst (last l (t, a)) + timeoutDelay (Some delay) <= T ->
    debouncedLog (advanceSimple T (runSimple l st))
    = (debouncedLog st ++ unsuperseded ((t, a) :: l))%list.
Proof.
  induction l as [|[t' a'] l IH]; intros t a st T Hlive HT.
  - cbn [last fst] in HT. change (runSimple [] st) with st.
    unfold advanceSimple. rewrite Hlive.
    replace (t + timeoutDelay (Some delay) <=? T) with true
      by (symmetry; apply Z.leb_le; lia).
    reflexivity.
  - rewrite last_cons in HT.
    change (runSimple ((t', a') :: l) st)
      with (runSimple l (simpleDebounced a' t' st)).
    rewrite (IH t' a' (simpleDebounced a' t' st) T eq_refl HT).
    change (unsuperseded ((t, a) :: (t', a') :: l))
      with (if t + timeoutDelay (Some delay) <=? t'
            then (t + timeoutDelay (Some delay), a) :: unsuperseded ((t', a') :: l)
            else unsuperseded ((t', a') :: l)).
    unfold simpleDebounced, advanceSimple. rewrite Hlive. cbn [debouncedLog].
    destruct (t + timeoutDelay (Some delay) <=? t'); cbn [debouncedLog].
    + now rewrite <- app_assoc.
    + reflexivity.
Qed.

(** X20: the wrapped function is called for exactly those calls that no
    other call follows before their time-out is due, once each, with the
    arguments of that call, at that due time; a call followed sooner is
    dropped.  The time-out is due [delay] after the call, and 1 ms after
    it when [delay] is below 1 or above the longest delay of a timer,
    2147483647. *)
Theorem X20_simpleDebounce_runs_unsuperseded_calls :
  forall (l : list (Z * A)) (t0 : Z) (a0 : A) (T : Z),
    fst (last l (t0, a0)) + timeoutDelay (Some delay) <= T ->
    debouncedLog (advanceSimple T (runSimple l newSimpleDebounced))
    = unsuperseded l.
Proof.
  intros [|[t a] l] t0 a0 T HT; [reflexivity|].
  rewrite last_cons in HT.
  change (runSimple ((t, a) :: l) newSimpleDebounced)
    with (runSimple l (simpleDebounced a t newSimpleDebounced)).
  now rewrite (runSimple_log l t a (simpleDebounced a t newSimpleDebounced)
                 T eq_refl HT).
Qed.

End SimpleDebounce.

Lemma X20_burst_then_pause :
  debouncedLog
    (advanceSimple 5000
       (runSimple 100 [(1000, 1); (1030, 2); (1060, 3); (1400, 4)]
                  newSimpleDebounced))
  = [(1160, 3); (1500, 4)].
Proof.
  apply (X20_simpleDebounce_runs_unsuperseded_calls 100
           [(1000, 1); (1030, 2); (1060, 3); (1400, 4)] 0 0 5000).
  simpl. lia.
Defined.

(** A delay beyond the range of a timer is taken as 1 ms. *)
Example simpleDebounce_beyond_timer_range :
  debouncedLog
    (advanceSimple 5000 (runSimple 2147483648 [(1000, 1)] newSimpleDebounced))
  = [(1001, 1)].
Proof. vm_compute. reflexivity. Qed.

(** *** [simpleThrottle] *)

Section SimpleThrottle.
Context {A : Type}.
Variable limit : Z.

(** The closure's [inThrottle], the due time of the time-out that resets
    it while one is live, and a log of the calls of the wrapped
    function. *)
Record SimpleThrottled : Type := mkSimpleThrottled {
  inThrottle : bool;
  resetDue : option Z;
  throttledLog : list (Z * A)
}.

Definition newSimpleThrottled : SimpleThrottled :=
  mkSimpleThrottled false None [].

Definition advanceThrottle (t : Z) (st : SimpleThrottled)
    : SimpleThrottled :=
  match resetDue st with
  | Some due =>
      if due <=? t then mkSimpleThrottled false None (throttledLog st)
      else st
  | None => st
  end.

(** The returned function, called with [args] at clock value [t]. *)
Definition simpleThrottled (args : A) (t : Z) (st : SimpleThrottled)
    : SimpleThrottled :=
  let st0 := advanceThrottle t st in
  if negb (inThrottle st0)
  then mkSimpleThrottled true (Some (t + timeoutDelay (Some limit)))
                         (throttledLog st0 ++ [(t, args)])
  else st0.

Definition runThrottled (l : list (Z * A)) (st : SimpleThrottled)
    : SimpleThrottled :=
  fold_left (fun s x => simpleThrottled (snd x) (fst x) s) l st.

(** What holds once the call at clock value [c] is done: while throttled,
    the time-out is due its delay after the last call passed on, which is
    the latest; otherwise every call passed on is at least that far
    back. *)
Definition throttleInv (c : Z) (st : SimpleThrottled) : Prop :=
  match resetDue st with
  | Some due =>
      inThrottle st = true
      /\ (forall x, In x (throttledLog st) -> fst x + timeoutDelay (Some limit) <= due)
      /\ exists a, In (due - timeoutDelay (Some limit), a) (throttledLog st)
  | None =>
      inThrottle st = false
      /\ forall x, In x (throttledLog st) -> fst x + timeoutDelay (Some limit) <= c
  end.

(** No call was passed on during the delay of the time-out before [now]:
    [limit], or 1 ms when [limit] is not a delay from 1 to
    [TIMEOUT_MAX]. *)
Definition quietBefore (now : Z) (log : list (Z * A)) : bool :=
  forallb (fun x => fst x + timeoutDelay (Some limit) <=? now) log.

Lemma throttleInv_step c now args st :
  throttleInv c st -> c <= now ->
  throttleInv now (simpleThrottled args now st)
  /\ throttledLog (simpleThrottled args now st)
     = (throttledLog st
        ++ (if quietBefore now (throttledLog st) then [(now, args)]
            else []))%list.
Proof.
  intros Hi Hle.
  assert (Hpos := timeoutDelay_pos (Some limit)).
  assert (Hnew : forall log,
            (forall x, In x log -> fst x + timeoutDelay (Some limit) <= now) ->
            throttleInv now
              (mkSimpleThrottled true (Some (now + timeoutDelay (Some limit)))
                                 (log ++ [(now, args)]))
            /\ quietBefore now log = true).
  { intros log Hq. split.
    - unfold throttleInv. cbn [resetDue inThrottle throttledLog].
      split; [reflexivity|]. split.
      + intros x Hx. apply in_app_or in Hx.
        destruct Hx as [Hx | [<- | []]];
          [specialize (Hq x Hx); lia | cbn [fst]; lia].
      + exists args. apply in_or_app. right. left. f_equal. lia.
    - unfold quietBefore. apply forallb_forall. intros x Hx.
      apply Z.leb_le. now apply Hq. }
  unfold simpleThrottled, advanceThrottle, throttleInv in *.
  destruct (resetDue st) as [due|] eqn:Ed.
  - destruct Hi as (Hin & Hall & a & Ha).
    destruct (due <=? now) eqn:Efire.
    + apply Z.leb_le in Efire. cbn [resetDue inThrottle throttledLog negb].
      destruct (Hnew (throttledLog st)) as [H1 H2].
      { intros x Hx. specialize (Hall x Hx). lia. }
      rewrite H2. split; [exact H1 | reflexivity].
    + apply Z.leb_gt in Efire. rewrite Hin.
      cbn [resetDue inThrottle throttledLog negb]. rewrite Ed.
      assert (Hq : quietBefore now (throttledLog st) = false).
      { unfold quietBefore. apply not_true_is_false. intros Hq.
        rewrite forallb_forall in Hq. specialize (Hq _ Ha).
        apply Z.leb_le in Hq. cbn [fst] in Hq. lia. }
      rewrite Hq, app_nil_r. split; [|reflexivity].
      split; [exact Hin|]. split; [exact Hall | now exists a].
  - destruct Hi as (Hin & Hall). rewrite Hin.
    cbn [resetDue inThrottle throttledLog negb].
    destruct (Hnew (throttledLog st)) as [H1 H2].
    { intros x Hx. specialize (Hall x Hx). lia. }
    rewrite H2. split; [exact H1 | reflexivity].
Qed.

Lemma throttleInv_run l :
  forall c st,
    throttleInv c st -> ascending c l ->
    exists c', throttleInv c' (runThrottled l st)
               /\ forall now args, ascending c (l ++ [(now, args)]) ->
                                   c' <= now.
Proof.
  induction l as [|[t a] l IH]; intros c st Hi Ha.
  - exists c. split; [exact Hi|].
    intros now args H. simpl in H. tauto.
  - destruct Ha as [Hct Ha].
    destruct (IH t _ (proj1 (throttleInv_step c t a st Hi Hct)) Ha)
      as (c' & Hi' & Hnext).
    exists c'. split; [exact Hi'|].
    intros now args H. simpl in H. destruct H as [_ H].
    now apply (Hnext now args).
Qed.

(** X21: when call times never go back, a call is passed on to the
    wrapped function exactly when no call was passed on during the delay
    of the time-out before it, so two calls passed on are never closer
    than that; any other call is dropped.  That delay is [limit], and
    1 ms when [limit] is below 1 or above the longest delay of a timer,
    2147483647. *)
Theorem X21_simpleThrottle_keeps_calls_apart :
  forall (l : list (Z * A)) (c now : Z) (args : A),
    ascending c (l ++ [(now, args)]) ->
    let st := runThrottled l newSimpleThrottled in
    throttledLog (simpleThrottled args now st)
    = (throttledLog st
       ++ (if quietBefore now (throttledLog st) then [(now, args)]
           else []))%list.
Proof.
  intros l c now args Ha st.
  assert (Hl : ascending c l) by (apply ascending_app in Ha; tauto).
  assert (H0 : throttleInv c newSimpleThrottled).
  { unfold throttleInv. simpl. split; [reflexivity | intros x []]. }
  destruct (throttleInv_run l c _ H0 Hl) as (c' & Hi & Hnext).
  exact (proj2 (throttleInv_step c' now args st Hi (Hnext now args Ha))).
Qed.

End SimpleThrottle.

Lemma X21_call_within_limit_dropped :
  throttledLog
    (simpleThrottled 100 4 1150
       (runThrottled 100 [(1000, 1); (1050, 2); (1100, 3)]
                     newSimpleThrottled))
  = [(1000, 1); (1100, 3)].
Proof.
  apply (X21_simpleThrottle_keeps_calls_apart 100
           [(1000, 1); (1050, 2); (1100, 3)] 1000 1150 4).
  simpl. repeat split; lia.
Defined.

(** With a limit beyond the range of a timer the throttle reopens after
    1 ms, and calls 10 ms apart all pass. *)
Example simpleThrottle_beyond_timer_range :
  throttledLog
    (runThrottled 2147483648 [(1000, 1); (1010, 2); (1020, 3)]
                  newSimpleThrottled)
  = [(1000, 1); (1010, 2); (1020, 3)].
Proof. vm_compute. reflexivity. Qed.

End DebounceUtils.

(** ** JavaScript strings

    A string is its sequence of bytes (UTF-8 for the non-ASCII text of the
    messages).  [trim] and [toLowerCase] act on the ASCII range. *)

Module JsString.
Local Open Scope string_scope.

Definition dquote : string := String (ascii_of_nat 34) EmptyString.

(** The characters that [String.prototype.trim] strips are the white
    space and the line terminators of ECMAScript.  Those of one byte:
    U+0009 to U+000D and U+0020. *)
Definition isWhitespace (c : ascii) : bool :=
  let n := nat_of_ascii c in
  ((n =? 32) || ((9 <=? n) && (n <=? 13)))%nat.

(** Of two bytes: U+00A0, that is [C2 A0]. *)
Definition isWhitespace2 (c1 c2 : ascii) : bool :=
  ((nat_of_ascii c1 =? 194) && (nat_of_ascii c2 =? 160))%nat.

(** Of three bytes: U+1680 [E1 9A 80]; U+2000 to U+200A, U+2028, U+2029
    and U+202F [E2 80 80..8A, A8, A9, AF]; U+205F [E2 81 9F]; U+3000
    [E3 80 80]; U+FEFF [EF BB BF]. *)
Definition isWhitespace3 (c1 c2 c3 : ascii) : bool :=
  let n1 := nat_of_ascii c1 in
  let n2 := nat_of_ascii c2 in
  let n3 := nat_of_ascii c3 in
  (((n1 =? 225) && (n2 =? 154) && (n3 =? 128))
   || ((n1 =? 226) && (n2 =? 128)
       && (((128 <=? n3) && (n3 <=? 138))
           || (n3 =? 168) || (n3 =? 169) || (n3 =? 175)))
   || ((n1 =? 226) && (n2 =? 129) && (n3 =? 159))
   || ((n1 =? 227) && (n2 =? 128) && (n3 =? 128))
   || ((n1 =? 239) && (n2 =? 187) && (n3 =? 191)))%nat.

(** Strip the white space that [s] starts with.  With [backwards] the
    bytes of [s] are read as those of a reversed string, so that the bytes
    of a character come last byte first. *)
Fixpoint stripWhitespace (backwards : bool) (s : string) : string :=
  match s with
  | EmptyString => EmptyString
  | String c1 r1 =>
      if isWhitespace c1 then stripWhitespace backwards r1
      else
        match r1 with
        | EmptyString => s
        | String c2 r2 =>
            if (if backwards then isWhitespace2 c2 c1
                else isWhitespace2 c1 c2)
            then stripWhitespace backwards r2
            else
              match r2 with
              | EmptyString => s
              | String c3 r3 =>
                  if (if backwards then isWhitespace3 c3 c2 c1
                      else isWhitespace3 c1 c2 c3)
                  then stripWhitespace backwards r3
                  else s
              end
        end
  end.

Definition trimStart (s : string) : string := stripWhitespace false s.

Definition reverse (s : string) : string :=
  string_of_list_ascii (List.rev (list_ascii_of_string s)).

Definition trimEnd (s : string) : string :=
  reverse (stripWhitespace true (reverse s)).

Definition trim (s : string) : string := trimEnd (trimStart s).

(** [!s || s.trim() === ''] *)
Definition isBlank (s : string) : bool :=
  String.eqb s "" || String.eqb (trim s) "".

(** A no-break space, a byte-order mark and an ideographic space are
    stripped like a blank; the text between them is kept, white space
    inside it included. *)
Example trim_unicode_spaces :
  trim (" " ++ String (ascii_of_nat 194) (String (ascii_of_nat 160) "")
        ++ "a b"
        ++ String (ascii_of_nat 239)
             (String (ascii_of_nat 187) (String (ascii_of_nat 191) ""))
        ++ String (ascii_of_nat 227)
             (String (ascii_of_nat 128) (String (ascii_of_nat 128) "")))
  = "a b"
  /\ isBlank (String (ascii_of_nat 194) (String (ascii_of_nat 160) ""))
     = true
  /\ isBlank (String (ascii_of_nat 226)
                (String (ascii_of_nat 128) (String (ascii_of_nat 168) "")))
     = true
  /\ isBlank (String (ascii_of_nat 194) (String (ascii_of_nat 133) ""))
     = false.
Proof. vm_compute. repeat split; reflexivity. Qed.

Fixpoint includes (needle hay : string) : bool :=
  if String.prefix needle hay then true
  else match hay with
       | EmptyString => false
       | String _ r => includes needle r
       end.

(** [s.replace(/c/g, by)] for a one-character pattern. *)
Fixpoint replaceAll (c : ascii) (by_ : string) (s : string) : string :=
  match s with
  | EmptyString => EmptyString
  | String x r =>
      if Ascii.eqb x c then by_ ++ replaceAll c by_ r
      else String x (replaceAll c by_ r)
  end.

Definition lowerChar (c : ascii) : ascii :=
  let n := nat_of_ascii c in
  if ((65 <=? n) && (n <=? 90))%nat then ascii_of_nat (n + 32) else c.

Fixpoint toLowerCase (s : string) : string :=
  match s with
  | EmptyString => EmptyString
  | String c r => String (lowerChar c) (toLowerCase r)
  end.

(** The decimal text of an integer, as a template literal prints it: all
    the digits, which is what JavaScript prints for a magnitude below
    [1e21]. *)
Definition ofNumber (z : Z) : string :=
  DecimalString.NilZero.string_of_int (Z.to_int z).

End JsString.

(** ** Editor registry ([configManager.ts])

    The registry is the value of the setting [quickai.editors]: an ordered
    list of editor records.  [getEditors] hands out a copy, so a method
    that fails before [updateConfiguration] leaves the stored list as it
    was; [updateConfiguration] is taken to succeed.  The identifier that
    [uuidv4()] returns is an argument of [addEditor]. *)

Module ConfigManager.
Local Open Scope string_scope.

Inductive EditorType : Type :=
  IDEA | PYCHARM | WEBSTORM | JETBRAINS | VSCODE | CUSTOM.

Inductive JumpMode : Type := JumpIDEA | JumpVSCODE.

Record EditorConfig : Type := mkEditor {
  id : string;
  name : string;
  path : string;
  isDefault : bool;
  type : option EditorType;
  jumpMode : option JumpMode;
  createdAt : Z;
  updatedAt : Z
}.

(** [Omit<EditorConfig, 'id' | 'createdAt' | 'updatedAt'>] *)
Record NewEditor : Type := mkNewEditor {
  newName : string;
  newPath : string;
  newIsDefault : bool;
  newType : option EditorType;
  newJumpMode : option JumpMode
}.

(** [Partial<Omit<EditorConfig, 'id' | 'createdAt'>>] *)
Record Updates : Type := mkUpdates {
  updName : option string;
  updPath : option string;
  updIsDefault : option bool;
  updType : option EditorType;
  updJumpMode : option JumpMode;
  updUpdatedAt : option Z
}.

Definition withDefault (b : bool) (e : EditorConfig) : EditorConfig :=
  mkEditor (id e) (name e) (path e) b (type e) (jumpMode e)
           (createdAt e) (updatedAt e).

(** [validateEditorConfig(config).isValid] *)
Definition validateEditorConfig (name_ path_ : string) : bool :=
  negb (JsString.isBlank name_) && negb (JsString.isBlank path_).

Definition detectEditorType (editorPath : string) : EditorType :=
  let p := JsString.toLowerCase editorPath in
  if JsString.includes "idea" p then IDEA
  else if JsString.includes "pycharm" p then PYCHARM
  else if JsString.includes "webstorm" p then WEBSTORM
  else if JsString.includes "jetbrains" p then JETBRAINS
  else CUSTOM.

Definition addEditor (editorConfig : NewEditor) (uuid : string) (now : Z)
    (stored : list EditorConfig) : option EditorConfig * list EditorConfig :=
  if negb (validateEditorConfig (newName editorConfig) (newPath editorConfig))
  then (None, stored)
  else
    let editors := stored in
    if existsb (fun e => String.eqb (path e) (newPath editorConfig)) editors
    then (None, stored)
    else
      let editors1 :=
        if newIsDefault editorConfig then map (withDefault false) editors
        else editors in
      let shouldBeDefault :=
        match editors with
        | [] => true
        | _ :: _ => newIsDefault editorConfig
        end in
      let newEditor :=
        mkEditor uuid (newName editorConfig) (newPath editorConfig)
                 shouldBeDefault
                 (match newType editorConfig with
                  | Some ty => Some ty
                  | None => Some (detectEditorType (newPath editorConfig))
                  end)
                 None now now in
      (Some newEditor, (editors1 ++ [newEditor])%list).

(** [editors.findIndex(editor => editor.id === editorId)] *)
Fixpoint findIndex (editorId : string) (l : list EditorConfig) : option nat :=
  match l with
  | [] => None
  | e :: r =>
      if String.eqb (id e) editorId then Some O
      else option_map S (findIndex editorId r)
  end.

Definition orElse {X : Type} (o : option X) (d : X) : X :=
  match o with Some x => x | None => d end.

Definition orKeep {X : Type} (o : option X) (d : option X) : option X :=
  match o with Some x => Some x | None => d end.

(** [{ ...originalEditor, ...updates, id, createdAt, updatedAt: now }] *)
Definition applyUpdates (originalEditor : EditorConfig) (updates : Updates)
    (now : Z) : EditorConfig :=
  mkEditor (id originalEditor)
           (orElse (updName updates) (name originalEditor))
           (orElse (updPath updates) (path originalEditor))
           (orElse (updIsDefault updates) (isDefault originalEditor))
           (orKeep (updType updates) (type originalEditor))
           (orKeep (updJumpMode updates) (jumpMode originalEditor))
           (createdAt originalEditor)
           now.

(** The list with every entry but the one at [keep] made non-default. *)
Fixpoint clearOthers (keep : nat) (l : list EditorConfig)
    : list EditorConfig :=
  match l with
  | [] => []
  | e :: r =>
      match keep with
      | O => e :: map (withDefault false) r
      | S k => withDefault false e :: clearOthers k r
      end
  end.

(** [editors[index] = value] for an index within the list. *)
Fixpoint assign (index : nat) (value : EditorConfig) (l : list EditorConfig)
    : list EditorConfig :=
  match l with
  | [] => []
  | e :: r =>
      match index with
      | O => value :: r
      | S k => e :: assign k value r
      end
  end.

Definition updateEditor (editorId : string) (updates : Updates) (now : Z)
    (stored : list EditorConfig) : bool * list EditorConfig :=
  let editors := stored in
  match findIndex editorId editors with
  | None => (false, stored)
  | Some editorIndex =>
      match nth_error editors editorIndex with
      | None => (false, stored)
      | Some originalEditor =>
          let updatedEditor := applyUpdates originalEditor updates now in
          if negb (validateEditorConfig (name updatedEditor)
                                        (path updatedEditor))
          then (false, stored)
          else
            let editors1 :=
              if isDefault updatedEditor && negb (isDefault originalEditor)
              then clearOthers editorIndex editors
              else editors in
            (true, assign editorIndex updatedEditor editors1)
      end
  end.

Definition deleteEditor (editorId : string) (stored : list EditorConfig)
    : bool * list EditorConfig :=
  let editors := stored in
  match findIndex editorId editors with
  | None => (false, stored)
  | Some editorIndex =>
      match nth_error editors editorIndex with
      | None => (false, stored)
      | Some deletedEditor =>
          let updatedEditors :=
            filter (fun e => negb (String.eqb (id e) editorId)) editors in
          let updatedEditors1 :=
            match updatedEditors with
            | first :: r =>
                if isDefault deletedEditor
                then withDefault true first :: r
                else updatedEditors
            | [] => updatedEditors
            end in
          (true, updatedEditors1)
      end
  end.

Definition setDefaultEditor (editorId : string) (now : Z)
    (stored : list EditorConfig) : bool * list EditorConfig :=
  let editors :=
    map (fun e =>
           if String.eqb (id e) editorId
           then mkEditor (id e) (name e) (path e) true (type e) (jumpMode e)
                         (createdAt e) now
           else withDefault false e)
        stored in
  if existsb (fun e => String.eqb (id e) editorId) stored
  then (true, editors)
  else (false, stored).

Definition getDefaultEditor (stored : list EditorConfig)
    : option EditorConfig :=
  find isDefault stored.

(** The operations that write the registry. *)
Inductive Operation : Type :=
| OpAdd (editorConfig : NewEditor) (uuid : string) (now : Z)
| OpUpdate (editorId : string) (updates : Updates) (now : Z)
| OpDelete (editorId : string)
| OpSetDefault (editorId : string) (now : Z).

Definition apply (op : Operation) (stored : list EditorConfig)
    : list EditorConfig :=
  match op with
  | OpAdd c u now => snd (addEditor c u now stored)
  | OpUpdate i u now => snd (updateEditor i u now stored)
  | OpDelete i => snd (deleteEditor i stored)
  | OpSetDefault i now => snd (setDefaultEditor i now stored)
  end.

Definition applyAll (ops : list Operation) (stored : list EditorConfig)
    : list EditorConfig :=
  fold_left (fun s op => apply op s) ops stored.

Definition countDefault (l : list EditorConfig) : nat :=
  List.length (filter isDefault l).

(** *** The default-editor invariant *)

Definition ids (l : list EditorConfig) : list string := map id l.

(** Identifiers are distinct, and a non-empty registry has exactly one
    default editor. *)
Definition wellDefaulted (l : list EditorConfig) : Prop :=
  NoDup (ids l) /\ (l <> [] -> countDefault l = 1%nat).

(** An [updateEditor] that reaches the current default with a merged
    record whose flag is off. *)
Definition clearsDefault (op : Operation) (stored : list EditorConfig)
    : bool :=
  match op with
  | OpUpdate i u _ =>
      match findIndex i stored with
      | Some k =>
          match nth_error stored k with
          | Some e => isDefault e && negb (orElse (updIsDefault u) (isDefault e))
          | None => false
          end
      | None => false
      end
  | _ => false
  end.

(** [uuidv4()] returns an identifier that is not in use. *)
Definition freshUuid (op : Operation) (stored : list EditorConfig) : Prop :=
  match op with
  | OpAdd _ u _ => ~ In u (ids stored)
  | _ => True
  end.

Fixpoint admissible (ops : list Operation) (stored : list EditorConfig)
    : Prop :=
  match ops with
  | [] => True
  | op :: r =>
      freshUuid op stored /\ clearsDefault op stored = false
      /\ admissible r (apply op stored)
  end.

Lemma countDefault_app l l' :
  countDefault (l ++ l') = (countDefault l + countDefault l')%nat.
Proof.
  unfold countDefault. rewrite filter_app. apply List.length_app.
Qed.

Lemma countDefault_cons e l :
  countDefault (e :: l)
  = ((if isDefault e then 1 else 0) + countDefault l)%nat.
Proof. unfold countDefault. simpl. now destruct (isDefault e). Qed.

Lemma countDefault_cleared l : countDefault (map (withDefault false) l) = 0%nat.
Proof.
  induction l as [|e r IH]; [reflexivity|].
  simpl. rewrite countDefault_cons. simpl. exact IH.
Qed.

Lemma ids_withDefault b l : ids (map (withDefault b) l) = ids l.
Proof. unfold ids. rewrite map_map. reflexivity. Qed.

(** Where [findIndex] finds the identifier, the list splits around the
    entry, and with distinct identifiers no other entry carries it. *)
Lemma findIndex_split i l k :
  NoDup (ids l) -> findIndex i l = Some k ->
  exists l1 e l2,
    l = (l1 ++ e :: l2)%list /\ List.length l1 = k /\ id e = i
    /\ nth_error l k = Some e
    /\ (forall x, In x l1 -> String.eqb (id x) i = false)
    /\ (forall x, In x l2 -> String.eqb (id x) i = false).
Proof.
  revert k. induction l as [|a r IH]; intros k Hnd; simpl; [discriminate|].
  inversion Hnd as [|? ? Hna Hr]; subst.
  destruct (String.eqb (id a) i) eqn:E.
  - intros [= <-]. apply String.eqb_eq in E.
    exists [], a, r. repeat split; try assumption; try reflexivity.
    + intros x [].
    + intros x Hx. apply String.eqb_neq. intros Hxi. apply Hna.
      unfold ids. rewrite <- E in Hxi. rewrite <- Hxi. now apply in_map.
  - destruct (findIndex i r) as [k'|] eqn:Ef; [|discriminate].
    intros [= <-].
    destruct (IH k' Hr eq_refl) as (l1 & e & l2 & -> & Hlen & Hid & Hnth & H1 & H2).
    exists (a :: l1), e, l2. simpl. repeat split; try assumption.
    + now rewrite Hlen.
    + intros x [<- | Hx]; [exact E | now apply H1].
Qed.

Lemma findIndex_None i l :
  findIndex i l = None -> forall x, In x l -> String.eqb (id x) i = false.
Proof.
  induction l as [|a r IH]; simpl; [intros _ x []|].
  destruct (String.eqb (id a) i) eqn:E; [discriminate|].
  destruct (findIndex i r); [discriminate|].
  intros _ x [<- | Hx]; [exact E | now apply IH].
Qed.

Lemma filter_keep_all (f : EditorConfig -> bool) l :
  (forall x, In x l -> f x = true) -> filter f l = l.
Proof.
  induction l as [|a r IH]; simpl; [reflexivity|].
  intros H. rewrite (H a (or_introl eq_refl)). f_equal. apply IH.
  intros x Hx. apply H. now right.
Qed.

Lemma map_ext_on (f g : EditorConfig -> EditorConfig) l :
  (forall x, In x l -> f x = g x) -> map f l = map g l.
Proof.
  induction l as [|a r IH]; simpl; [reflexivity|].
  intros H. rewrite (H a (or_introl eq_refl)). f_equal. apply IH.
  intros x Hx. apply H. now right.
Qed.

Lemma clearOthers_split l1 e l2 :
  clearOthers (List.length l1) (l1 ++ e :: l2)
  = (map (withDefault false) l1 ++ e :: map (withDefault false) l2)%list.
Proof. induction l1 as [|a r IH]; simpl; [reflexivity | now rewrite IH]. Qed.

Lemma assign_split l1 e l2 v :
  assign (List.length l1) v (l1 ++ e :: l2) = (l1 ++ v :: l2)%list.
Proof. induction l1 as [|a r IH]; simpl; [reflexivity | now rewrite IH]. Qed.

Lemma ids_app l l' : ids (l ++ l') = (ids l ++ ids l')%list.
Proof. unfold ids. apply map_app. Qed.

Lemma wellDefaulted_add c u now l :
  wellDefaulted l -> ~ In u (ids l) ->
  wellDefaulted (snd (addEditor c u now l)).
Proof.
  intros [Hnd Hone] Hfresh. unfold addEditor.
  destruct (negb (validateEditorConfig (newName c) (newPath c)));
    [now split|].
  destruct (existsb _ l); [now split|]. simpl.
  split.
  - rewrite ids_app. simpl.
    assert (Hids : ids (if newIsDefault c then map (withDefault false) l else l)
                   = ids l).
    { destruct (newIsDefault c); [apply ids_withDefault | reflexivity]. }
    rewrite Hids. apply NoDup_app; [exact Hnd | | ].
    + constructor; [intros [] | constructor].
    + intros x Hx [<- | []]. now apply Hfresh.
  - intros _. rewrite countDefault_app, countDefault_cons. simpl.
    destruct l as [|a r].
    + destruct (newIsDefault c); reflexivity.
    + specialize (Hone ltac:(discriminate)).
      destruct (newIsDefault c).
      * now rewrite countDefault_cleared.
      * rewrite Hone. reflexivity.
Qed.

Lemma wellDefaulted_delete i l :
  wellDefaulted l -> wellDefaulted (snd (deleteEditor i l)).
Proof.
  intros [Hnd Hone]. unfold deleteEditor.
  destruct (findIndex i l) as [k|] eqn:Ef; [|now split].
  destruct (findIndex_split i l k Hnd Ef)
    as (l1 & e & l2 & -> & Hlen & Hid & Hnth & H1 & H2).
  rewrite Hnth. subst i.
  assert (Hfil : filter (fun x => negb (String.eqb (id x) (id e)))
                   (l1 ++ e :: l2)
                 = (l1 ++ l2)%list).
  { rewrite filter_app. simpl. rewrite String.eqb_refl. simpl.
    rewrite !filter_keep_all; [reflexivity | |];
      intros x Hx; [rewrite (H2 x Hx) | rewrite (H1 x Hx)]; reflexivity. }
  rewrite Hfil.
  specialize (Hone ltac:(destruct l1; discriminate)).
  rewrite countDefault_app, countDefault_cons in Hone.
  assert (Hnd' : NoDup (ids (l1 ++ l2))).
  { rewrite ids_app in *. simpl in Hnd. now apply NoDup_remove_1 in Hnd. }
  simpl. destruct (l1 ++ l2)%list as [|first r] eqn:El.
  - split; [constructor | congruence].
  - assert (Hc : (countDefault l1 + countDefault l2
                  = countDefault (first :: r))%nat)
      by now rewrite <- El, countDefault_app.
    rewrite countDefault_cons in Hc.
    destruct (isDefault e).
    + split; [exact Hnd'|]. intros _.
      rewrite countDefault_cons. simpl.
      destruct (isDefault first); simpl in *; lia.
    + split; [exact Hnd'|]. intros _.
      rewrite countDefault_cons. simpl in *. lia.
Qed.

Lemma wellDefaulted_setDefault i now l :
  wellDefaulted l -> wellDefaulted (snd (setDefaultEditor i now l)).
Proof.
  intros [Hnd Hone]. unfold setDefaultEditor.
  destruct (existsb (fun e => String.eqb (id e) i) l) eqn:Ex; [|now split].
  simpl.
  assert (Hfound : exists k, findIndex i l = Some k).
  { destruct (findIndex i l) as [k|] eqn:Ef; [now exists k|].
    apply existsb_exists in Ex. destruct Ex as (x & Hx & Hxi).
    rewrite (findIndex_None i l Ef x Hx) in Hxi. discriminate. }
  destruct Hfound as [k Ef].
  destruct (findIndex_split i l k Hnd Ef)
    as (l1 & e & l2 & -> & Hlen & Hid & Hnth & H1 & H2).
  set (f := fun e0 : EditorConfig =>
              if String.eqb (id e0) i
              then mkEditor (id e0) (name e0) (path e0) true (type e0)
                            (jumpMode e0) (createdAt e0) now
              else withDefault false e0).
  assert (Hids : ids (map f (l1 ++ e :: l2)) = ids (l1 ++ e :: l2)).
  { unfold ids. rewrite map_map. apply map_ext. intros x. unfold f.
    destruct (String.eqb (id x) i); reflexivity. }
  split; [now rewrite Hids|]. intros _.
  rewrite map_app. simpl.
  rewrite (map_ext_on f (withDefault false) l1)
    by (intros x Hx; unfold f; now rewrite (H1 x Hx)).
  rewrite (map_ext_on f (withDefault false) l2)
    by (intros x Hx; unfold f; now rewrite (H2 x Hx)).
  rewrite countDefault_app, countDefault_cons, !countDefault_cleared.
  unfold f. subst i. rewrite String.eqb_refl. reflexivity.
Qed.

Lemma wellDefaulted_update i u now l :
  wellDefaulted l -> clearsDefault (OpUpdate i u now) l = false ->
  wellDefaulted (snd (updateEditor i u now l)).
Proof.
  intros [Hnd Hone] Hclr. unfold updateEditor. simpl in Hclr.
  destruct (findIndex i l) as [k|] eqn:Ef; [|now split].
  destruct (findIndex_split i l k Hnd Ef)
    as (l1 & e & l2 & -> & Hlen & Hid & Hnth & H1 & H2).
  rewrite Hnth in *.
  destruct (negb (validateEditorConfig _ _)); [now split|].
  specialize (Hone ltac:(destruct l1; discriminate)).
  rewrite countDefault_app, countDefault_cons in Hone.
  cbn [applyUpdates isDefault] in *.
  set (upd := applyUpdates e u now).
  assert (Hidu : id upd = id e) by reflexivity.
  assert (Hupd : isDefault upd = orElse (updIsDefault u) (isDefault e))
    by reflexivity.
  clearbody upd.
  assert (Hids : forall m1 m2, ids m1 = ids l1 -> ids m2 = ids l2 ->
            NoDup (ids (m1 ++ upd :: m2))).
  { intros m1 m2 Hm1 Hm2. rewrite ids_app in *. simpl in *.
    now rewrite Hm1, Hm2, Hidu. }
  subst k. simpl. rewrite <- Hupd in *.
  destruct (isDefault upd) eqn:Enew;
    destruct (isDefault e) eqn:Eold; simpl in *; try discriminate.
  - rewrite assign_split. split; [now apply Hids|]. intros _.
    rewrite countDefault_app, countDefault_cons, Enew.
    exact Hone.
  - rewrite clearOthers_split.
    replace (List.length l1)
      with (List.length (map (withDefault false) l1))
      by apply List.length_map.
    rewrite assign_split. split.
    + apply Hids; apply ids_withDefault.
    + intros _. rewrite countDefault_app, countDefault_cons,
        !countDefault_cleared, Enew.
      reflexivity.
  - rewrite assign_split. split; [now apply Hids|]. intros _.
    rewrite countDefault_app, countDefault_cons, Enew.
    exact Hone.
Qed.

(** Every sequence of operations with fresh identifiers in which no update
    switches the current default off keeps the invariant. *)
Lemma wellDefaulted_applyAll ops :
  forall l, wellDefaulted l -> admissible ops l ->
            wellDefaulted (applyAll ops l).
Proof.
  induction ops as [|op r IH]; intros l Hl Hadm; [exact Hl|].
  destruct Hadm as (Hfresh & Hclr & Hadm).
  change (applyAll (op :: r) l) with (applyAll r (apply op l)).
  apply IH; [|exact Hadm].
  destruct op as [c u now | i u now | i | i now]; simpl.
  - now apply wellDefaulted_add.
  - now apply wellDefaulted_update.
  - now apply wellDefaulted_delete.
  - now apply wellDefaulted_setDefault.
Qed.

Lemma wellDefaulted_empty : wellDefaulted [].
Proof. split; [constructor | congruence]. Qed.

(** C2 at a registry of one editor: the first editor added becomes the
    default; an [updateEditor] of it with [isDefault: false] is stored as
    given, and the registry then holds one editor and no default.  The
    branch that keeps the flags consistent runs only when the flag is
    turned on. *)
Theorem C2_update_clears_only_default :
  let added := addEditor (mkNewEditor "IDEA" "/opt/idea/bin/idea" false
                            None None) "id-1" 1000 [] in
  let after := updateEditor "id-1"
                 (mkUpdates None None (Some false) None None None) 2000
                 (snd added) in
  countDefault (snd added) = 1%nat
  /\ fst after = true
  /\ List.length (snd after) = 1%nat
  /\ countDefault (snd after) = 0%nat
  /\ getDefaultEditor (snd after) = None.
Proof. vm_compute. repeat split; reflexivity. Qed.

(** *** What the operations keep *)

(** Identifiers are distinct and no two editors are default. *)
Definition atMostOneDefault (l : list EditorConfig) : Prop :=
  NoDup (ids l) /\ (countDefault l <= 1)%nat.

Fixpoint freshUuids (ops : list Operation) (stored : list EditorConfig)
    : Prop :=
  match ops with
  | [] => True
  | op :: r => freshUuid op stored /\ freshUuids r (apply op stored)
  end.

Lemma atMostOneDefault_add c u now l :
  atMostOneDefault l -> ~ In u (ids l) ->
  atMostOneDefault (snd (addEditor c u now l)).
Proof.
  intros [Hnd Hone] Hfresh. unfold addEditor.
  destruct (negb (validateEditorConfig (newName c) (newPath c)));
    [now split|].
  destruct (existsb _ l); [now split|]. simpl.
  split.
  - rewrite ids_app. simpl.
    assert (Hids : ids (if newIsDefault c then map (withDefault false) l else l)
                   = ids l).
    { destruct (newIsDefault c); [apply ids_withDefault | reflexivity]. }
    rewrite Hids. apply NoDup_app; [exact Hnd | | ].
    + constructor; [intros [] | constructor].
    + intros x Hx [<- | []]. now apply Hfresh.
  - rewrite countDefault_app, countDefault_cons. simpl.
    change (countDefault []) with 0%nat.
    destruct l as [|a r].
    + destruct (newIsDefault c); simpl; change (countDefault []) with 0%nat;
        lia.
    + destruct (newIsDefault c).
      * rewrite countDefault_cleared. lia.
      * lia.
Qed.

Lemma atMostOneDefault_delete i l :
  atMostOneDefault l -> atMostOneDefault (snd (deleteEditor i l)).
Proof.
  intros [Hnd Hone]. unfold deleteEditor.
  destruct (findIndex i l) as [k|] eqn:Ef; [|now split].
  destruct (findIndex_split i l k Hnd Ef)
    as (l1 & e & l2 & -> & Hlen & Hid & Hnth & H1 & H2).
  rewrite Hnth. subst i.
  assert (Hfil : filter (fun x => negb (String.eqb (id x) (id e)))
                   (l1 ++ e :: l2)
                 = (l1 ++ l2)%list).
  { rewrite filter_app. simpl. rewrite String.eqb_refl. simpl.
    rewrite !filter_keep_all; [reflexivity | |];
      intros x Hx; [rewrite (H2 x Hx) | rewrite (H1 x Hx)]; reflexivity. }
  rewrite Hfil.
  rewrite countDefault_app, countDefault_cons in Hone.
  assert (Hnd' : NoDup (ids (l1 ++ l2))).
  { rewrite ids_app in *. simpl in Hnd. now apply NoDup_remove_1 in Hnd. }
  simpl. destruct (l1 ++ l2)%list as [|first r] eqn:El.
  - split; [exact Hnd' | unfold countDefault; simpl; lia].
  - assert (Hc : (countDefault l1 + countDefault l2
                  = countDefault (first :: r))%nat)
      by now rewrite <- El, countDefault_app.
    rewrite countDefault_cons in Hc.
    destruct (isDefault e).
    + split; [exact Hnd'|].
      rewrite countDefault_cons. simpl.
      destruct (isDefault first); simpl in *; lia.
    + split; [exact Hnd'|].
      rewrite countDefault_cons. simpl in *. lia.
Qed.

Lemma setDefault_one i now l :
  NoDup (ids l) ->
  existsb (fun e => String.eqb (id e) i) l = true ->
  NoDup (ids (snd (setDefaultEditor i now l)))
  /\ countDefault (snd (setDefaultEditor i now l)) = 1%nat.
Proof.
  intros Hnd Ex. unfold setDefaultEditor. rewrite Ex. simpl.
  assert (Hfound : exists k, findIndex i l = Some k).
  { destruct (findIndex i l) as [k|] eqn:Ef; [now exists k|].
    apply existsb_exists in Ex. destruct Ex as (x & Hx & Hxi).
    rewrite (findIndex_None i l Ef x Hx) in Hxi. discriminate. }
  destruct Hfound as [k Ef].
  destruct (findIndex_split i l k Hnd Ef)
    as (l1 & e & l2 & -> & Hlen & Hid & Hnth & H1 & H2).
  set (f := fun e0 : EditorConfig =>
              if String.eqb (id e0) i
              then mkEditor (id e0) (name e0) (path e0) true (type e0)
                            (jumpMode e0) (createdAt e0) now
              else withDefault false e0).
  assert (Hids : ids (map f (l1 ++ e :: l2)) = ids (l1 ++ e :: l2)).
  { unfold ids. rewrite map_map. apply map_ext. intros x. unfold f.
    destruct (String.eqb (id x) i); reflexivity. }
  split; [now rewrite Hids|].
  rewrite map_app. simpl.
  rewrite (map_ext_on f (withDefault false) l1)
    by (intros x Hx; unfold f; now rewrite (H1 x Hx)).
  rewrite (map_ext_on f (withDefault false) l2)
    by (intros x Hx; unfold f; now rewrite (H2 x Hx)).
  rewrite countDefault_app, countDefault_cons, !countDefault_cleared.
  unfold f. subst i. rewrite String.eqb_refl. reflexivity.
Qed.

Lemma atMostOneDefault_setDefault i now l :
  atMostOneDefault l -> atMostOneDefault (snd (setDefaultEditor i now l)).
Proof.
  intros [Hnd Hone].
  destruct (existsb (fun e => String.eqb (id e) i) l) eqn:Ex.
  - destruct (setDefault_one i now l Hnd Ex) as [H1 H2].
    split; [exact H1 | lia].
  - unfold setDefaultEditor. rewrite Ex. now split.
Qed.

Lemma atMostOneDefault_update i u now l :
  atMostOneDefault l -> atMostOneDefault (snd (updateEditor i u now l)).
Proof.
  intros [Hnd Hone]. unfold updateEditor.
  destruct (findIndex i l) as [k|] eqn:Ef; [|now split].
  destruct (findIndex_split i l k Hnd Ef)
    as (l1 & e & l2 & -> & Hlen & Hid & Hnth & H1 & H2).
  rewrite Hnth in *.
  destruct (negb (validateEditorConfig _ _)); [now split|].
  rewrite countDefault_app, countDefault_cons in Hone.
  set (upd := applyUpdates e u now).
  assert (Hidu : id upd = id e) by reflexivity.
  clearbody upd.
  assert (Hids : forall m1 m2, ids m1 = ids l1 -> ids m2 = ids l2 ->
            NoDup (ids (m1 ++ upd :: m2))).
  { intros m1 m2 Hm1 Hm2. rewrite ids_app in *. simpl in *.
    now rewrite Hm1, Hm2, Hidu. }
  subst k. simpl.
  destruct (isDefault upd) eqn:Enew;
    destruct (isDefault e) eqn:Eold; simpl in *.
  - rewrite assign_split. split; [now apply Hids|].
    rewrite countDefault_app, countDefault_cons, Enew. exact Hone.
  - rewrite clearOthers_split.
    replace (List.length l1)
      with (List.length (map (withDefault false) l1))
      by apply List.length_map.
    rewrite assign_split. split.
    + apply Hids; apply ids_withDefault.
    + rewrite countDefault_app, countDefault_cons,
        !countDefault_cleared, Enew.
      simpl. lia.
  - rewrite assign_split. split; [now apply Hids|].
    rewrite countDefault_app, countDefault_cons, Enew. simpl. lia.
  - rewrite assign_split. split; [now apply Hids|].
    rewrite countDefault_app, countDefault_cons, Enew. exact Hone.
Qed.

Lemma atMostOneDefault_applyAll ops :
  forall l, atMostOneDefault l -> freshUuids ops l ->
            atMostOneDefault (applyAll ops l).
Proof.
  induction ops as [|op r IH]; intros l Hl Hadm; [exact Hl|].
  destruct Hadm as (Hfresh & Hadm).
  change (applyAll (op :: r) l) with (applyAll r (apply op l)).
  apply IH; [|exact Hadm].
  destruct op as [c u now | i u now | i | i now]; simpl.
  - now apply atMostOneDefault_add.
  - now apply atMostOneDefault_update.
  - now apply atMostOneDefault_delete.
  - now apply atMostOneDefault_setDefault.
Qed.

(** X22: whatever sequence of [addEditor], [updateEditor], [deleteEditor]
    and [setDefaultEditor] is run on an empty registry, with the
    identifiers drawn for new editors not in use, the registry never holds
    two default editors, and no two editors share an identifier. *)
Theorem X22_never_two_default_editors :
  forall (ops : list Operation),
    freshUuids ops [] ->
    (countDefault (applyAll ops []) <= 1)%nat
    /\ NoDup (ids (applyAll ops [])).
Proof.
  intros ops Hf.
  destruct (atMostOneDefault_applyAll ops []) as [Hnd Hc].
  - split; [constructor | unfold countDefault; simpl; lia].
  - exact Hf.
  - split; assumption.
Qed.

Lemma find_countDefault l :
  countDefault l = 1%nat ->
  exists e, getDefaultEditor l = Some e /\ In e l /\ isDefault e = true.
Proof.
  unfold getDefaultEditor.
  induction l as [|a r IH]; intros Hc; [discriminate|].
  rewrite countDefault_cons in Hc. simpl.
  destruct (isDefault a) eqn:Ea.
  - exists a. repeat split; [now left | exact Ea].
  - destruct (IH Hc) as (e & He & Hin & Hd).
    exists e. repeat split; [exact He | now right | exact Hd].
Qed.

(** X23: on a registry built from the empty one by operations none of
    which is an [updateEditor] that switches the current default off (and
    with fresh identifiers), a non-empty registry has exactly one default
    editor, and [getDefaultEditor] returns it. *)
Theorem X23_one_default_unless_update_clears_it :
  forall (ops : list Operation),
    admissible ops [] ->
    applyAll ops [] <> [] ->
    countDefault (applyAll ops []) = 1%nat
    /\ exists e, getDefaultEditor (applyAll ops []) = Some e
                 /\ In e (applyAll ops [])
                 /\ isDefault e = true.
Proof.
  intros ops Hadm Hne.
  destruct (wellDefaulted_applyAll ops [] wellDefaulted_empty Hadm)
    as [_ Hone].
  split; [now apply Hone|]. apply find_countDefault. now apply Hone.
Qed.

(** *** Identity of the editors *)

Definition identity (e : EditorConfig) : string * Z := (id e, createdAt e).

Lemma identity_assign k v l e :
  nth_error l k = Some e -> identity v = identity e ->
  map identity (assign k v l) = map identity l.
Proof.
  revert k. induction l as [|a r IH]; intros [|k] Hn Hv; simpl in *;
    try discriminate.
  - injection Hn as ->. now rewrite Hv.
  - now rewrite (IH k Hn Hv).
Qed.

Lemma identity_clearOthers k l :
  map identity (clearOthers k l) = map identity l.
Proof.
  revert k. induction l as [|a r IH]; intros [|k]; simpl;
    try reflexivity.
  - f_equal. rewrite map_map. reflexivity.
  - f_equal. apply IH.
Qed.

Lemma nth_error_clearOthers k l e :
  nth_error l k = Some e -> nth_error (clearOthers k l) k = Some e.
Proof.
  revert k. induction l as [|a r IH]; intros [|k] Hn; simpl in *;
    try discriminate; [exact Hn | now apply IH].
Qed.

(** X24: [updateEditor] and [setDefaultEditor] never add, drop, reorder
    or re-identify an editor: whatever the updates and whether or not they
    succeed, the registry lists the same identifiers with the same creation
    times in the same order. *)
Theorem X24_update_keeps_identities :
  forall (editorId : string) (updates : Updates) (now : Z)
         (stored : list EditorConfig),
    map identity (snd (updateEditor editorId updates now stored))
    = map identity stored
    /\ map identity (snd (setDefaultEditor editorId now stored))
       = map identity stored.
Proof.
  intros i u now l. split.
  - unfold updateEditor.
    destruct (findIndex i l) as [k|]; [|reflexivity].
    destruct (nth_error l k) as [e|] eqn:En; [|reflexivity].
    destruct (negb (validateEditorConfig _ _)); [reflexivity|].
    simpl snd.
    match goal with |- context [if ?b then _ else _] => destruct b end.
    + rewrite (identity_assign k _ _ e);
        [apply identity_clearOthers | now apply nth_error_clearOthers
         | reflexivity].
    + now rewrite (identity_assign k _ _ e).
  - unfold setDefaultEditor.
    destruct (existsb _ l); [|reflexivity].
    simpl. rewrite map_map. apply map_ext. intros e.
    destruct (String.eqb (id e) i); reflexivity.
Qed.

(** X25: [deleteEditor] answers whether an editor carries the identifier;
    afterwards no editor carries it, and the identifiers left are the
    others, in order.  When the deleted editor was the default and editors
    remain, the first of them is the default afterwards. *)
Theorem X25_delete_removes_the_editor :
  forall (editorId : string) (stored : list EditorConfig),
    let after := snd (deleteEditor editorId stored) in
    fst (deleteEditor editorId stored)
    = existsb (fun e => String.eqb (id e) editorId) stored
    /\ findIndex editorId after = None
    /\ ids after
       = filter (fun x => negb (String.eqb x editorId)) (ids stored)
    /\ forall k deleted first,
         findIndex editorId stored = Some k ->
         nth_error stored k = Some deleted ->
         isDefault deleted = true ->
         hd_error after = Some first ->
         isDefault first = true /\ getDefaultEditor after = Some first.
Proof.
  intros i l after.
  assert (Hfilter_ids :
            forall m, ids (filter (fun e => negb (String.eqb (id e) i)) m)
                      = filter (fun x => negb (String.eqb x i)) (ids m)).
  { induction m as [|a r IH]; [reflexivity|]. simpl.
    destruct (String.eqb (id a) i); simpl; now rewrite IH. }
  assert (Hfind_filter :
            forall m, findIndex i
                        (filter (fun e => negb (String.eqb (id e) i)) m)
                      = None).
  { induction m as [|a r IH]; [reflexivity|]. simpl.
    destruct (String.eqb (id a) i) eqn:E; simpl; [exact IH|].
    now rewrite E, IH. }
  assert (Hex : forall m,
            existsb (fun e => String.eqb (id e) i) m
            = match findIndex i m with Some _ => true | None => false end).
  { induction m as [|a r IH]; [reflexivity|]. simpl.
    destruct (String.eqb (id a) i); [reflexivity|].
    rewrite IH. now destruct (findIndex i r). }
  assert (Hnth : forall m k, findIndex i m = Some k ->
                             exists e, nth_error m k = Some e).
  { induction m as [|a r IH]; intros k; simpl; [discriminate|].
    destruct (String.eqb (id a) i); [intros [= <-]; now exists a|].
    destruct (findIndex i r) as [k'|]; [|discriminate].
    intros [= <-]. now apply IH. }
  unfold after, deleteEditor. rewrite Hex.
  destruct (findIndex i l) as [k|] eqn:Ef.
  - destruct (Hnth l k Ef) as [e He]. rewrite He. simpl fst. simpl snd.
    specialize (Hfind_filter l). specialize (Hfilter_ids l).
    destruct (filter (fun e0 => negb (String.eqb (id e0) i)) l)
      as [|first r] eqn:Efil.
    + split; [reflexivity|]. split; [exact Hfind_filter|].
      split; [exact Hfilter_ids|].
      intros k0 d f _ _ _ Hhd. discriminate.
    + assert (Hfi : String.eqb (id first) i = false).
      { simpl in Hfind_filter.
        destruct (String.eqb (id first) i); [discriminate | reflexivity]. }
      split; [reflexivity|].
      destruct (isDefault e) eqn:Ed.
      * split; [simpl in *; rewrite Hfi in *; exact Hfind_filter|].
        split; [exact Hfilter_ids|].
        intros k0 d f _ _ _ Hhd. injection Hhd as <-.
        split; reflexivity.
      * split; [exact Hfind_filter|]. split; [exact Hfilter_ids|].
        intros k0 d f Hk Hd Hdef _.
        injection Hk as <-. rewrite He in Hd. injection Hd as <-.
        congruence.
  - simpl. split; [reflexivity|]. split; [exact Ef|]. split.
    + rewrite <- Hfilter_ids. symmetry. f_equal. apply filter_keep_all.
      intros x Hx. now rewrite (findIndex_None i l Ef x Hx).
    + intros k0 d f Hk. discriminate.
Qed.

(** *** The debounce-time setting *)

(** [ConfigManager.DEFAULT_CONFIG.DEBOUNCE_TIME] *)
Definition DEBOUNCE_TIME : Z := 150.

(** [getDebounceTime], from the value configured for
    [quickai.debounceTime] ([None] when [undefined]): [time || 150]. *)
Definition getDebounceTime (configured : option Z) : Z :=
  match configured with
  | Some time => if (time =? 0)%Z then DEBOUNCE_TIME else time
  | None => DEBOUNCE_TIME
  end.

(** [updateDebounceTime(time)]: the answer and the value configured
    afterwards. *)
Definition updateDebounceTime (time : Z) (configured : option Z)
    : bool * option Z :=
  if ((time <? 0) || (time >? 5000))%Z then (false, configured)
  else (true, Some time).

Definition updateDebounceTimes (times : list Z) (configured : option Z)
    : option Z :=
  fold_left (fun c t => snd (updateDebounceTime t c)) times configured.

(** The value configured, if any, is one [updateDebounceTime] accepts. *)
Definition inRange (configured : option Z) : Prop :=
  match configured with
  | Some t => (0 <= t <= 5000)%Z
  | None => True
  end.

Lemma inRange_update time configured :
  inRange configured -> inRange (snd (updateDebounceTime time configured)).
Proof.
  intros H. unfold updateDebounceTime.
  destruct ((time <? 0)%Z) eqn:E1; simpl; [exact H|].
  destruct ((time >? 5000)%Z) eqn:E2; simpl; [exact H|].
  apply Z.ltb_ge in E1. rewrite Z.gtb_ltb in E2. apply Z.ltb_ge in E2. lia.
Qed.

(** X26: [updateDebounceTime] accepts exactly the times from 0 to 5000
    and leaves the setting alone otherwise; after an accepted update
    [getDebounceTime] returns that time, except that 0 reads back as the
    default 150.  So whatever updates were made to an unset setting,
    [getDebounceTime] returns a time from 1 to 5000. *)
Theorem X26_debounce_time_round_trip :
  forall (times : list Z) (time : Z),
    let configured := updateDebounceTimes times None in
    let after := updateDebounceTime time configured in
    fst after = ((0 <=? time) && (time <=? 5000))%Z
    /\ (fst after = true ->
        getDebounceTime (snd after)
        = if (time =? 0)%Z then 150%Z else time)
    /\ (fst after = false -> snd after = configured)
    /\ (1 <= getDebounceTime (snd after) <= 5000)%Z.
Proof.
  intros times time configured after.
  assert (Hr : inRange configured).
  { unfold configured, updateDebounceTimes.
    assert (G : forall c, inRange c ->
              inRange (fold_left (fun c t => snd (updateDebounceTime t c))
                                 times c)).
    { induction times as [|t r IH]; intros c Hc; [exact Hc|].
      simpl. apply IH. now apply inRange_update. }
    now apply G. }
  assert (Hr' : inRange (snd after)) by now apply inRange_update.
  split; [|split; [|split]].
  - unfold after, updateDebounceTime.
    destruct ((time <? 0)%Z) eqn:E1; destruct ((time >? 5000)%Z) eqn:E2;
      simpl; rewrite Z.gtb_ltb in E2;
      try apply Z.ltb_lt in E1; try apply Z.ltb_ge in E1;
      try apply Z.ltb_lt in E2; try apply Z.ltb_ge in E2;
      symmetry.
    + apply andb_false_iff. left. apply Z.leb_gt. lia.
    + apply andb_false_iff. left. apply Z.leb_gt. lia.
    + apply andb_false_iff. right. apply Z.leb_gt. lia.
    + apply andb_true_iff. split; apply Z.leb_le; lia.
  - unfold after, updateDebounceTime.
    destruct (((time <? 0) || (time >? 5000))%Z); simpl;
      [discriminate | reflexivity].
  - unfold after, updateDebounceTime.
    destruct (((time <? 0) || (time >? 5000))%Z); simpl;
      [reflexivity | discriminate].
  - unfold getDebounceTime, DEBOUNCE_TIME.
    destruct (snd after) as [t|]; [|lia].
    simpl in Hr'. destruct ((t =? 0)%Z) eqn:E0; [lia|].
    apply Z.eqb_neq in E0. lia.
Qed.

(** *** Runs of the registry *)

Definition idea : NewEditor :=
  mkNewEditor "IDEA" "/opt/idea/bin/idea" false None None.

Definition pycharm : NewEditor :=
  mkNewEditor "PyCharm" "/opt/pycharm/bin/pycharm" true None None.

Definition switchOff : Updates :=
  mkUpdates None None (Some false) None None None.

Lemma X22_add_switch_off_add :
  (countDefault
     (applyAll [OpAdd idea "id-1" 1000; OpAdd pycharm "id-2" 1001;
                OpUpdate "id-2" switchOff 1002; OpSetDefault "id-1" 1003;
                OpDelete "id-1"] []) <= 1)%nat
  /\ NoDup
       (ids (applyAll [OpAdd idea "id-1" 1000; OpAdd pycharm "id-2" 1001;
                       OpUpdate "id-2" switchOff 1002;
                       OpSetDefault "id-1" 1003; OpDelete "id-1"] [])).
Proof.
  apply (X22_never_two_default_editors
           [OpAdd idea "id-1" 1000; OpAdd pycharm "id-2" 1001;
            OpUpdate "id-2" switchOff 1002; OpSetDefault "id-1" 1003;
            OpDelete "id-1"]).
  simpl. repeat split; try exact I.
  - intros [].
  - intros [H | []]. discriminate.
Defined.

Lemma X23_add_add_delete :
  countDefault
    (applyAll [OpAdd idea "id-1" 1000; OpAdd pycharm "id-2" 1001;
               OpDelete "id-2"] []) = 1%nat
  /\ exists e,
       getDefaultEditor
         (applyAll [OpAdd idea "id-1" 1000; OpAdd pycharm "id-2" 1001;
                    OpDelete "id-2"] []) = Some e
       /\ In e (applyAll [OpAdd idea "id-1" 1000; OpAdd pycharm "id-2" 1001;
                          OpDelete "id-2"] [])
       /\ isDefault e = true.
Proof.
  apply (X23_one_default_unless_update_clears_it
           [OpAdd idea "id-1" 1000; OpAdd pycharm "id-2" 1001;
            OpDelete "id-2"]).
  - simpl. repeat split; try exact I.
    + intros [].
    + intros [H | []]. discriminate.
  - vm_compute. discriminate.
Defined.

End ConfigManager.

(** ** Command builder and executor ([commandExecutor.ts])

    The outside world is a record: what [fs.existsSync] answers, what the
    regular expression of [parseCommandForUnix] matches, and what becomes
    of a child process that [exec] or [spawn] is asked to start.  The
    executor returns, with its result and state, the list of the effects it
    had on that world.  The cache is the one [CacheManager] instance, shared
    by [buildCommand] and by the [Cacheable] decorator of
    [verifyEditorPath]; it holds command strings and the promises of
    [verifyEditorPath].  The floating-point [averageExecutionTime] is not
    modelled. *)

Module CommandExecutor.
Local Open Scope string_scope.
Import ConfigManager.

(** The value of an expression that may throw. *)
Inductive Res (X : Type) : Type :=
| Ok (x : X)
| Throw (message : string).
Arguments Ok {X}.
Arguments Throw {X}.

Record CommandExecutionParams : Type := mkParams {
  editor : option EditorConfig;
  filePath : string;
  lineNumber : Z;
  columnNumber : option Z;
  projectRoot : string
}.

Record CommandExecutionResult : Type := mkResult {
  success : bool;
  error : option string;
  command : string;
  executionTime : Z;
  processId : option Z
}.

Record PlatformInfo : Type := mkPlatform {
  platform : string;
  isWindows : bool;
  isMacOS : bool;
  isLinux : bool;
  arch : string;
  version : string
}.

Definition initializePlatformInfo (platform_ arch_ release : string)
    : PlatformInfo :=
  mkPlatform platform_
             (String.eqb platform_ "win32")
             (String.eqb platform_ "darwin")
             (String.eqb platform_ "linux")
             arch_ release.

(** What the shared cache holds: a command string, or the promise that the
    decorated [verifyEditorPath] returned, with the boolean it resolves to. *)
Inductive JsValue : Type :=
| VString (s : string)
| VPromiseBool (b : bool).

Definition truthy (v : JsValue) : bool :=
  match v with
  | VString s => negb (String.eqb s "")
  | VPromiseBool _ => true
  end.

(** [!(await v)] is false exactly when this is true. *)
Definition awaitedTruthy (v : JsValue) : bool :=
  match v with
  | VString s => negb (String.eqb s "")
  | VPromiseBool b => b
  end.

Definition CommandBuilder : Type :=
  CommandExecutionParams -> PlatformInfo -> Res string.

Inductive LaunchRequest : Type :=
| Exec (command_ : string)
| Spawn (program : string) (arguments : list string).

Inductive LaunchOutcome : Type :=
| Spawned (pid : option Z)       (* the [spawn] event *)
| Failed (message : string)      (* the [error] event *)
| Refused (message : string).    (* [exec] or [spawn] itself throws *)

Record World : Type := mkWorld {
  existsSync : string -> bool;
  matchCommandParts : string -> list string;
  startProcess : LaunchRequest -> LaunchOutcome
}.

Inductive Effect : Type :=
| ELaunch (request : LaunchRequest)
| EHandler (message : string).

(** An injected error handler: [None] when it returns, [Some m] when it
    throws an error with message [m]. *)
Definition ErrorHandler : Type := string -> option string.

Record ExecutionStats : Type := mkExecStats {
  totalExecutions : Z;
  successfulExecutions : Z;
  failedExecutions : Z;
  totalExecutionTime : Z
}.

Record State : Type := mkState {
  cacheManager : CacheManager.State JsValue;
  platformInfo : PlatformInfo;
  executionStats : ExecutionStats;
  errorHandler : option ErrorHandler;
  runningProcesses : JsMap.t LaunchRequest;
  commandBuilders : JsMap.t CommandBuilder
}.

Definition withCache (cm : CacheManager.State JsValue) (st : State) : State :=
  mkState cm (platformInfo st) (executionStats st) (errorHandler st)
          (runningProcesses st) (commandBuilders st).

Definition withStats (s : ExecutionStats) (st : State) : State :=
  mkState (cacheManager st) (platformInfo st) s (errorHandler st)
          (runningProcesses st) (commandBuilders st).

Definition withProcesses (r : JsMap.t LaunchRequest) (st : State) : State :=
  mkState (cacheManager st) (platformInfo st) (executionStats st)
          (errorHandler st) r (commandBuilders st).

Definition escapeWindowsPath (filePath_ : string) : string :=
  JsString.replaceAll "\" "\\" filePath_.

Definition escapeUnixPath (filePath_ : string) : string :=
  JsString.replaceAll "'" ("'" ++ JsString.dquote ++ "'" ++ JsString.dquote ++ "'")
                      filePath_.

(** The message of the [TypeError] that reading a property of an
    [undefined] editor raises. *)
Definition undefinedProperty (property : string) : string :=
  "Cannot read properties of undefined (reading '" ++ property ++ "')".

Definition windowsBuilder : CommandBuilder := fun params _platform =>
  match editor params with
  | None => Throw (undefinedProperty "path")
  | Some e =>
      let editorPath := escapeWindowsPath (path e) in
      let filePath_ := escapeWindowsPath (filePath params) in
      Ok (JsString.dquote ++ editorPath ++ JsString.dquote ++ " --line "
          ++ JsString.ofNumber (lineNumber params) ++ " "
          ++ JsString.dquote ++ filePath_ ++ JsString.dquote)
  end.

Definition unixBuilder : CommandBuilder := fun params _platform =>
  match editor params with
  | None => Throw (undefinedProperty "path")
  | Some e =>
      let editorPath := escapeUnixPath (path e) in
      let filePath_ := escapeUnixPath (filePath params) in
      Ok ("nohup '" ++ editorPath ++ "' --line "
          ++ JsString.ofNumber (lineNumber params) ++ " "
          ++ JsString.dquote ++ filePath_ ++ JsString.dquote
          ++ " > /dev/null 2>&1 &")
  end.

Definition defaultBuilder : CommandBuilder := fun params _platform =>
  match editor params with
  | None => Throw (undefinedProperty "path")
  | Some e =>
      Ok (JsString.dquote ++ path e ++ JsString.dquote ++ " --line "
          ++ JsString.ofNumber (lineNumber params) ++ " "
          ++ JsString.dquote ++ filePath params ++ JsString.dquote)
  end.

Definition initializeCommandBuilders : JsMap.t CommandBuilder :=
  JsMap.mset "default" defaultBuilder
    (JsMap.mset "linux" unixBuilder
       (JsMap.mset "darwin" unixBuilder
          (JsMap.mset "win32" windowsBuilder []))).

(** The executor that the constructor builds on a given platform. *)
Definition newExecutor (cm : CacheManager.State JsValue)
    (platform_ arch_ release : string) : State :=
  mkState cm (initializePlatformInfo platform_ arch_ release)
          (mkExecStats 0 0 0 0) None [] initializeCommandBuilders.

Definition setErrorHandler (handler : ErrorHandler) (st : State) : State :=
  mkState (cacheManager st) (platformInfo st) (executionStats st)
          (Some handler) (runningProcesses st) (commandBuilders st).

Definition validateExecutionParams (params : CommandExecutionParams)
    : Res unit :=
  match editor params with
  | None => Throw "编辑器配置不能为空"
  | Some e =>
      if JsString.isBlank (path e) then Throw "编辑器路径不能为空"
      else if JsString.isBlank (filePath params) then Throw "文件路径不能为空"
      else if (lineNumber params <? 1)%Z then Throw "行号必须大于等于1"
      else Ok tt
  end.

(** [verifyEditorPath] under [@Cacheable(5000, ...)]: a cached value that
    is not [undefined] is returned as it is; otherwise the method runs and
    its promise is cached for 5000 ms. *)
Definition verifyEditorPath (w : World) (editorPath : string) (now : Z)
    (cm : CacheManager.State JsValue)
    : JsValue * CacheManager.State JsValue :=
  let cacheKey := "editor_path_exists:" ++ editorPath in
  match CacheManager.get cacheKey now cm with
  | (Some cachedResult, cm1) => (cachedResult, cm1)
  | (None, cm1) =>
      let result := VPromiseBool (existsSync w editorPath) in
      (result, snd (CacheManager.set cacheKey result (Some 5000) now cm1))
  end.

Definition generateCommandCacheKey (e : EditorConfig) (st : State) : string :=
  "command:" ++ id e ++ ":" ++ platform (platformInfo st).

(** [this.commandBuilders.get(builderKey) || this.commandBuilders.get('default')] *)
Definition selectBuilder (st : State) : option CommandBuilder :=
  match JsMap.mget (platform (platformInfo st)) (commandBuilders st) with
  | Some b => Some b
  | None => JsMap.mget "default" (commandBuilders st)
  end.

Definition buildCommand (params : CommandExecutionParams) (now : Z)
    (st : State) : Res JsValue * State :=
  match editor params with
  | None => (Throw (undefinedProperty "id"), st)
  | Some e =>
      let cacheKey := generateCommandCacheKey e st in
      let (cachedCommand, cm1) :=
        CacheManager.get cacheKey now (cacheManager st) in
      let miss :=
        match selectBuilder st with
        | None =>
            (Throw ("不支持的平台: " ++ platform (platformInfo st)),
             withCache cm1 st)
        | Some builder =>
            match builder params (platformInfo st) with
            | Throw m => (Throw m, withCache cm1 st)
            | Ok command_ =>
                (Ok (VString command_),
                 withCache
                   (snd (CacheManager.set cacheKey (VString command_)
                           (Some 1000) now cm1))
                   st)
            end
        end in
      match cachedCommand with
      | Some v => if truthy v then (Ok v, withCache cm1 st) else miss
      | None => miss
      end
  end.

Definition shellOperators : list string :=
  ["nohup"; ">"; "<"; "&"; "|"; "&&"; "||"; ";"; "$("; "`"].

Definition containsShellOperators (command_ : string) : bool :=
  existsb (fun operator => JsString.includes operator command_)
          shellOperators.

Definition stripQuotes (s : string) : string :=
  JsString.replaceAll (ascii_of_nat 34) "" s.

Definition parseCommandForUnix (w : World) (command_ : string)
    : Res (string * list string) :=
  match matchCommandParts w command_ with
  | [] => Throw "无效的命令格式"
  | first :: rest => Ok (stripQuotes first, map stripQuotes rest)
  end.

Definition launchRequest (w : World) (command_ : string) (st : State)
    : Res LaunchRequest :=
  if isWindows (platformInfo st) then Ok (Exec command_)
  else if containsShellOperators command_ then Ok (Exec command_)
  else match parseCommandForUnix w command_ with
       | Ok (program, arguments) => Ok (Spawn program arguments)
       | Throw m => Throw m
       end.

(** [executeCommand]: the promise settles with the first of the [spawn]
    and [error] events ([Spawned] also stands for the 100 ms timer that
    resolves it on Windows). *)
Definition executeCommand (w : World) (command_ : JsValue) (e : EditorConfig)
    (now : Z) (st : State) : Res (option Z) * State * list Effect :=
  match command_ with
  | VPromiseBool _ =>
      (Throw "The command argument must be of type string", st, [])
  | VString c =>
      match launchRequest w c st with
      | Throw m => (Throw m, st, [])
      | Ok request =>
          let processKey := id e ++ "_" ++ JsString.ofNumber now in
          match startProcess w request with
          | Refused m => (Throw m, st, [ELaunch request])
          | Failed m =>
              (Throw m,
               withProcesses
                 (JsMap.mdelete processKey
                    (JsMap.mset processKey request (runningProcesses st)))
                 st,
               [ELaunch request])
          | Spawned pid =>
              (Ok pid,
               withProcesses
                 (JsMap.mset processKey request (runningProcesses st)) st,
               [ELaunch request])
          end
      end
  end.

Definition updateExecutionStats (success_ : bool) (executionTime_ : Z)
    (st : State) : State :=
  let s := executionStats st in
  withStats
    (mkExecStats (totalExecutions s)
       (if success_ then successfulExecutions s + 1
        else successfulExecutions s)
       (if success_ then failedExecutions s else failedExecutions s + 1)
       (totalExecutionTime s + executionTime_))
    st.

Definition countExecution (st : State) : State :=
  let s := executionStats st in
  withStats (mkExecStats (totalExecutions s + 1) (successfulExecutions s)
                         (failedExecutions s) (totalExecutionTime s)) st.

(** The [try] block of [executeJumpCommand]: the command and the process
    id, or the message of the error thrown. *)
Definition attempt (w : World) (params : CommandExecutionParams) (now : Z)
    (st : State) : Res (JsValue * option Z) * State * list Effect :=
  match editor params with
  | None => (Throw (undefinedProperty "name"), st, [])
  | Some e =>
      match validateExecutionParams params with
      | Throw m => (Throw m, st, [])
      | Ok _ =>
          let (pathExists, cm1) :=
            verifyEditorPath w (path e) now (cacheManager st) in
          let st1 := withCache cm1 st in
          if negb (awaitedTruthy pathExists)
          then (Throw ("编辑器路径不存在: " ++ path e), st1, [])
          else
            match buildCommand params now st1 with
            | (Throw m, st2) => (Throw m, st2, [])
            | (Ok command_, st2) =>
                if negb (truthy command_)
                then (Throw "无法构建有效的执行命令", st2, [])
                else
                  match executeCommand w command_ e now st2 with
                  | (Throw m, st3, effects) => (Throw m, st3, effects)
                  | (Ok pid, st3, effects) =>
                      (Ok (command_, pid), st3, effects)
                  end
            end
      end
  end.

Definition commandText (v : JsValue) : string :=
  match v with VString s => s | VPromiseBool _ => "[object Promise]" end.

(** [result.processId || undefined] *)
Definition processIdOrUndefined (pid : option Z) : option Z :=
  match pid with
  | Some n => if (n =? 0)%Z then None else Some n
  | None => None
  end.

(** [executeJumpCommand], started at clock value [now] and finished at
    [finished].  [Throw] is a rejected promise: an exception that leaves
    the method. *)
Definition executeJumpCommand (w : World) (params : CommandExecutionParams)
    (now finished : Z) (st : State)
    : Res CommandExecutionResult * State * list Effect :=
  let st0 := countExecution st in
  let executionTime_ := finished - now in
  match attempt w params now st0 with
  | (Ok (command_, pid), st1, effects) =>
      (Ok (mkResult true None (commandText command_) executionTime_
                    (processIdOrUndefined pid)),
       updateExecutionStats true executionTime_ st1,
       effects)
  | (Throw errorMessage, st1, effects) =>
      let st2 := updateExecutionStats false executionTime_ st1 in
      let failure :=
        mkResult false (Some errorMessage) "" executionTime_ None in
      match errorHandler st2 with
      | Some handler =>
          match handler errorMessage with
          | Some thrown =>
              (Throw thrown, st2, (effects ++ [EHandler errorMessage])%list)
          | None =>
              (Ok failure, st2, (effects ++ [EHandler errorMessage])%list)
          end
      | None => (Ok failure, st2, effects)
      end
  end.

Definition launches (effects : list Effect) : list LaunchRequest :=
  flat_map (fun x => match x with ELaunch r => [r] | EHandler _ => [] end)
           effects.

Definition handlerCalls (effects : list Effect) : list string :=
  flat_map (fun x => match x with EHandler m => [m] | ELaunch _ => [] end)
           effects.


(** *** Command construction *)

Definition emptyCache : CacheManager.State JsValue :=
  CacheManager.newCache CacheManager.DEFAULT_CONFIG.

Definition ideaOnMac : CommandExecutionParams :=
  mkParams
    (Some (mkEditor "editor-1" "IntelliJ IDEA CE"
             "/Applications/IntelliJ IDEA CE.app/Contents/MacOS/idea"
             true (Some IDEA) None 0 0))
    "/Users/x/proj/src/main.kt" 42 None "/Users/x/proj".

Definition ideaOnWindows : CommandExecutionParams :=
  mkParams
    (Some (mkEditor "editor-2" "IntelliJ IDEA" "C:\IDE\idea64.exe"
             true (Some IDEA) None 0 0))
    "C:\proj\Main.java" 7 None "C:\proj".

Definition expectedUnixCommand : string :=
  "nohup '/Applications/IntelliJ IDEA CE.app/Contents/MacOS/idea' --line 42 "
  ++ JsString.dquote ++ "/Users/x/proj/src/main.kt" ++ JsString.dquote
  ++ " > /dev/null 2>&1 &".

Definition expectedWindowsCommand : string :=
  JsString.dquote ++ "C:\\IDE\\idea64.exe" ++ JsString.dquote
  ++ " --line 7 "
  ++ JsString.dquote ++ "C:\\proj\\Main.java" ++ JsString.dquote.

(** C3: the commands built on macOS and on Linux for the IDEA path with a
    blank in it, and on Windows for the path with backslashes, are the
    strings of the specification, character for character. *)
Theorem C3_command_strings :
  fst (buildCommand ideaOnMac 0 (newExecutor emptyCache "darwin" "arm64" ""))
  = Ok (VString expectedUnixCommand)
  /\ fst (buildCommand ideaOnMac 0 (newExecutor emptyCache "linux" "x64" ""))
     = Ok (VString expectedUnixCommand)
  /\ fst (buildCommand ideaOnWindows 0
            (newExecutor emptyCache "win32" "x64" ""))
     = Ok (VString expectedWindowsCommand)
  /\ String.length expectedUnixCommand = 119%nat
  /\ String.length expectedWindowsCommand = 52%nat.
Proof. vm_compute. repeat split; reflexivity. Qed.

(** An embedded single quote in the editor path is closed, quoted and
    reopened. *)
Example escapeUnixPath_quote :
  escapeUnixPath "/opt/it's/idea"
  = "/opt/it'" ++ JsString.dquote ++ "'" ++ JsString.dquote ++ "'s/idea".
Proof. vm_compute. reflexivity. Qed.


(** *** The command cache *)

(** What [buildCommand] takes from the cache: a truthy value under the
    key, not expired. *)
Definition cachedCommand (cacheKey : string) (now : Z)
    (cm : CacheManager.State JsValue) : option JsValue :=
  match fst (CacheManager.get cacheKey now cm) with
  | Some v => if truthy v then Some v else None
  | None => None
  end.

(** What [buildCommand] constructs from the parameters when the cache does
    not serve the call. *)
Definition constructed (params : CommandExecutionParams) (st : State)
    : Res JsValue :=
  match selectBuilder st with
  | None => Throw ("不支持的平台: " ++ platform (platformInfo st))
  | Some builder =>
      match builder params (platformInfo st) with
      | Ok command_ => Ok (VString command_)
      | Throw m => Throw m
      end
  end.

Lemma initializeCommandBuilders_table :
  initializeCommandBuilders
  = [("win32", windowsBuilder); ("darwin", unixBuilder);
     ("linux", unixBuilder); ("default", defaultBuilder)].
Proof. reflexivity. Qed.

(** Each built-in builder yields a non-empty string for a present editor. *)
Lemma builtin_builder_output (st : State) params e :
  commandBuilders st = initializeCommandBuilders ->
  editor params = Some e ->
  exists command_,
    constructed params st = Ok (VString command_)
    /\ String.eqb command_ "" = false.
Proof.
  intros Hb He. unfold constructed, selectBuilder.
  rewrite Hb, initializeCommandBuilders_table. simpl.
  destruct (String.eqb (platform (platformInfo st)) "win32");
    [|destruct (String.eqb (platform (platformInfo st)) "darwin");
      [|destruct (String.eqb (platform (platformInfo st)) "linux");
        [|destruct (String.eqb (platform (platformInfo st)) "default")]]];
    unfold windowsBuilder, unixBuilder, defaultBuilder; rewrite He;
    eexists; (split; [reflexivity | reflexivity]).
Qed.

Lemma buildCommand_constructs params e now (st : State) :
  editor params = Some e ->
  cachedCommand (generateCommandCacheKey e st) now (cacheManager st) = None ->
  fst (buildCommand params now st) = constructed params st
  /\ platformInfo (snd (buildCommand params now st)) = platformInfo st
  /\ commandBuilders (snd (buildCommand params now st)) = commandBuilders st
  /\ forall command_,
       constructed params st = Ok (VString command_) ->
       JsMap.mget (generateCommandCacheKey e st)
         (CacheManager.cache (cacheManager (snd (buildCommand params now st))))
       = Some (CacheManager.mkEntry (VString command_) now 1000
                 (generateCommandCacheKey e st)).
Proof.
  intros He Hmiss. unfold buildCommand, cachedCommand, constructed in *.
  rewrite He.
  destruct (CacheManager.get (generateCommandCacheKey e st) now
              (cacheManager st)) as [cached cm1] eqn:Eg.
  simpl in Hmiss.
  assert (Hbranch :
    match cached with
    | Some v => truthy v = false
    | None => True
    end).
  { destruct cached as [v|]; [|exact I].
    destruct (truthy v); [discriminate | reflexivity]. }
  assert (Hcfg : CacheManager.config cm1 = CacheManager.config (cacheManager st)).
  { replace cm1 with (snd (CacheManager.get (generateCommandCacheKey e st) now
                             (cacheManager st))) by now rewrite Eg.
    unfold CacheManager.get. simpl.
    destruct (JsMap.mget _ _) as [en|]; [|reflexivity].
    destruct (CacheManager.isExpired now en); reflexivity. }
  destruct cached as [v|]; [rewrite Hbranch|];
    (destruct (selectBuilder st) as [b|];
     [destruct (b params (platformInfo st)) as [c|msg]|];
     simpl; repeat split; try discriminate;
     intros c0 [= <-];
     destruct (CacheManager.set_entry (generateCommandCacheKey e st)
                 (VString c) (Some 1000) now cm1) as [Hen _];
     exact Hen).
Qed.

(** C9: the key is made of the editor id and the platform only; a command
    that [buildCommand] constructs at [t1] is stored under it with a ttl of
    1000 ms, and a later call for the same editor id, whatever its file and
    line, gets that stored command while [t2 - t1 <= 1000] and a command
    constructed from its own parameters after that. *)
Theorem C9_command_cached_per_editor_and_platform :
  forall (st : State) (p1 p2 : CommandExecutionParams)
         (e1 e2 : EditorConfig) (t1 t2 : Z),
    commandBuilders st = initializeCommandBuilders ->
    editor p1 = Some e1 ->
    editor p2 = Some e2 ->
    id e1 = id e2 ->
    cachedCommand (generateCommandCacheKey e1 st) t1 (cacheManager st) = None ->
    let st1 := snd (buildCommand p1 t1 st) in
    generateCommandCacheKey e1 st
      = "command:" ++ id e1 ++ ":" ++ platform (platformInfo st)
    /\ generateCommandCacheKey e2 st1 = generateCommandCacheKey e1 st
    /\ fst (buildCommand p1 t1 st) = constructed p1 st
    /\ (exists entry,
          JsMap.mget (generateCommandCacheKey e1 st)
                     (CacheManager.cache (cacheManager st1)) = Some entry
          /\ Ok (CacheManager.data entry) = constructed p1 st
          /\ CacheManager.timestamp entry = t1
          /\ CacheManager.ttl entry = 1000)
    /\ (t2 - t1 <= 1000 ->
          fst (buildCommand p2 t2 st1) = constructed p1 st)
    /\ (t2 - t1 > 1000 ->
          fst (buildCommand p2 t2 st1) = constructed p2 st).
Proof.
  intros st p1 p2 e1 e2 t1 t2 Hb He1 He2 Hid Hmiss st1.
  destruct (buildCommand_constructs p1 e1 t1 st He1 Hmiss)
    as (Hr1 & Hpi & Hcb & Hentry).
  destruct (builtin_builder_output st p1 e1 Hb He1) as (c1 & Hc1 & Hne1).
  specialize (Hentry c1 Hc1). fold st1 in Hpi, Hcb, Hentry.
  assert (Hkey : generateCommandCacheKey e2 st1 = generateCommandCacheKey e1 st).
  { unfold generateCommandCacheKey. now rewrite Hpi, Hid. }
  assert (Hsame : forall p, constructed p st1 = constructed p st).
  { intros p. unfold constructed, selectBuilder. now rewrite Hpi, Hcb. }
  split; [reflexivity|]. split; [exact Hkey|]. split; [exact Hr1|].
  split.
  { eexists. split; [exact Hentry|]. simpl. now rewrite Hc1. }
  destruct (CacheManager.get_entry _ t2 (cacheManager st1) _ Hentry)
    as [Hlive Hdead]. simpl in Hlive, Hdead.
  split.
  - intros Hin. destruct (Hlive Hin) as (Hget & _).
    unfold buildCommand. rewrite He2, Hkey.
    destruct (CacheManager.get (generateCommandCacheKey e1 st) t2
                (cacheManager st1)) as [cached cm2].
    simpl in Hget. subst cached. simpl. rewrite Hne1. simpl.
    now rewrite Hc1.
  - intros Hout. destruct (Hdead Hout) as (Hget & _).
    rewrite <- Hsame.
    apply (buildCommand_constructs p2 e2 t2 st1 He2).
    unfold cachedCommand. rewrite Hkey, Hget. reflexivity.
Qed.


Definition ideaOtherFile : CommandExecutionParams :=
  mkParams (editor ideaOnMac) "/Users/x/proj/README.md" 7 None "/Users/x/proj".

Definition macExecutor : State := newExecutor emptyCache "darwin" "arm64" "".

Lemma C9_same_editor_other_file :
  generateCommandCacheKey
    (mkEditor "editor-1" "IntelliJ IDEA CE"
       "/Applications/IntelliJ IDEA CE.app/Contents/MacOS/idea"
       true (Some IDEA) None 0 0) macExecutor
  = "command:editor-1:darwin"
  /\ fst (buildCommand ideaOtherFile 500
            (snd (buildCommand ideaOnMac 0 macExecutor)))
     = Ok (VString expectedUnixCommand)
  /\ fst (buildCommand ideaOtherFile 1001
            (snd (buildCommand ideaOnMac 0 macExecutor)))
     = constructed ideaOtherFile macExecutor.
Proof.
  destruct (C9_command_cached_per_editor_and_platform macExecutor
              ideaOnMac ideaOtherFile
              (mkEditor "editor-1" "IntelliJ IDEA CE"
                 "/Applications/IntelliJ IDEA CE.app/Contents/MacOS/idea"
                 true (Some IDEA) None 0 0)
              (mkEditor "editor-1" "IntelliJ IDEA CE"
                 "/Applications/IntelliJ IDEA CE.app/Contents/MacOS/idea"
                 true (Some IDEA) None 0 0)
              0 500 eq_refl eq_refl eq_refl eq_refl eq_refl)
    as (Hkey & _ & _ & _ & Hin & _).
  destruct (C9_command_cached_per_editor_and_platform macExecutor
              ideaOnMac ideaOtherFile
              (mkEditor "editor-1" "IntelliJ IDEA CE"
                 "/Applications/IntelliJ IDEA CE.app/Contents/MacOS/idea"
                 true (Some IDEA) None 0 0)
              (mkEditor "editor-1" "IntelliJ IDEA CE"
                 "/Applications/IntelliJ IDEA CE.app/Contents/MacOS/idea"
                 true (Some IDEA) None 0 0)
              0 1001 eq_refl eq_refl eq_refl eq_refl eq_refl)
    as (_ & _ & _ & _ & _ & Hout).
  split; [exact Hkey|]. split.
  - apply Hin. lia.
  - apply Hout. lia.
Defined.

(** The stale command is the one for the first file and line; the fresh
    one names the second. *)
Example constructed_other_file :
  constructed ideaOtherFile macExecutor
  = Ok (VString
          ("nohup '/Applications/IntelliJ IDEA CE.app/Contents/MacOS/idea' --line 7 "
           ++ JsString.dquote ++ "/Users/x/proj/README.md" ++ JsString.dquote
           ++ " > /dev/null 2>&1 &")).
Proof. vm_compute. reflexivity. Qed.

(** *** Failures before the launch *)

(** The answer of the path check that [executeJumpCommand] awaits: the
    cached promise while one is stored and fresh, the disk otherwise. *)
Definition pathCheck (w : World) (editorPath : string) (now : Z)
    (st : State) : bool :=
  awaitedTruthy (fst (verifyEditorPath w editorPath now (cacheManager st))).

(** No editor, a blank (empty or white-space) editor path or file path, a
    line below 1, or a path check that answers no. *)
Definition preflightFails (w : World) (params : CommandExecutionParams)
    (now : Z) (st : State) : Prop :=
  match editor params with
  | None => True
  | Some e =>
      JsString.isBlank (path e) = true
      \/ JsString.isBlank (filePath params) = true
      \/ (lineNumber params < 1)%Z
      \/ pathCheck w (path e) now st = false
  end.

Lemma pathCheck_uncached w editorPath now (st : State) :
  fst (CacheManager.get ("editor_path_exists:" ++ editorPath) now
         (cacheManager st)) = None ->
  pathCheck w editorPath now st = existsSync w editorPath.
Proof.
  intros Hg. unfold pathCheck, verifyEditorPath.
  destruct (CacheManager.get ("editor_path_exists:" ++ editorPath) now
              (cacheManager st)) as [cached cm1].
  simpl in Hg. subst cached. reflexivity.
Qed.

Lemma attempt_preflight w params now (st : State) :
  preflightFails w params now st ->
  exists msg st1,
    attempt w params now st = (Throw msg, st1, [])
    /\ errorHandler st1 = errorHandler st
    /\ executionStats st1 = executionStats st
    /\ String.eqb msg "" = false.
Proof.
  unfold preflightFails, attempt, validateExecutionParams, pathCheck.
  destruct (editor params) as [e|].
  - intros Hf.
    destruct (JsString.isBlank (path e)) eqn:E1;
      [eexists _, _; repeat split|].
    destruct (JsString.isBlank (filePath params)) eqn:E2;
      [eexists _, _; repeat split|].
    destruct (lineNumber params <? 1)%Z eqn:E3;
      [eexists _, _; repeat split|].
    apply Z.ltb_ge in E3.
    destruct Hf as [Hf | [Hf | [Hf | Hf]]]; try discriminate; try lia.
    destruct (verifyEditorPath w (path e) now (cacheManager st))
      as [pathExists cm1].
    simpl in Hf. rewrite Hf. simpl.
    eexists _, _; repeat split.
  - intros _. eexists _, _; repeat split.
Qed.

(** C5, as the code has it: when the editor is missing, a path is blank,
    the line is below 1, or the path check (the promise cached for 5000 ms
    when there is one, [fs.existsSync] otherwise) answers no, the call
    resolves with [success = false], an empty command and a non-empty
    error; nothing is spawned or exec-ed; and an error handler that is set
    and returns is called once, with that error. *)
Theorem C5_preflight_failure_is_structured :
  forall (w : World) (params : CommandExecutionParams) (now finished : Z)
         (st : State),
    preflightFails w params now st ->
    (forall handler m, errorHandler st = Some handler -> handler m = None) ->
    exists msg,
      fst (fst (executeJumpCommand w params now finished st))
      = Ok (mkResult false (Some msg) "" (finished - now) None)
      /\ String.eqb msg "" = false
      /\ launches (snd (executeJumpCommand w params now finished st)) = []
      /\ handlerCalls (snd (executeJumpCommand w params now finished st))
         = match errorHandler st with Some _ => [msg] | None => [] end.
Proof.
  intros w params now finished st Hf Hh.
  assert (Hf0 : preflightFails w params now (countExecution st)).
  { unfold preflightFails, pathCheck in *. exact Hf. }
  destruct (attempt_preflight w params now (countExecution st) Hf0)
    as (msg & st1 & Ha & Heh & _ & Hne).
  exists msg. unfold executeJumpCommand. rewrite Ha. simpl.
  rewrite Heh. simpl.
  destruct (errorHandler st) as [handler|] eqn:Eh.
  - rewrite (Hh handler msg eq_refl). simpl. repeat split. exact Hne.
  - simpl. repeat split. exact Hne.
Qed.

(** An editor that is not on disk and was not checked before fails the
    path check. *)
Lemma missing_path_unchecked_fails w params e now (st : State) :
  editor params = Some e ->
  fst (CacheManager.get ("editor_path_exists:" ++ path e) now
         (cacheManager st)) = None ->
  existsSync w (path e) = false ->
  preflightFails w params now st.
Proof.
  intros He Hg Hx. unfold preflightFails. rewrite He.
  right. right. right. now rewrite pathCheck_uncached.
Qed.

(** **** A stale path check *)

Definition ideaOnLinux : CommandExecutionParams :=
  mkParams
    (Some (mkEditor "editor-3" "IDEA" "/opt/idea/bin/idea.sh"
             true (Some IDEA) None 0 0))
    "/home/x/proj/Main.java" 12 None "/home/x/proj".

(** The editor is installed and every launch succeeds with pid 4242. *)
Definition installed : World :=
  mkWorld (fun _ => true) (fun _ => []) (fun _ => Spawned (Some 4242)).

(** The editor has been removed from the disk. *)
Definition removed : World :=
  mkWorld (fun _ => false) (fun _ => []) (fun _ => Spawned (Some 4243)).

Definition linuxExecutor : State := newExecutor emptyCache "linux" "x64" "".

(** The executor after one successful jump at clock value 1000. *)
Definition afterFirstJump : State :=
  snd (fst (executeJumpCommand installed ideaOnLinux 1000 1010 linuxExecutor)).

(** A call two seconds after a successful one, for an editor that has been
    removed in between: the cached promise of the first check answers for
    the disk, the shell is exec-ed and the call reports success. *)
Lemma C5_stale_path_check_launches :
  existsSync removed "/opt/idea/bin/idea.sh" = false
  /\ (exists r,
        fst (fst (executeJumpCommand removed ideaOnLinux 3000 3010
                    afterFirstJump)) = Ok r
        /\ success r = true)
  /\ launches (snd (executeJumpCommand removed ideaOnLinux 3000 3010
                      afterFirstJump))
     = [Exec ("nohup '/opt/idea/bin/idea.sh' --line 12 "
              ++ JsString.dquote ++ "/home/x/proj/Main.java"
              ++ JsString.dquote ++ " > /dev/null 2>&1 &")].
Proof.
  split; [reflexivity|]. split.
  - eexists. split; vm_compute; reflexivity.
  - vm_compute. reflexivity.
Qed.

(** The same call on an executor that has not checked the path before
    fails without a launch. *)
Lemma C5_missing_path_example :
  exists msg,
    fst (fst (executeJumpCommand removed ideaOnLinux 3000 3010
                (setErrorHandler (fun _ => None) linuxExecutor)))
    = Ok (mkResult false (Some msg) "" (3010 - 3000) None)
    /\ String.eqb msg "" = false
    /\ launches (snd (executeJumpCommand removed ideaOnLinux 3000 3010
                        (setErrorHandler (fun _ => None) linuxExecutor)))
       = []
    /\ handlerCalls (snd (executeJumpCommand removed ideaOnLinux 3000 3010
                            (setErrorHandler (fun _ => None) linuxExecutor)))
       = [msg].
Proof.
  apply (C5_preflight_failure_is_structured removed ideaOnLinux 3000 3010
           (setErrorHandler (fun _ => None) linuxExecutor)).
  - unfold preflightFails. simpl. right. right. right. reflexivity.
  - intros handler m [= <-]. reflexivity.
Defined.

(** A file path that is one no-break space is blank: the check rejects
    it and nothing is launched. *)
Example no_break_space_file_path_rejected :
  let nbsp := String (ascii_of_nat 194) (String (ascii_of_nat 160) "") in
  let params := mkParams (editor ideaOnLinux) nbsp 12 None "/home/x/proj" in
  validateExecutionParams params = Throw "文件路径不能为空"
  /\ launches (snd (executeJumpCommand installed params 1000 1010
                      linuxExecutor)) = [].
Proof. vm_compute. split; reflexivity. Qed.

(** A handler that throws lets its error leave [executeJumpCommand]. *)
Example throwing_handler_escapes :
  fst (fst (executeJumpCommand removed ideaOnLinux 3000 3010
              (setErrorHandler (fun _ => Some "handler failed")
                               linuxExecutor)))
  = Throw "handler failed".
Proof. vm_compute. reflexivity. Qed.

(** *** Execution statistics *)

(** What a call leaves alone: the statistics, the error handler, the
    platform and the builders. *)
Definition sameSetup (st1 st : State) : Prop :=
  executionStats st1 = executionStats st
  /\ errorHandler st1 = errorHandler st
  /\ platformInfo st1 = platformInfo st
  /\ commandBuilders st1 = commandBuilders st.

Lemma sameSetup_refl st : sameSetup st st.
Proof. repeat split. Qed.

Lemma sameSetup_trans st2 st1 st :
  sameSetup st2 st1 -> sameSetup st1 st -> sameSetup st2 st.
Proof.
  intros (A1 & A2 & A3 & A4) (B1 & B2 & B3 & B4).
  repeat split; congruence.
Qed.

Lemma sameSetup_withCache cm st : sameSetup (withCache cm st) st.
Proof. repeat split. Qed.

Lemma sameSetup_withProcesses r st : sameSetup (withProcesses r st) st.
Proof. repeat split. Qed.

Lemma buildCommand_sameSetup params now st :
  sameSetup (snd (buildCommand params now st)) st.
Proof.
  unfold buildCommand.
  destruct (editor params) as [e|]; [|apply sameSetup_refl].
  destruct (CacheManager.get _ now (cacheManager st)) as [cached cm1].
  assert (Hmiss : sameSetup
            (snd match selectBuilder st with
                 | None =>
                     (Throw ("不支持的平台: " ++ platform (platformInfo st)),
                      withCache cm1 st)
                 | Some builder =>
                     match builder params (platformInfo st) with
                     | Throw m => (Throw m, withCache cm1 st)
                     | Ok command_ =>
                         (Ok (VString command_),
                          withCache
                            (snd (CacheManager.set
                                    (generateCommandCacheKey e st)
                                    (VString command_) (Some 1000) now cm1))
                            st)
                     end
                 end) st).
  { destruct (selectBuilder st) as [b|]; [|apply sameSetup_withCache].
    destruct (b params (platformInfo st)); apply sameSetup_withCache. }
  destruct cached as [v|]; [|exact Hmiss].
  destruct (truthy v); [apply sameSetup_withCache | exact Hmiss].
Qed.

Lemma executeCommand_sameSetup w c e now st :
  sameSetup (snd (fst (executeCommand w c e now st))) st.
Proof.
  unfold executeCommand.
  destruct c as [c|b]; [|apply sameSetup_refl].
  destruct (launchRequest w c st) as [request|m]; [|apply sameSetup_refl].
  destruct (startProcess w request);
    simpl; try apply sameSetup_refl; apply sameSetup_withProcesses.
Qed.

Lemma attempt_sameSetup w params now st :
  sameSetup (snd (fst (attempt w params now st))) st.
Proof.
  unfold attempt.
  destruct (editor params) as [e|]; [|apply sameSetup_refl].
  destruct (validateExecutionParams params); [|apply sameSetup_refl].
  destruct (verifyEditorPath w (path e) now (cacheManager st))
    as [pathExists cm1].
  destruct (negb (awaitedTruthy pathExists));
    [apply sameSetup_withCache|].
  assert (Hb := buildCommand_sameSetup params now (withCache cm1 st)).
  destruct (buildCommand params now (withCache cm1 st)) as [[command_|m] st2];
    simpl in Hb.
  - destruct (negb (truthy command_)).
    + simpl. apply (sameSetup_trans _ _ _ Hb), sameSetup_withCache.
    + assert (Hx := executeCommand_sameSetup w command_ e now st2).
      destruct (executeCommand w command_ e now st2) as [[[pid|m] st3] effects];
        simpl in *;
        apply (sameSetup_trans _ _ _ Hx), (sameSetup_trans _ _ _ Hb),
              sameSetup_withCache.
  - simpl. apply (sameSetup_trans _ _ _ Hb), sameSetup_withCache.
Qed.

(** A call that resolves with [success = true]. *)
Definition succeeded (r : Res CommandExecutionResult) : bool :=
  match r with
  | Ok x => success x
  | Throw _ => false
  end.

Lemma executeJumpCommand_stats w params now finished st :
  let r := fst (fst (executeJumpCommand w params now finished st)) in
  let s := executionStats st in
  executionStats (snd (fst (executeJumpCommand w params now finished st)))
  = mkExecStats (totalExecutions s + 1)
      (if succeeded r then successfulExecutions s + 1
       else successfulExecutions s)
      (if succeeded r then failedExecutions s else failedExecutions s + 1)
      (totalExecutionTime s + (finished - now)).
Proof.
  unfold executeJumpCommand.
  assert (Hs := attempt_sameSetup w params now (countExecution st)).
  destruct (attempt w params now (countExecution st))
    as [[[[command_ pid]|m] st1] effects]; simpl in Hs;
    destruct Hs as (Hs & Hh & _ & _).
  - simpl. unfold updateExecutionStats. simpl. rewrite Hs. reflexivity.
  - assert (Hst : executionStats (updateExecutionStats false (finished - now) st1)
                  = mkExecStats (totalExecutions (executionStats st) + 1)
                      (successfulExecutions (executionStats st))
                      (failedExecutions (executionStats st) + 1)
                      (totalExecutionTime (executionStats st)
                       + (finished - now))).
    { unfold updateExecutionStats. simpl. rewrite Hs. reflexivity. }
    destruct (errorHandler (updateExecutionStats false (finished - now) st1))
      as [handler|]; [destruct (handler m)|]; simpl; exact Hst.
Qed.

Record Jump : Type := mkJump {
  jumpWorld : World;
  jumpParams : CommandExecutionParams;
  jumpStarted : Z;
  jumpFinished : Z
}.

(** Calls of [executeJumpCommand] one after the other: what each settles
    with, and the executor afterwards. *)
Fixpoint runJumps (jumps : list Jump) (st : State)
    : list (Res CommandExecutionResult) * State :=
  match jumps with
  | [] => ([], st)
  | j :: rest =>
      let out := executeJumpCommand (jumpWorld j) (jumpParams j)
                   (jumpStarted j) (jumpFinished j) st in
      let (rs, st') := runJumps rest (snd (fst out)) in
      (fst (fst out) :: rs, st')
  end.

Definition countSucceeded (rs : list (Res CommandExecutionResult)) : Z :=
  Z.of_nat (List.length (filter succeeded rs)).

Definition totalDuration (jumps : list Jump) : Z :=
  fold_right (fun j acc => (jumpFinished j - jumpStarted j + acc)%Z) 0%Z jumps.

Lemma runJumps_stats jumps :
  forall st,
    let s := executionStats st in
    let s' := executionStats (snd (runJumps jumps st)) in
    let rs := fst (runJumps jumps st) in
    (totalExecutions s' = totalExecutions s + Z.of_nat (List.length jumps)
     /\ successfulExecutions s' = successfulExecutions s + countSucceeded rs
     /\ failedExecutions s'
        = failedExecutions s + Z.of_nat (List.length jumps) - countSucceeded rs
     /\ totalExecutionTime s' = totalExecutionTime s + totalDuration jumps
     /\ List.length rs = List.length jumps)%Z.
Proof.
  induction jumps as [|j rest IH]; intros st.
  - simpl. unfold countSucceeded. simpl. repeat split; lia.
  - cbn zeta. simpl runJumps.
    assert (H1 := executeJumpCommand_stats (jumpWorld j) (jumpParams j)
                    (jumpStarted j) (jumpFinished j) st).
    cbn zeta in H1.
    set (out := executeJumpCommand (jumpWorld j) (jumpParams j)
                  (jumpStarted j) (jumpFinished j) st) in *.
    specialize (IH (snd (fst out))). cbn zeta in IH.
    destruct (runJumps rest (snd (fst out))) as [rs st'].
    simpl fst in *. simpl snd in *.
    destruct IH as (I1 & I2 & I3 & I4 & I5).
    rewrite H1 in I1, I2, I3, I4. simpl in I1, I2, I3, I4.
    unfold countSucceeded in *. simpl filter. simpl totalDuration.
    simpl List.length.
    destruct (succeeded (fst (fst out))); simpl List.length;
      repeat split; lia.
Qed.

(** X27: every call of [executeJumpCommand] is counted once, and once
    more as a success when it resolves with [success = true] and as a
    failure otherwise (failed checks, a failed launch, or an error handler
    that throws): after any calls on a new executor [totalExecutions] is
    the number of calls, [successfulExecutions] the number that succeeded,
    their sum with [failedExecutions] is [totalExecutions], and
    [totalExecutionTime] is the sum of their durations. *)
Theorem X27_every_call_counted_once :
  forall (jumps : list Jump) (cm : CacheManager.State JsValue)
         (platform_ arch_ release : string),
    let out := runJumps jumps (newExecutor cm platform_ arch_ release) in
    let s := executionStats (snd out) in
    (totalExecutions s = Z.of_nat (List.length jumps)
     /\ successfulExecutions s = countSucceeded (fst out)
     /\ successfulExecutions s + failedExecutions s = totalExecutions s
     /\ totalExecutionTime s = totalDuration jumps)%Z.
Proof.
  intros jumps cm p a r out s.
  destruct (runJumps_stats jumps (newExecutor cm p a r))
    as (H1 & H2 & H3 & H4 & _).
  fold out in H1, H2, H3, H4. fold s in H1, H2, H3, H4.
  simpl in H1, H2, H3, H4. repeat split; lia.
Qed.

(** *** How a command is launched *)

Lemma includes_prefix needle rest :
  JsString.includes needle (needle ++ rest) = true.
Proof.
  assert (Hp : String.prefix needle (needle ++ rest) = true).
  { induction needle as [|c n IH]; simpl.
    - now destruct rest.
    - destruct (ascii_dec c c) as [_|Hne]; [exact IH | congruence]. }
  destruct needle, rest; simpl in *; try reflexivity; now rewrite ?Hp.
Qed.

(** X28: on Windows, macOS and Linux with the built-in builders, the
    command built for a present editor is always handed to [exec], that
    is, run by a shell: on Windows by the platform test, on macOS and
    Linux because the built command starts with [nohup], which
    [containsShellOperators] finds.  [spawn] and [parseCommandForUnix] are
    not reached. *)
Theorem X28_builtin_commands_run_in_a_shell :
  forall (w : World) (st : State) (params : CommandExecutionParams)
         (e : EditorConfig) (platform_ arch_ release : string),
    platformInfo st = initializePlatformInfo platform_ arch_ release ->
    commandBuilders st = initializeCommandBuilders ->
    In platform_ ["win32"; "darwin"; "linux"] ->
    editor params = Some e ->
    exists command_,
      constructed params st = Ok (VString command_)
      /\ launchRequest w command_ st = Ok (Exec command_).
Proof.
  intros w st params e p a r Hp Hb Hin He.
  unfold constructed, selectBuilder, launchRequest.
  rewrite Hb, Hp, initializeCommandBuilders_table. simpl.
  destruct Hin as [<- | [<- | [<- | []]]]; simpl.
  - unfold windowsBuilder. rewrite He. eexists. split; reflexivity.
  - unfold unixBuilder. rewrite He. eexists. split; [reflexivity|].
    unfold containsShellOperators, shellOperators.
    cbn [existsb].
    change ("nohup '" ++ ?x) with ("nohup" ++ (" '" ++ x)).
    now rewrite includes_prefix.
  - unfold unixBuilder. rewrite He. eexists. split; [reflexivity|].
    unfold containsShellOperators, shellOperators.
    cbn [existsb].
    change ("nohup '" ++ ?x) with ("nohup" ++ (" '" ++ x)).
    now rewrite includes_prefix.
Qed.

Lemma X28_idea_on_linux :
  exists command_,
    constructed ideaOnLinux linuxExecutor = Ok (VString command_)
    /\ launchRequest installed command_ linuxExecutor = Ok (Exec command_).
Proof.
  apply (X28_builtin_commands_run_in_a_shell installed linuxExecutor
           ideaOnLinux
           (mkEditor "editor-3" "IDEA" "/opt/idea/bin/idea.sh"
              true (Some IDEA) None 0 0)
           "linux" "x64" "").
  - reflexivity.
  - reflexivity.
  - simpl. tauto.
  - reflexivity.
Defined.

(** *** The launch *)


(** The key under which [executeCommand] records the child process. *)
Definition processKey (e : EditorConfig) (now : Z) : string :=
  id e ++ "_" ++ JsString.ofNumber now.







(** *** Custom builders *)

Definition addCommandBuilder (platform_ : string) (builder : CommandBuilder)
    (st : State) : State :=
  mkState (cacheManager st) (platformInfo st) (executionStats st)
          (errorHandler st) (runningProcesses st)
          (JsMap.mset platform_ builder (commandBuilders st)).

Definition removeCommandBuilder (platform_ : string) (st : State) : State :=
  mkState (cacheManager st) (platformInfo st) (executionStats st)
          (errorHandler st) (runningProcesses st)
          (JsMap.mdelete platform_ (commandBuilders st)).

(** X30: a builder added for the executor's platform replaces the one in
    use; with the platform's builder removed the [default] builder is
    used; with both removed no command can be constructed, whatever the
    parameters: [buildCommand], unless the command cache serves the call,
    throws the error that names the platform as unsupported. *)
Theorem X30_builder_lookup_falls_back_to_default :
  forall (st : State) (builder : CommandBuilder),
    let platform_ := platform (platformInfo st) in
    selectBuilder (addCommandBuilder platform_ builder st) = Some builder
    /\ (platform_ <> "default" ->
        selectBuilder (removeCommandBuilder platform_ st)
        = JsMap.mget "default" (commandBuilders st))
    /\ forall (params : CommandExecutionParams),
         let bare :=
           removeCommandBuilder "default"
             (removeCommandBuilder platform_ st) in
         constructed params bare = Throw ("不支持的平台: " ++ platform_)
         /\ forall e now,
              editor params = Some e ->
              cachedCommand (generateCommandCacheKey e bare) now
                            (cacheManager bare) = None ->
              fst (buildCommand params now bare)
              = Throw ("不支持的平台: " ++ platform_).
Proof.
  intros st builder platform_. split; [|split].
  - unfold selectBuilder, addCommandBuilder. simpl. fold platform_.
    now rewrite JsMap.mget_mset_same.
  - intros Hne. unfold selectBuilder, removeCommandBuilder. simpl.
    fold platform_. rewrite JsMap.mget_mdelete_same.
    now apply JsMap.mget_mdelete_other.
  - intros params bare.
    assert (Hsel : selectBuilder bare = None).
    { unfold selectBuilder, bare, removeCommandBuilder. simpl.
      fold platform_. rewrite JsMap.mget_mdelete_same.
      destruct (string_dec "default" platform_) as [<- | Hne].
      - now rewrite JsMap.mget_mdelete_same.
      - rewrite (JsMap.mget_mdelete_other "default" platform_) by exact Hne.
        now rewrite JsMap.mget_mdelete_same. }
    assert (Hcon : constructed params bare
                   = Throw ("不支持的平台: " ++ platform_)).
    { unfold constructed. now rewrite Hsel. }
    split; [exact Hcon|].
    intros e now He Hmiss.
    destruct (buildCommand_constructs params e now bare He Hmiss) as [H _].
    now rewrite H.
Qed.

End CommandExecutor.
